(** * teachable-machine.js: the media classification orchestrator

  A shallow embedding of [src/index.js], [src/preprocess.js],
  [src/utils/ffmpeg.js], the model directories of [src/utils/io.js] and
  the command line.  JavaScript numbers are modelled by exact
  rationals ([Q]) where the code computes with them and by [Z] where the
  code only counts; asynchronous code is modelled by explicit state
  passing over a small error-and-state monad, and the cooperative
  scheduling of the worker pools by an explicit completion schedule. *)

From Stdlib Require Import ZArith QArith Qminmax Qround List String Ascii Bool Lia Permutation Lqa Sorted.
From stdpp Require Import base list gmap sets strings pretty.
Import ListNotations.

Local Open Scope Z_scope.

(** ** JavaScript values used by the pipeline *)
Module JS.

(** The outcome of an awaited call: a value, or a thrown [Error] with its
    message. *)
Inductive outcome (A : Type) : Type :=
| Ok (a : A)
| Throw (msg : string).
Arguments Ok {A} a.
Arguments Throw {A} msg.

Definition is_ok {A} (o : outcome A) : bool :=
  match o with Ok _ => true | Throw _ => false end.

(** A JavaScript number as far as [Number.isFinite] and comparisons with
    zero can tell. *)
Inductive number : Type :=
| Num (q : Q)
| PosInfinity
| NegInfinity
| NaN.

(** [Number.isFinite(x)] *)
Definition isFinite (x : number) : bool :=
  match x with Num _ => true | _ => false end.

(** [x > 0] *)
Definition gt0 (x : number) : bool :=
  match x with
  | Num q => negb (Qle_bool q 0)
  | PosInfinity => true
  | NegInfinity | NaN => false
  end.

(** [x <= 0] *)
Definition le0 (x : number) : bool :=
  match x with
  | Num q => Qle_bool q 0
  | NegInfinity => true
  | PosInfinity | NaN => false
  end.

(** [arr.slice(0, e)] for an integer [e]: a negative end counts from the
    end of the array. *)
Definition slice0 {A} (l : list A) (e : Z) : list A :=
  if e <? 0 then take (Z.to_nat (Z.max 0 (Z.of_nat (length l) + e))) l
  else take (Z.to_nat e) l.

(** [arr.slice(b, e)] for natural [b] and [e]. *)
Definition slice {A} (l : list A) (b e : nat) : list A :=
  take (e - b) (drop b l).

(** A score as the pipeline computes it: a rational, or [None] for the
    values arithmetic cannot use ([NaN], [undefined]). *)
Definition num : Type := option Q.

(** [a + b] *)
Definition nadd (a b : num) : num :=
  match a, b with
  | Some x, Some y => Some (x + y)%Q
  | _, _ => None
  end.

(** [a / b] for a non-zero rational [b] *)
Definition ndiv (a : num) (b : Q) : num :=
  match a with
  | Some x => Some (x / b)%Q
  | None => None
  end.

(** Sequencing of outcomes: the first [Throw] wins. *)
Definition obind {A B} (o : outcome A) (k : A -> outcome B) : outcome B :=
  match o with
  | Ok a => k a
  | Throw e => Throw e
  end.

(** [for (const x of l) acc.push(await f(x))] *)
Fixpoint mapM {A B} (f : A -> outcome B) (l : list A) : outcome (list B) :=
  match l with
  | [] => Ok []
  | x :: l' =>
      obind (f x) (fun y => obind (mapM f l') (fun ys => Ok (y :: ys)))
  end.

(** [Array.prototype.sort] is stable: [before a b] says that the
    comparator does not put [b] ahead of [a] ([compare(a, b) <= 0], a
    [NaN] comparison counting as 0). *)
Fixpoint insert_by {A} (before : A -> A -> bool) (a : A) (l : list A)
    : list A :=
  match l with
  | [] => [a]
  | y :: l' => if before a y then a :: l else y :: insert_by before a l'
  end.

Definition stable_sort {A} (before : A -> A -> bool) (l : list A) : list A :=
  foldr (insert_by before) [] l.

(** [(a, b) => scores[b] - scores[a]] *)
Definition desc_by (scores : list num) (a b : nat) : bool :=
  match scores !! a, scores !! b with
  | Some (Some x), Some (Some y) => Qle_bool y x
  | _, _ => true
  end.

(** [scores.map((s, i) => i).sort((a, b) => scores[b] - scores[a])] *)
Definition order_desc (scores : list num) : list nat :=
  stable_sort (desc_by scores) (seq 0 (length scores)).

End JS.
Import JS.

(** ** Media references and the environment of a call *)
Module Env.

Definition bytes := list Byte.byte.

(** A caller-supplied media reference: [undefined]/[null], a string, a
    [Buffer]/[Uint8Array], or some other object. *)
Inductive media : Type :=
| MUndefined
| MString (s : string)
| MBuffer (b : bytes)
| MObject.

(** JavaScript truthiness of a media reference ([!x] is its negation). *)
Definition truthy (m : media) : bool :=
  match m with
  | MUndefined => false
  | MString s => negb (String.eqb s "")
  | MBuffer _ | MObject => true
  end.

Inductive io_mode : Type := Ram | Disk.

(** Everything the pipeline awaits from outside: network, file contents,
    FFmpeg, sharp and the inference engine.  Each field is the outcome the
    corresponding call has in the run under study. *)
Record world : Type := {
  w_http : string -> outcome bytes;          (* http(url).buffer() *)
  w_readFile : string -> outcome bytes;      (* fs.readFile(path) *)
  w_statSize : string -> option Z;           (* fs.stat(p).catch(() => null) *)
  w_base64 : string -> bytes;                (* Buffer.from(s, 'base64') *)
  w_mkdtemp : nat -> bool;                   (* does the n-th fs.mkdtemp succeed *)
  w_writeFile : string -> bytes -> outcome unit;
  w_ffmpeg : outcome string;                 (* ensureFFmpeg() *)
  w_probePath : string -> option Q;          (* parsed duration, or null *)
  w_probeBuffer : bytes -> option Q;
  w_grab : string -> Q -> option bytes;      (* one ffmpeg seek: the frame file, if written *)
  w_extractAuto : bytes -> Z -> Q -> outcome (list bytes);
  w_workerResize : bytes -> Z -> Z -> bool -> outcome (list Z);
  w_sharpResize : bytes -> Z -> Z -> bool -> outcome (list Z);
  w_predict : list (list Q) -> outcome (list (list Q)); (* model.predict(batch).array() *)
  w_cpus : option nat;                       (* os.cpus().length when available *)
  w_sched : nat -> nat                       (* which in-flight job settles next *)
}.

(** The temp-directory part of the file system. *)
Record fsys : Type := {
  dirs : gset string;      (* temp directories that exist *)
  locked : gset string;    (* directories whose removal fails *)
  created : nat            (* number of mkdtemp calls so far *)
}.

(** The release action returned with a resolved path: the closure
    [async () => { if (dir) await fs.rm(dir, ...) }] with the value its
    captured [dir] has, or the empty closure [async () => {}]. *)
Inductive cleanup_fn : Type :=
| CleanupNoop
| CleanupRm (dir : option string).

(** Observable steps of one video request, in the order they happen. *)
Inductive event : Type :=
| EvGetMediaBuffer
| EvEnsureLocalPath
| EvProbe
| EvExtract (mode : io_mode)
| EvResize
| EvPredict
| EvCleanup (c : cleanup_fn) (completed : bool)    (* await cleanup() *)
| EvRelease (c : cleanup_fn) (completed : bool).   (* await loc.cleanup() of the fallback *)

(** The [let] variables of [classifyVideo] that are assigned inside its
    [try] block and read after it. *)
Record locals : Type := {
  cleanup : cleanup_fn;
  usedMode : io_mode;
  fallbackToDisk : bool;
  sizeBytes : Z;
  tempCleaned : bool
}.

Record state : Type := {
  fs : fsys;
  vars : locals;
  trace : list event
}.

Definition set_fs (f : fsys) (s : state) : state :=
  {| fs := f; vars := vars s; trace := trace s |}.
Definition set_vars (v : locals) (s : state) : state :=
  {| fs := fs s; vars := v; trace := trace s |}.
Definition add_event (e : event) (s : state) : state :=
  {| fs := fs s; vars := vars s; trace := trace s ++ [e] |}.

End Env.
Import Env.

(** ** Awaited computations: state passing with exceptions *)
Module Async.

Definition M (A : Type) : Type := state -> outcome A * state.

Definition ret {A} (a : A) : M A := fun s => (Ok a, s).
Definition throw {A} (msg : string) : M A := fun s => (Throw msg, s).
Definition bind {A B} (m : M A) (k : A -> M B) : M B :=
  fun s => match m s with
           | (Ok a, s') => k a s'
           | (Throw e, s') => (Throw e, s')
           end.
Definition lift {A} (o : outcome A) : M A := fun s => (o, s).
Definition get : M state := fun s => (Ok s, s).
Definition modify (f : state -> state) : M unit := fun s => (Ok tt, f s).
Definition log (e : event) : M unit := modify (add_event e).

(** [try { body } catch { handler }] *)
Definition try_catch {A} (body : M A) (handler : string -> M A) : M A :=
  fun s => match body s with
           | (Ok a, s') => (Ok a, s')
           | (Throw e, s') => handler e s'
           end.

(** [try { body } finally { fin }]: [fin] runs on both exits; when it
    throws, its exception replaces the outcome of [body]. *)
Definition try_finally {A} (body : M A) (fin : M unit) : M A :=
  fun s => match body s with
           | (r, s') =>
               match fin s' with
               | (Ok _, s'') => (r, s'')
               | (Throw e, s'') => (Throw e, s'')
               end
           end.

End Async.
Import Async.

Declare Scope async_scope.
Delimit Scope async_scope with async.
Notation "x <- m ;; k" := (bind m (fun x => k))
(at level 100, m at next level, right associativity) : async_scope.
Notation "m ;;; k" := (bind m (fun _ => k))
(at level 100, right associativity) : async_scope.
Local Open Scope async_scope.

(** ** The bounded worker pool

  The same loop is written out four times in the sources: for a video
  batch ([classifyVideo] on an array), in [extractFrames], in
  [extractFramesFromBuffer] and for turbo preprocessing.  A runner is an
  [async function] that repeatedly takes the head of the shared queue and
  awaits it; the runners interleave only at their [await]s, and the
  schedule says which in-flight job settles next. *)
Module Pool.
Section Pool.
Context {J R Store : Type}.
(** what awaiting a job gives *)
Variable exec : J -> outcome R.
(** how a runner records a result: [results[idx] = r] or [out.push(r)] *)
Variable store : nat -> R -> Store -> Store.
(** [jobs.length] *)
Variable njobs : nat.

Record pstate : Type := {
  queue : list J;                  (* jobs.slice(), shifted by the runners *)
  inflight : list (nat * J);       (* per awaiting runner: its idx and job *)
  slots : Store;                       (* the result array *)
  rejected : option string         (* first rejection seen by Promise.all *)
}.

(** A runner at the head of [while (queue.length)], up to its next
    [await]: it computes [idx = jobs.length - queue.length], shifts the
    queue and starts the job; with an empty queue it returns. *)
Definition runner_loop (st : pstate) : pstate :=
  match queue st with
  | [] => st
  | job :: q =>
      {| queue := q;
         inflight := inflight st ++ [((njobs - length (queue st))%nat, job)];
         slots := slots st;
         rejected := rejected st |}
  end.

(** The in-flight job picked by [choice] settles; its runner stores the
    result and loops, or rejects. *)
Definition settle (choice : nat) (st : pstate) : pstate :=
  match inflight st !! (choice mod length (inflight st))%nat with
  | None => st
  | Some (idx, job) =>
      let others := delete (choice mod length (inflight st))%nat (inflight st) in
      match exec job with
      | Ok r =>
          runner_loop {| queue := queue st; inflight := others;
                         slots := store idx r (slots st);
                         rejected := rejected st |}
      | Throw e =>
          {| queue := queue st; inflight := others; slots := slots st;
             rejected := match rejected st with
                         | None => Some e
                         | Some e0 => Some e0
                         end |}
      end
  end.

Fixpoint settle_all (fuel : nat) (sched : nat -> nat) (t : nat)
    (st : pstate) : pstate :=
  match fuel with
  | O => st
  | S fuel' => settle_all fuel' sched (S t) (settle (sched t) st)
  end.

(** [Math.max(1, Math.min(concurrency, queue.length))], the number of
    runners created. *)
Definition width (concurrency : Z) : nat :=
  Z.to_nat (Z.max 1 (Z.min concurrency (Z.of_nat njobs))).

(** [new Array(width).fill(0).map(async function run() {...})] followed
    by [await Promise.all(runners)]. *)
Definition start (jobs : list J) (concurrency : Z) (init : Store) : pstate :=
  Nat.iter (width concurrency) runner_loop
    {| queue := jobs; inflight := []; slots := init; rejected := None |}.

Definition finish (st : pstate) : outcome Store :=
  match rejected st with
  | Some e => Throw e
  | None => Ok (slots st)
  end.

End Pool.

(** The pool with [results[idx] = await job()]. *)
Definition run_indexed {J R} (exec : J -> outcome R) (jobs : list J)
    (concurrency : Z) (sched : nat -> nat) : outcome (list (option R)) :=
  finish
    (settle_all exec (fun idx r (res : list (option R)) => <[idx := Some r]> res)
       (length jobs) (length jobs) sched 0
       (start (length jobs) jobs concurrency (replicate (length jobs) None))).

(** The pool with [out.push(await job())]. *)
Definition run_pushing {J R} (exec : J -> outcome R) (jobs : list J)
    (concurrency : Z) (sched : nat -> nat) : outcome (list R) :=
  finish
    (settle_all exec (fun _ r (out : list R) => out ++ [r])
       (length jobs) (length jobs) sched 0
       (start (length jobs) jobs concurrency [])).

End Pool.

(** ** String tests used to classify a media reference *)
Module Str.

(** [s.startsWith(p)] *)
Definition startsWith (p s : string) : bool := String.prefix p s.

(** the text before the first comma *)
Fixpoint upto_comma (s : string) : string :=
  match s with
  | EmptyString => EmptyString
  | String c s' =>
      if Ascii.eqb c ","%char then EmptyString else String c (upto_comma s')
  end.

(** the text after the first comma, when there is one *)
Fixpoint after_comma (s : string) : option string :=
  match s with
  | EmptyString => None
  | String c s' => if Ascii.eqb c ","%char then Some s' else after_comma s'
  end.

(** [s.split(',')[1]] ([None] is [undefined]) *)
Definition split_comma_1 (s : string) : option string :=
  match after_comma s with
  | None => None
  | Some rest => Some (upto_comma rest)
  end.

(** one character of the class [[A-Za-z0-9+/=]] *)
Definition base64_char (c : ascii) : bool :=
  let n := nat_of_ascii c in
  ((65 <=? n) && (n <=? 90) || (97 <=? n) && (n <=? 122)
   || (48 <=? n) && (n <=? 57)
   || (n =? 43) || (n =? 47) || (n =? 61))%nat.

Fixpoint all_base64 (s : string) : bool :=
  match s with
  | EmptyString => true
  | String c s' => base64_char c && all_base64 s'
  end.

(** [/^[A-Za-z0-9+/=]+$/.test(s) && (s.length % 4 === 0)] *)
Definition looksBase64 (s : string) : bool :=
  negb (String.eqb s "") && all_base64 s
  && (String.length s mod 4 =? 0)%nat.

End Str.

(** ** [src/utils/ffmpeg.js] *)
Module Ffmpeg.

(** The body of the [for] loop of [sampleTimestamps]: [n] iterations are
    left, [k] is the loop counter and [ts] the array built so far. *)
Fixpoint sample_loop (n : nat) (k : Z) (count : Z) (durationSec : Q)
    (ts : list Q) : list Q :=
  match n with
  | O => ts
  | S n' =>
      let t := (((inject_Z k + (1 # 2)) / inject_Z count) * durationSec)%Q in
      sample_loop n' (k + 1) count durationSec (ts ++ [t])
  end.

(** [sampleTimestamps(durationSec, count)] *)
Definition sampleTimestamps (durationSec : Q) (count : Z) : list Q :=
  if Qeq_bool durationSec 0 || Qle_bool durationSec 0
     || (count =? 0) || (count <=? 0)
  then []
  else sample_loop (Z.to_nat count) 0 count durationSec [].

(** [safeTimestamps(durationSec, timestamps, marginSec = 0.05)] *)
Definition safeTimestamps (durationSec : Q) (timestamps : list Q)
    (marginSec : option Q) : list Q :=
  let margin := default (5 # 100)%Q marginSec in
  let maxT := Qmax 0 (durationSec - Qmax 0 margin) in
  map (fun t => Qmin (Qmax 0 t) maxT) timestamps.

(** [{ path, cleanup }] *)
Record resolved : Type := {
  path : string;
  release : cleanup_fn
}.

(** [await fs.rm(dir, { recursive: true, force: true })]: with [force] a
    missing path is not an error; removal of an existing directory can
    still fail. *)
Definition fs_rm_force (dir : string) : M unit :=
  fun s =>
    let f := fs s in
    if decide (dir ∈ dirs f ∧ dir ∈ locked f) then (Throw "EBUSY: rm failed", s)
    else (Ok tt, set_fs {| dirs := dirs f ∖ {[dir]}; locked := locked f;
                           created := created f |} s).

(** Invoking a release action. *)
Definition run_cleanup (c : cleanup_fn) : M unit :=
  match c with
  | CleanupNoop => ret tt
  | CleanupRm None => ret tt
  | CleanupRm (Some dir) => fs_rm_force dir
  end.

Section WithWorld.
Variable w : world.

(** [ensureFFmpeg()] *)
Definition ensureFFmpeg : M string := lift (w_ffmpeg w).

(** [await fs.mkdtemp(path.join(os.tmpdir(), prefix))] *)
Definition fs_mkdtemp (prefix : string) : M string :=
  fun s =>
    let f := fs s in
    if w_mkdtemp w (created f) then
      let dir := ("/tmp/" ++ prefix ++ pretty (created f))%string in
      (Ok dir, set_fs {| dirs := {[dir]} ∪ dirs f; locked := locked f;
                         created := S (created f) |} s)
    else
      (Throw "mkdtemp failed",
       set_fs {| dirs := dirs f; locked := locked f;
                 created := S (created f) |} s).

(** The inner [writeTemp] of [ensureLocalPathWithCleanup]; it returns the
    file together with the value it gave to the captured [dir]. *)
Definition writeTemp (buffer : bytes) : M (string * string) :=
  dir <- fs_mkdtemp "tmvid-" ;;
  let file := (dir ++ "/input")%string in
  lift (w_writeFile w file buffer) ;;;
  ret (file, dir).

Definition temp_resolved (buffer : bytes) : M resolved :=
  fd <- writeTemp buffer ;;
  ret {| path := fst fd; release := CleanupRm (Some (snd fd)) |}.

(** [ensureLocalPathWithCleanup(src)] *)
Definition ensureLocalPathWithCleanup (src : media) : M resolved :=
  match src with
  | MBuffer b => temp_resolved b
  | MUndefined | MObject => throw "Invalid source"
  | MString s =>
      if String.eqb s "" then throw "Invalid source"
      else if Str.startsWith "http" s then
        buf <- lift (w_http w s) ;; temp_resolved buf
      else if Str.startsWith "data:" s then
        match Str.split_comma_1 s with
        | None => throw "Invalid data URI"
        | Some base64 =>
            if String.eqb base64 "" then throw "Invalid data URI"
            else temp_resolved (w_base64 w base64)
        end
      else if Str.looksBase64 s then
        try_catch (temp_resolved (w_base64 w s))
          (fun _ => ret {| path := s; release := CleanupNoop |})
      else ret {| path := s; release := CleanupNoop |}
  end.

(** [getMediaBuffer(src)] *)
Definition getMediaBuffer (src : media) : M bytes :=
  match src with
  | MBuffer b => ret b
  | MUndefined | MObject => throw "Invalid source"
  | MString s =>
      if String.eqb s "" then throw "Invalid source"
      else if Str.startsWith "http" s then lift (w_http w s)
      else if Str.startsWith "data:" s then
        match Str.split_comma_1 s with
        | None => throw "Invalid data URI"
        | Some base64 =>
            if String.eqb base64 "" then throw "Invalid data URI"
            else ret (w_base64 w base64)
        end
      else if Str.looksBase64 s then ret (w_base64 w s)
      else lift (w_readFile w s)
  end.

(** One job of [extractFrames]: seek, read the frame file, and on failure
    retry 0.1 s earlier; [None] is [undefined].  The job never rejects. *)
Definition frame_job (inputPath : string) (t : Q) : outcome (option bytes) :=
  let seek := Qmax 0 t in
  match w_grab w inputPath seek with
  | Some b => Ok (Some b)
  | None => Ok (w_grab w inputPath (Qmax 0 (seek - (1 # 10))))
  end.

(** [results.filter(Boolean)]: holes and [undefined] are dropped. *)
Definition filter_Boolean {A} (results : list (option (option A))) : list A :=
  omap (fun r => match r with Some (Some b) => Some b | _ => None end) results.

(** [extractFrames(ffmpegPath, inputPath, timestampsSec, { concurrency })] *)
Definition extractFrames (inputPath : string) (timestampsSec : list Q)
    (concurrency : Z) : M (list bytes) :=
  dir <- fs_mkdtemp "tmframes-" ;;
  results <- lift (Pool.run_indexed (frame_job inputPath) timestampsSec
                     concurrency (w_sched w)) ;;
  let buffers := filter_Boolean results in
  fs_rm_force dir ;;;
  ret buffers.

(** [extractFramesAutoFromBuffer(ffmpegPath, buffer, frames, durationSec)]:
    one FFmpeg pass whose PNG stream is split outside this model. *)
Definition extractFramesAutoFromBuffer (buffer : bytes) (frames : Z)
    (durationSec : Q) : M (list bytes) :=
  lift (w_extractAuto w buffer frames durationSec).

End WithWorld.
End Ffmpeg.

(** ** [src/preprocess.js] *)
Module Preprocess.
Section WithWorld.
Variable w : world.

(** [getImageBuffer(imageUrl)] *)
Definition getImageBuffer (imageUrl : media) : outcome bytes :=
  match imageUrl with
  | MBuffer b => Ok b
  | MUndefined | MObject =>
      Throw "imageUrl must be a non-empty string or Buffer/Uint8Array"
  | MString s =>
      if String.eqb s "" then
        Throw "imageUrl must be a non-empty string or Buffer/Uint8Array"
      else if Str.startsWith "data:image/" s then
        match Str.split_comma_1 s with
        | None => Throw "Invalid Base64 data URI"
        | Some base64Data =>
            if String.eqb base64Data "" then Throw "Invalid Base64 data URI"
            else Ok (w_base64 w base64Data)
        end
      else if Str.startsWith "http" s then
        match w_http w s with
        | Ok b => Ok b
        | Throw e => Throw ("Failed to download image. Status: " ++ e)
        end
      else
        match w_readFile w s with
        | Ok b => Ok b
        | Throw e =>
            if Str.looksBase64 s then Ok (w_base64 w s)
            else if Str.startsWith "ENOENT" e
                 then Throw ("Local file not found: " ++ s)
                 else Throw e
        end
  end.

(** [toSizedRGBTensor(imageBuffer, targetW, targetH, { centerCrop })] with
    the value of [PREPROCESS_OPTS.useWorkers]; the result is [sized.data]. *)
Definition toSizedRGBTensor (useWorkers : bool) (imageBuffer : bytes)
    (targetW targetH : Z) (centerCrop : bool) : outcome (list Z) :=
  let sharp := w_sharpResize w imageBuffer targetW targetH centerCrop in
  if useWorkers then
    match w_workerResize w imageBuffer targetW targetH centerCrop with
    | Ok data => Ok data
    | Throw _ => sharp
    end
  else sharp.

End WithWorld.
End Preprocess.

(** ** [src/index.js] *)
Module TM.

(** The loaded model: its label list ([model.classes]) and the entries 1
    and 2 of [model.inputs[0].shape] ([None] when not a number). *)
Record model : Type := {
  classes : list string;
  shapeH : option Z;
  shapeW : option Z
}.

(** A [TeachableMachine] instance, with the preprocessing option its
    [create] call has set. *)
Record classifier : Type := {
  tm_model : model;
  ioMode : io_mode;
  useWorkers : bool
}.

(** [{ class, score, rank }]; [class] is [None] when [classes[idx]] is
    [undefined]. *)
Record prediction : Type := {
  class : option string;
  score : num;
  rank : Z
}.

(** [Math.min(topK ?? classes.length, classes.length)] *)
Definition clampK (topK : option Z) (cls : list string) : Z :=
  Z.min (default (Z.of_nat (length cls)) topK) (Z.of_nat (length cls)).

(** One row of [tf.topk(logits, k)]: the [k] largest entries in
    descending order with their column indices, ties by ascending column;
    the operator rejects a [k] outside [0 .. width]. *)
Definition topk_row (k : Z) (row : list Q) : outcome (list num * list nat) :=
  if k <? 0 then Throw "'k' passed to topk() must be >= 0"
  else if Z.of_nat (length row) <? k
  then Throw "'k' passed to topk() must be <= the last dimension"
  else
    let scores := map Some row in
    let idx := take (Z.to_nat k) (order_desc scores) in
    Ok (map (fun i => mjoin (scores !! i)) idx, idx).

(** [tf.topk(logits, k)] on a batch, as [values.array()] and
    [indices.array()].  The two tensors have shape [[n, k]]; [array()] of
    a tensor without elements is the empty array, whatever its shape, so
    with [k = 0] there are no rows. *)
Definition topk (logits : list (list Q)) (k : Z)
    : outcome (list (list num) * list (list nat)) :=
  obind (mapM (topk_row k) logits) (fun rows =>
    if k =? 0 then Ok ([], []) else Ok (map fst rows, map snd rows)).

(** [tf.stack(tensors)], which rejects an empty list; the tensors of a
    call all have the shape [tensor3d] gave them. *)
Definition stack {A} (tensors : list A) : outcome (list A) :=
  match tensors with
  | [] => Throw "Pass at least one tensor to tf.stack"
  | _ :: _ => Ok tensors
  end.

(** [(pixel - 127.5) / 127.5] on every sample of a tensor *)
Definition normalize (t : list Z) : list Q :=
  map (fun p => ((inject_Z p - (255 # 2)) / (255 # 2))%Q) t.

(** [tf.tensor3d(data, [targetH, targetW, 3], 'int32')], which rejects
    data of another size. *)
Definition tensor3d (data : list Z) (targetH targetW : Z) : outcome (list Z) :=
  if Z.of_nat (length data) =? targetH * targetW * 3 then Ok data
  else Throw "tensor3d: values do not match the shape".

(** [getTopKClasses(logits, classes, topK)] *)
Definition getTopKClasses (logits : list (list Q)) (cls : list string)
    (topK : option Z) : outcome (list (option string * num)) :=
  let k := clampK topK cls in
  obind (topk logits k) (fun vi =>
    let v := concat (fst vi) in
    let i := concat (snd vi) in
    Ok (imap (fun j idx => (cls !! idx, mjoin (v !! j))) i)).

(** One entry of [results] of an image batch: [error] is set on an entry
    recording a failed download, [predictions] on the others. *)
Record image_result : Type := {
  ir_input : media;
  ir_error : option string;
  ir_predictions : option (list prediction)
}.

(** The value [classifyBatch] returns, without backend and timings. *)
Record batch_result : Type := {
  br_count : nat;
  br_classesCount : nat;
  br_results : list image_result
}.

Section WithWorld.
Variable w : world.
Variable tm : classifier.

Definition cls : list string := classes (tm_model tm).

(** [toSizedRGBTensor] followed by [tf.tensor3d] *)
Definition prepare_tensor (buf : bytes) (targetW targetH : Z)
    (centerCrop : bool) : outcome (list Z) :=
  obind (Preprocess.toSizedRGBTensor w (useWorkers tm) buf targetW targetH centerCrop)
    (fun data => tensor3d data targetH targetW).

(** [_decodeAndPredict(imageBuffer, { topK, centerCrop })]: the
    [predictions] of the result. *)
Definition decodeAndPredict (imageBuffer : bytes) (topK : option Z)
    (centerCrop : bool) : outcome (list prediction) :=
  match shapeH (tm_model tm), shapeW (tm_model tm) with
  | Some targetH, Some targetW =>
      obind (prepare_tensor imageBuffer targetW targetH centerCrop) (fun t =>
      obind (w_predict w [normalize t]) (fun logits =>
      obind (getTopKClasses logits cls topK) (fun top =>
      Ok (imap (fun idx p => {| class := fst p; score := snd p;
                                rank := Z.of_nat idx + 1 |}) top))))
  | _, _ => Throw "Model input shape is not fully defined."
  end.

(** [_classifyImage({ imageUrl, topK, centerCrop })] *)
Definition classifyImage (imageUrl : media) (topK : option Z)
    (centerCrop : bool) : outcome image_result :=
  obind (Preprocess.getImageBuffer w imageUrl) (fun imageBuffer =>
  obind (decodeAndPredict imageBuffer topK centerCrop) (fun preds =>
  Ok {| ir_input := imageUrl; ir_error := None;
        ir_predictions := Some preds |})).

(** The entry pushed for a failed download. *)
Definition failure_entry (urls : list media) (p : nat * outcome bytes)
    : image_result :=
  {| ir_input := default MUndefined (urls !! fst p);
     ir_error := match snd p with Throw e => Some e | Ok _ => None end;
     ir_predictions := None |}.

(** The entry pushed for row [row] of the batch output. *)
Definition success_entry (urls : list media) (vals : list (list num))
    (inds : list (list nat)) (row : nat) (p : nat * outcome bytes)
    : outcome image_result :=
  match inds !! row with
  | None => Throw "TypeError: Cannot read properties of undefined (reading 'map')"
  | Some irow =>
      Ok {| ir_input := default MUndefined (urls !! fst p);
            ir_error := None;
            ir_predictions :=
              Some (imap (fun j clsIdx =>
                            {| class := cls !! clsIdx;
                               score := mjoin (vals !! row ≫= (.!! j));
                               rank := Z.of_nat j + 1 |}) irow) |}
  end.

(** [okPairs.forEach(({ idx }, row) => results.push(...))], [row] being
    the index of the first pair of [okPairs] still to do. *)
Fixpoint push_successes (urls : list media) (vals : list (list num))
    (inds : list (list nat)) (row : nat) (okPairs : list (nat * outcome bytes))
    (results : list image_result) : outcome (list image_result) :=
  match okPairs with
  | [] => Ok results
  | p :: rest =>
      obind (success_entry urls vals inds row p) (fun e =>
      push_successes urls vals inds (S row) rest (results ++ [e]))
  end.

(** The buffer of a pair of [okPairs]. *)
Definition pair_buf (p : nat * outcome bytes) : bytes :=
  match snd p with Ok b => b | Throw _ => [] end.

(** [processChunk(urls)] of [classifyBatch]; [results] is the shared
    array before the call and the value is the array after it. *)
Definition processChunk (targetH targetW : Z) (topK : option Z)
    (centerCrop : bool) (urls : list media) (results : list image_result)
    : outcome (list image_result) :=
  let dlResults := map (Preprocess.getImageBuffer w) urls in
  let pairs := imap (fun i r => (i, r)) dlResults in
  let okPairs := filter (fun x => is_ok (snd x) = true) pairs in
  let failPairs := filter (fun x => is_ok (snd x) = false) pairs in
  let results1 := results ++ map (failure_entry urls) failPairs in
  let buffers := map pair_buf okPairs in
  obind (mapM (fun buf => prepare_tensor buf targetW targetH centerCrop) buffers)
    (fun tensors =>
  obind (stack (map normalize tensors)) (fun batch =>
  obind (w_predict w batch) (fun logits =>
  let k := clampK topK cls in
  obind (topk logits k) (fun vi =>
  push_successes urls (fst vi) (snd vi) 0 okPairs results1)))).

(** The [for (let i = 0; i < imageUrls.length; i += batchSize)] loop. *)
Fixpoint chunk_loop (fuel : nat) (i batchSize : nat) (targetH targetW : Z)
    (topK : option Z) (centerCrop : bool) (imageUrls : list media)
    (results : list image_result) : outcome (list image_result) :=
  match fuel with
  | O => Ok results
  | S fuel' =>
      if (i <? length imageUrls)%nat then
        obind (processChunk targetH targetW topK centerCrop
                 (slice imageUrls i (i + batchSize)) results)
          (chunk_loop fuel' (i + batchSize) batchSize targetH targetW topK
             centerCrop imageUrls)
      else Ok results
  end.

(** [classifyBatch({ imageUrls, topK, centerCrop, batchSize })] *)
Definition classifyBatch (imageUrls : list media) (topK : option Z)
    (centerCrop : bool) (batchSize : option Z) : outcome batch_result :=
  if (length imageUrls =? 0)%nat then Throw "imageUrls must be a non-empty array"
  else
    match shapeH (tm_model tm), shapeW (tm_model tm) with
    | Some targetH, Some targetW =>
        let chunked :=
          match batchSize with
          | Some b => (negb (b =? 0)) && (0 <? b) && (b <? Z.of_nat (length imageUrls))
          | None => false
          end in
        obind
          (if chunked
           then chunk_loop (length imageUrls) 0 (Z.to_nat (default 0 batchSize))
                  targetH targetW topK centerCrop imageUrls []
           else processChunk targetH targetW topK centerCrop imageUrls [])
          (fun results =>
             Ok {| br_count := length imageUrls;
                   br_classesCount := length cls;
                   br_results := results |})
    | _, _ => Throw "Model input shape is not fully defined."
    end.

(** *** Video *)

(** The options of [classifyVideo]; [None] is an omitted option, which
    takes the default of the parameter list. *)
Record video_opts : Type := {
  o_frames : option number;                 (* frames = 10 *)
  o_topK : option Z;
  o_centerCrop : bool;
  o_turboMode : bool;
  o_extractionConcurrency : option Z;
  o_preprocessConcurrency : option Z;
  o_maxConcurrent : option Z;               (* maxConcurrent = 2 *)
  o_maxBytes : option Z                     (* maxBytes = 10 * 1024 * 1024 *)
}.

(** The [io] object of a video result. *)
Record io_info : Type := {
  io_mode_used : io_mode;
  io_fallbackToDisk : bool;
  io_tempCleaned : bool;
  io_sizeBytes : Z;
  io_maxBytes : Z
}.

Record frame_prediction : Type := {
  frameIndex : nat;
  timestampSec : option Q;
  fp_predictions : list prediction
}.

Record video_result : Type := {
  vr_input : media;
  vr_frames : Z;
  vr_turboMode : bool;
  vr_io : io_info;
  vr_results : list frame_prediction;
  vr_aggregate : list prediction
}.

Inductive frames_source : Type :=
| SrcBuffer (b : bytes)
| SrcPath (p : string).

(** Assignments to the [let] variables. *)
Definition assign (f : locals -> locals) : M unit :=
  modify (fun s => set_vars (f (vars s)) s).
Definition set_cleanup (c : cleanup_fn) (v : locals) : locals :=
  {| cleanup := c; usedMode := usedMode v; fallbackToDisk := fallbackToDisk v;
     sizeBytes := sizeBytes v; tempCleaned := tempCleaned v |}.
Definition set_usedMode (m : io_mode) (v : locals) : locals :=
  {| cleanup := cleanup v; usedMode := m; fallbackToDisk := fallbackToDisk v;
     sizeBytes := sizeBytes v; tempCleaned := tempCleaned v |}.
Definition set_fallbackToDisk (b : bool) (v : locals) : locals :=
  {| cleanup := cleanup v; usedMode := usedMode v; fallbackToDisk := b;
     sizeBytes := sizeBytes v; tempCleaned := tempCleaned v |}.
Definition set_sizeBytes (n : Z) (v : locals) : locals :=
  {| cleanup := cleanup v; usedMode := usedMode v;
     fallbackToDisk := fallbackToDisk v; sizeBytes := n;
     tempCleaned := tempCleaned v |}.
Definition set_tempCleaned (b : bool) (v : locals) : locals :=
  {| cleanup := cleanup v; usedMode := usedMode v;
     fallbackToDisk := fallbackToDisk v; sizeBytes := sizeBytes v;
     tempCleaned := b |}.

(** [await c()], recorded in the trace by [ev] with whether it completed. *)
Definition call_cleanup (ev : cleanup_fn -> bool -> event) (c : cleanup_fn)
    : M unit :=
  fun s => match Ffmpeg.run_cleanup c s with
           | (Ok u, s') => (Ok u, add_event (ev c true) s')
           | (Throw e, s') => (Throw e, add_event (ev c false) s')
           end.

(** [await cleanup(); tempCleaned = true;] on the current [cleanup]. *)
Definition cleanup_and_mark : M unit :=
  s <- get ;;
  call_cleanup EvCleanup (cleanup (vars s)) ;;;
  assign (set_tempCleaned true).

(** [if (maxBytes && sizeBytes > maxBytes) throw ...] *)
Definition size_check (maxBytes : Z) : M unit :=
  s <- get ;;
  if negb (maxBytes =? 0) && (maxBytes <? sizeBytes (vars s))
  then throw "Media exceeds maxBytes"
  else ret tt.

(** The [ram] branch of the acquisition. *)
Definition resolve_ram (videoUrl : media) (maxBytes : Z)
    : M (option Q * frames_source) :=
  log EvGetMediaBuffer ;;;
  mediaBuf <- Ffmpeg.getMediaBuffer w videoUrl ;;
  assign (set_sizeBytes (Z.of_nat (length mediaBuf))) ;;;
  size_check maxBytes ;;;
  log EvProbe ;;;
  ret (w_probeBuffer w mediaBuf, SrcBuffer mediaBuf).

(** The [disk] branch of the acquisition. *)
Definition resolve_disk (videoUrl : media) (maxBytes : Z)
    : M (option Q * frames_source) :=
  log EvEnsureLocalPath ;;;
  loc <- Ffmpeg.ensureLocalPathWithCleanup w videoUrl ;;
  assign (set_cleanup (Ffmpeg.release loc)) ;;;
  try_catch
    (assign (set_sizeBytes (default 0 (w_statSize w (Ffmpeg.path loc)))) ;;;
     size_check maxBytes)
    (fun _ => ret tt) ;;;
  log EvProbe ;;;
  ret (w_probePath w (Ffmpeg.path loc), SrcPath (Ffmpeg.path loc)).

(** [os.cpus().length], or 4 *)
Definition cpuCount : Z := Z.of_nat (default 4%nat (w_cpus w)).

(** The first extraction, in the mode of the instance.  [framesSource] is
    the buffer in [ram] mode and the path in [disk] mode; the last branch
    stands for the pairings the acquisition never produces. *)
Definition extract_first (framesSource : frames_source) (frames : Z)
    (durationSec : Q) (stamps : list Q) (extractConc : Z) : M (list bytes) :=
  s <- get ;;
  match usedMode (vars s), framesSource with
  | Ram, SrcBuffer b =>
      log (EvExtract Ram) ;;;
      Ffmpeg.extractFramesAutoFromBuffer w b frames durationSec
  | Disk, SrcPath p =>
      log (EvExtract Disk) ;;;
      Ffmpeg.extractFrames w p stamps extractConc
  | _, _ => throw "frames source does not match the I/O mode"
  end.

(** [if (usedMode === 'ram' && frameBuffers.length === 0) { ... }] *)
Definition fallback (videoUrl : media) (stamps : list Q) (extractConc : Z)
    (frameBuffers : list bytes) : M (list bytes) :=
  s <- get ;;
  match usedMode (vars s), frameBuffers with
  | Ram, [] =>
      log EvEnsureLocalPath ;;;
      loc <- Ffmpeg.ensureLocalPathWithCleanup w videoUrl ;;
      assign (set_fallbackToDisk true) ;;;
      assign (set_usedMode Disk) ;;;
      try_finally
        (log (EvExtract Disk) ;;;
         fb <- Ffmpeg.extractFrames w (Ffmpeg.path loc) stamps extractConc ;;
         s1 <- get ;;
         assign (set_sizeBytes
                   (default (sizeBytes (vars s1)) (w_statSize w (Ffmpeg.path loc)))) ;;;
         ret fb)
        (call_cleanup EvRelease (Ffmpeg.release loc))
  | _, _ => ret frameBuffers
  end.

(** [for (c = 0; c < row.length; c++) aggregateScores[c] += row[c]]: a
    column past the end of [aggregateScores] extends it with [NaN]. *)
Fixpoint accumulate (aggregateScores : list num) (row : list Q) : list num :=
  match row, aggregateScores with
  | [], _ => aggregateScores
  | x :: row', a :: agg' => nadd a (Some x) :: accumulate agg' row'
  | x :: row', [] => None :: accumulate [] row'
  end.

(** The ranked predictions of one frame. *)
Definition frame_predictions (k : Z) (scores : list Q) : list prediction :=
  let sc := map Some scores in
  let idxs := slice0 (order_desc sc) k in
  imap (fun j ci => {| class := cls !! ci; score := mjoin (sc !! ci);
                       rank := Z.of_nat j + 1 |}) idxs.

(** [avg], [order] and [overall] at the end of both branches. *)
Definition overall (k : Z) (aggregateScores : list num) (frameCount : nat)
    : list prediction :=
  let avg := map (fun s => ndiv s (inject_Z (Z.max 1 (Z.of_nat frameCount))))
                 aggregateScores in
  let order := order_desc avg in
  slice0 (imap (fun j ci => {| class := cls !! ci; score := mjoin (avg !! ci);
                               rank := Z.of_nat j + 1 |}) order) k.

(** The result object, with the [io] snapshot read when it is built. *)
Definition make_out (videoUrl : media) (frames : Z) (turbo : bool)
    (maxBytes : Z) (results : list frame_prediction)
    (agg : list prediction) : M video_result :=
  s <- get ;;
  ret {| vr_input := videoUrl; vr_frames := frames; vr_turboMode := turbo;
         vr_io := {| io_mode_used := usedMode (vars s);
                     io_fallbackToDisk := fallbackToDisk (vars s);
                     io_tempCleaned := tempCleaned (vars s);
                     io_sizeBytes := sizeBytes (vars s);
                     io_maxBytes := maxBytes |};
         vr_results := results; vr_aggregate := agg |}.

(** The sequential frame loop: [i] is the loop counter. *)
Fixpoint frame_loop (targetH targetW : Z) (centerCrop : bool) (k : Z)
    (stamps : list Q) (i : nat) (frameBuffers : list bytes)
    (aggregateScores : list num) (frameCount : nat)
    (results : list frame_prediction)
    : M (list num * nat * list frame_prediction) :=
  match frameBuffers with
  | [] => ret (aggregateScores, frameCount, results)
  | buf :: rest =>
      log EvResize ;;;
      imageTensor <- lift (prepare_tensor buf targetW targetH centerCrop) ;;
      log EvPredict ;;;
      probs <- lift (w_predict w [normalize imageTensor]) ;;
      match probs with
      | [] => throw "TypeError: Cannot read properties of undefined (reading 'length')"
      | scores :: _ =>
          frame_loop targetH targetW centerCrop k stamps (S i) rest
            (accumulate aggregateScores scores) (S frameCount)
            (results ++ [{| frameIndex := i; timestampSec := stamps !! i;
                            fp_predictions := frame_predictions k scores |}])
      end
  end.

(** The [turboMode] branch up to [results] and the sums.  After
    [Promise.all] every slot of [tensors] is filled, so [omap id] only
    strips the [Some]. *)
Definition turbo_frames (targetH targetW : Z) (centerCrop : bool) (k : Z)
    (stamps : list Q) (preprocessConcurrency : option Z)
    (frameBuffers : list bytes)
    : M (list num * nat * list frame_prediction) :=
  let prepConc :=
    Z.max 1 (Z.min 32 (default (Z.min 8 cpuCount) preprocessConcurrency)) in
  modify (fun s => foldr (fun _ => add_event EvResize) s frameBuffers) ;;;
  slots <- lift (Pool.run_indexed
                   (fun buf => prepare_tensor buf targetW targetH centerCrop)
                   frameBuffers prepConc (w_sched w)) ;;
  let tensors := omap id slots in
  batch <- lift (stack (map normalize tensors)) ;;
  log EvPredict ;;;
  probs <- lift (w_predict w batch) ;;
  let frameCount := length probs in
  let aggregateScores :=
    foldl accumulate (replicate (length cls) (Some 0%Q)) probs in
  let results :=
    imap (fun i scores => {| frameIndex := i; timestampSec := stamps !! i;
                             fp_predictions := frame_predictions k scores |})
         probs in
  ret (aggregateScores, frameCount, results).

(** The first half of the [try] block of [classifyVideo]: acquisition,
    duration, timestamps, extraction and fallback; the value is [stamps]
    and [frameBuffers]. *)
Definition acquire_frames (videoUrl : media) (o : video_opts) (frames : Z)
    : M (list Q * list bytes) :=
  let maxBytes := default (10 * 1024 * 1024) (o_maxBytes o) in
  ds <- match ioMode tm with
        | Ram => resolve_ram videoUrl maxBytes
        | Disk => resolve_disk videoUrl maxBytes
        end ;;
  match fst ds with
  | None => throw "Unable to determine video duration"
  | Some durationSec =>
      if Qeq_bool durationSec 0 || Qle_bool durationSec 0
      then throw "Unable to determine video duration"
      else
        let stampsRaw := Ffmpeg.sampleTimestamps durationSec frames in
        let stamps := Ffmpeg.safeTimestamps durationSec stampsRaw None in
        let extractConc :=
          Z.max 1 (Z.min 16
            (default (if o_turboMode o then Z.min 8 cpuCount else 1)
                     (o_extractionConcurrency o))) in
        fb0 <- extract_first (snd ds) frames durationSec stamps extractConc ;;
        frameBuffers <- fallback videoUrl stamps extractConc fb0 ;;
        ret (stamps, frameBuffers)
  end.

(** [if (turboMode) { ... } else { ... }] up to the sums, the number of
    scored frames and the per-frame results. *)
Definition tally (o : video_opts) (targetH targetW : Z) (stamps : list Q)
    (frameBuffers : list bytes) : M (list num * nat * list frame_prediction) :=
  let k := clampK (o_topK o) cls in
  if o_turboMode o
  then turbo_frames targetH targetW (o_centerCrop o) k stamps
         (o_preprocessConcurrency o) frameBuffers
  else frame_loop targetH targetW (o_centerCrop o) k stamps 0
         frameBuffers (replicate (length cls) (Some 0%Q)) 0 [].

(** The second half: scoring the frames in either mode, building the
    result, and [await cleanup(); tempCleaned = true; return out]. *)
Definition score_frames (videoUrl : media) (o : video_opts) (frames : Z)
    (targetH targetW : Z) (stamps : list Q) (frameBuffers : list bytes)
    : M video_result :=
  let maxBytes := default (10 * 1024 * 1024) (o_maxBytes o) in
  let k := clampK (o_topK o) cls in
  acc <- tally o targetH targetW stamps frameBuffers ;;
  let '(aggregateScores, frameCount, results) := acc in
  out <- make_out videoUrl frames (o_turboMode o) maxBytes results
           (overall k aggregateScores frameCount) ;;
  cleanup_and_mark ;;;
  ret out.

(** The [try] block of [classifyVideo]. *)
Definition video_body (videoUrl : media) (o : video_opts) (frames : Z)
    (targetH targetW : Z) : M video_result :=
  sf <- acquire_frames videoUrl o frames ;;
  score_frames videoUrl o frames targetH targetW (fst sf) (snd sf).

(** The initial values of the [let] variables. *)
Definition init_vars : locals :=
  {| cleanup := CleanupNoop; usedMode := ioMode tm; fallbackToDisk := false;
     sizeBytes := 0; tempCleaned := false |}.

(** [Math.floor(frames)] for a finite [frames] *)
Definition floor_frames (frames : number) : Z :=
  match frames with Num q => Qfloor q | _ => 0 end.

(** [classifyVideo({ videoUrl, ... })] for a single input. *)
Definition classifyVideo1 (videoUrl : media) (o : video_opts) : M video_result :=
  let frames := default (Num 10) (o_frames o) in
  if negb (truthy videoUrl) then throw "videoUrl is required"
  else if negb (isFinite frames) || le0 frames
  then throw "frames must be a positive number"
  else
    match shapeH (tm_model tm), shapeW (tm_model tm) with
    | Some targetH, Some targetW =>
        Ffmpeg.ensureFFmpeg w ;;;
        assign (fun _ => init_vars) ;;;
        try_finally
          (video_body videoUrl o (floor_frames frames) targetH targetW)
          (try_catch cleanup_and_mark (fun _ => ret tt))
    | _, _ => throw "Model input shape is not fully defined."
    end.

(** [classifyVideo] on an array: one job per input through the pool that
    pushes results as jobs settle.  A request owns its temp directories,
    so every job is run from the state [s] of the call. *)
Definition classifyVideoMany (videoUrls : list media) (o : video_opts)
    (s : state) : outcome (list video_result) :=
  Pool.run_pushing (fun u => fst (classifyVideo1 u o s)) videoUrls
    (default 2 (o_maxConcurrent o)) (w_sched w).

(** A single input or an array of inputs. *)
Inductive one_or_many : Type :=
| One (m : media)
| Many (l : list media).

Inductive videos_result : Type :=
| VideoOne (r : video_result)
| VideoMany (rs : list video_result).

Inductive images_result : Type :=
| ImageOne (r : image_result)
| ImageBatch (r : batch_result).

(** [classifyVideos({ videos, ...rest })] *)
Definition classifyVideos (videos : one_or_many) (o : video_opts)
    : M videos_result :=
  match videos with
  | One m => r <- classifyVideo1 m o ;; ret (VideoOne r)
  | Many l => s <- get ;; rs <- lift (classifyVideoMany l o s) ;; ret (VideoMany rs)
  end.

(** [classifyImages({ images, topK, centerCrop, batchSize })] *)
Definition classifyImages (images : one_or_many) (topK : option Z)
    (centerCrop : bool) (batchSize : option Z) : outcome images_result :=
  match images with
  | Many l => obind (classifyBatch l topK centerCrop batchSize)
                (fun r => Ok (ImageBatch r))
  | One m =>
      if negb (truthy m) then Throw "images is required"
      else obind (classifyImage m topK centerCrop) (fun r => Ok (ImageOne r))
  end.

(** The [input] of [classify]: a scalar, an array, or an object with
    optional [images] and [videos] arrays. *)
Inductive classify_input : Type :=
| InOne (m : media)
| InArray (l : list media)
| InObject (images videos : option (list media)).

Inductive classify_result : Type :=
| ResMixed (images : option images_result) (videos : option videos_result)
| ResVideos (r : videos_result)
| ResImages (r : images_result).

(** [mediaType === 'video' ||
     (Number.isFinite(frames) && frames > 0 && mediaType !== 'image')] *)
Definition isVideo (mediaType : string) (frames : number) : bool :=
  String.eqb mediaType "video"
  || (isFinite frames && gt0 frames && negb (String.eqb mediaType "image")).

(** The input as the legacy route hands it on. *)
Definition legacy_input (input : classify_input) : one_or_many :=
  match input with
  | InOne m => One m
  | InArray l => Many l
  | InObject _ _ => One MObject
  end.

(** truthiness of [input.images] *)
Definition is_array (a : option (list media)) : bool :=
  match a with
  | Some _ => true
  | None => false
  end.

(** [input.images && input.images.length] *)
Definition nonempty_array (a : option (list media)) : bool :=
  match a with
  | Some (_ :: _) => true
  | _ => false
  end.

(** [await Promise.all([imagesTask, videosTask])] on two tasks that are
    both under way: it rejects as soon as one of them does, so when both
    reject the schedule says whose rejection comes first. *)
Definition await_both {A B} (imagesTask : outcome A) (videosTask : outcome B)
    : outcome (A * B) :=
  match imagesTask, videosTask with
  | Ok a, Ok b => Ok (a, b)
  | Throw e, Ok _ => Throw e
  | Ok _, Throw e => Throw e
  | Throw ei, Throw ev =>
      Throw (if (w_sched w 0 mod 2 =? 0)%nat then ei else ev)
  end.

(** [classify({ input, mediaType = 'auto', frames = 10, ... })] *)
Definition classify (input : classify_input) (mediaType : option string)
    (o : video_opts) (batchSize : option Z) : M classify_result :=
  let mediaType := default "auto"%string mediaType in
  let frames := default (Num 10) (o_frames o) in
  match input with
  | InObject images videos =>
      if is_array images || is_array videos then
        fun s =>
          let imagesTask :=
            if nonempty_array images
            then obind (classifyImages (Many (default [] images))
                          (o_topK o) (o_centerCrop o) batchSize)
                   (fun r => Ok (Some r))
            else Ok None in
          let videosTask :=
            (if nonempty_array videos
             then r <- classifyVideos (Many (default [] videos)) o ;;
                  ret (Some r)
             else ret None) s in
          (obind (await_both imagesTask (fst videosTask))
             (fun both => Ok (ResMixed (fst both) (snd both))),
           snd videosTask)
      else if isVideo mediaType frames
      then r <- classifyVideos (legacy_input input) o ;; ret (ResVideos r)
      else r <- lift (classifyImages (legacy_input input) (o_topK o)
                        (o_centerCrop o) batchSize) ;;
           ret (ResImages r)
  | _ =>
      if isVideo mediaType frames
      then r <- classifyVideos (legacy_input input) o ;; ret (ResVideos r)
      else r <- lift (classifyImages (legacy_input input) (o_topK o)
                        (o_centerCrop o) batchSize) ;;
           ret (ResImages r)
  end.

End WithWorld.
End TM.

(** ** Notions used in the statements, and sample runs *)
Module Samples.
Import TM.

(** The input is of the [{ images, videos }] object form. *)
Definition mixed_form (input : classify_input) : bool :=
  match input with
  | InObject images videos => is_array images || is_array videos
  | _ => false
  end.

(** All options omitted, [centerCrop] at its default. *)
Definition default_opts : video_opts :=
  {| o_frames := None; o_topK := None; o_centerCrop := true;
     o_turboMode := false; o_extractionConcurrency := None;
     o_preprocessConcurrency := None; o_maxConcurrent := None;
     o_maxBytes := None |}.


(** A run in which FFmpeg is present, every file is missing, every
    download fails and no frame can be extracted. *)
Definition barren : world :=
  {| w_http := fun _ => Throw "ECONNREFUSED";
     w_readFile := fun _ => Throw "ENOENT: no such file or directory";
     w_statSize := fun _ => None;
     w_base64 := fun _ => [];
     w_mkdtemp := fun _ => true;
     w_writeFile := fun _ _ => Ok tt;
     w_ffmpeg := Ok "ffmpeg";
     w_probePath := fun _ => None;
     w_probeBuffer := fun _ => None;
     w_grab := fun _ _ => None;
     w_extractAuto := fun _ _ _ => Ok [];
     w_workerResize := fun _ _ _ _ => Throw "Worker resize failed";
     w_sharpResize := fun _ _ _ _ => Throw "Input buffer contains unsupported image format";
     w_predict := fun _ => Throw "predict failed";
     w_cpus := Some 4%nat;
     w_sched := fun _ => 0%nat |}.

(** A run in which every source is readable, the media is 20 MiB on disk
    and lasts 10 s, every seek yields a frame, and the engine scores every
    tensor [3/4, 1/4]. *)
Definition playable : world :=
  {| w_http := fun _ => Ok [Byte.x00];
     w_readFile := fun _ => Ok [Byte.x00];
     w_statSize := fun _ => Some (20 * 1024 * 1024);
     w_base64 := fun _ => [Byte.x00];
     w_mkdtemp := fun _ => true;
     w_writeFile := fun _ _ => Ok tt;
     w_ffmpeg := Ok "ffmpeg";
     w_probePath := fun _ => Some 10%Q;
     w_probeBuffer := fun _ => Some 10%Q;
     w_grab := fun _ _ => Some [Byte.x01];
     w_extractAuto := fun _ _ _ => Ok [[Byte.x01]];
     w_workerResize := fun _ _ _ _ => Throw "Worker resize failed";
     w_sharpResize := fun _ _ _ _ => Ok [0; 0; 0];
     w_predict := fun batch => Ok (map (fun _ => [3 # 4; 1 # 4]%Q) batch);
     w_cpus := Some 4%nat;
     w_sched := fun _ => 0%nat |}.

(** As [playable], but the in-memory extraction yields no frame. *)
Definition ram_yields_nothing : world :=
  {| w_http := w_http playable; w_readFile := w_readFile playable;
     w_statSize := w_statSize playable; w_base64 := w_base64 playable;
     w_mkdtemp := w_mkdtemp playable; w_writeFile := w_writeFile playable;
     w_ffmpeg := w_ffmpeg playable; w_probePath := w_probePath playable;
     w_probeBuffer := w_probeBuffer playable; w_grab := w_grab playable;
     w_extractAuto := fun _ _ _ => Ok [];
     w_workerResize := w_workerResize playable;
     w_sharpResize := w_sharpResize playable; w_predict := w_predict playable;
     w_cpus := w_cpus playable; w_sched := w_sched playable |}.


(** As [playable], with an engine that reports [width] score columns
    [1/10, 2/10, ...] for every tensor. *)
Definition columns (width : nat) : world :=
  {| w_http := w_http playable; w_readFile := w_readFile playable;
     w_statSize := w_statSize playable; w_base64 := w_base64 playable;
     w_mkdtemp := w_mkdtemp playable; w_writeFile := w_writeFile playable;
     w_ffmpeg := w_ffmpeg playable; w_probePath := w_probePath playable;
     w_probeBuffer := w_probeBuffer playable; w_grab := w_grab playable;
     w_extractAuto := w_extractAuto playable;
     w_workerResize := w_workerResize playable;
     w_sharpResize := w_sharpResize playable;
     w_predict := fun batch =>
       Ok (map (fun _ => map (fun c => (Z.of_nat (S c) # 10)%Q) (seq 0 width)) batch);
     w_cpus := w_cpus playable; w_sched := w_sched playable |}.

(** A classifier with five labels and a 1 x 1 input. *)
Definition five_labels : classifier :=
  {| tm_model := {| classes := ["a"; "b"; "c"; "d"; "e"];
                    shapeH := Some 1; shapeW := Some 1 |};
     ioMode := Ram; useWorkers := false |}.

(** A classifier with two labels and a 1 x 1 input. *)
Definition two_labels (mode : io_mode) : classifier :=
  {| tm_model := {| classes := ["cat"; "dog"]; shapeH := Some 1; shapeW := Some 1 |};
     ioMode := mode; useWorkers := false |}.

(** The state in which a call starts: no temp directory, empty trace. *)
Definition fresh : state :=
  {| fs := {| dirs := ∅; locked := ∅; created := 0 |};
     vars := {| cleanup := CleanupNoop; usedMode := Ram; fallbackToDisk := false;
                sizeBytes := 0; tempCleaned := false |};
     trace := [] |}.

(** The invocations of the [cleanup] variable recorded in a trace. *)
Definition is_cleanup (e : event) : bool :=
  match e with
  | EvCleanup _ _ => true
  | _ => false
  end.

Definition cleanups (tr : list event) : nat :=
  length (List.filter is_cleanup tr).

(** Decode, probe, extraction and inference work recorded in a trace. *)
Definition is_work (e : event) : bool :=
  match e with
  | EvProbe | EvExtract _ | EvResize | EvPredict => true
  | _ => false
  end.

(** Every run of [m] relates its initial state to its final state by [R]. *)
Definition respects {A} (R : state -> state -> Prop) (m : M A) : Prop :=
  forall s r s', m s = (r, s') -> R s s'.

(** The guards of [classifyVideo] ahead of its [try] block all pass: the
    input is truthy, [frames] is a finite positive number, the input shape
    of the model is known and FFmpeg is found. *)
Definition reaches_try (w : world) (tm : classifier) (videoUrl : media)
    (o : video_opts) : bool :=
  truthy videoUrl
  && isFinite (default (Num 10) (o_frames o))
  && negb (le0 (default (Num 10) (o_frames o)))
  && match shapeH (tm_model tm), shapeW (tm_model tm) with
     | Some _, Some _ => true
     | _, _ => false
     end
  && is_ok (w_ffmpeg w).





(** [batchSize && batchSize > 0 && batchSize < imageUrls.length] *)
Definition chunked (batchSize : option Z) (imageUrls : list media) : bool :=
  match batchSize with
  | Some b => negb (b =? 0) && (0 <? b) && (b <? Z.of_nat (length imageUrls))
  | None => false
  end.



(** As [playable], but of two jobs in flight the second settles first. *)
Definition second_settles_first : world :=
  {| w_http := w_http playable; w_readFile := w_readFile playable;
     w_statSize := w_statSize playable; w_base64 := w_base64 playable;
     w_mkdtemp := w_mkdtemp playable; w_writeFile := w_writeFile playable;
     w_ffmpeg := w_ffmpeg playable; w_probePath := w_probePath playable;
     w_probeBuffer := w_probeBuffer playable; w_grab := w_grab playable;
     w_extractAuto := w_extractAuto playable;
     w_workerResize := w_workerResize playable;
     w_sharpResize := w_sharpResize playable; w_predict := w_predict playable;
     w_cpus := w_cpus playable; w_sched := fun _ => 1%nat |}.

(** The invariant of a pool run in which no job rejects: [taken] jobs have
    left the queue, every job in flight is the job of its index, and every
    index taken and no longer in flight holds its job's value. *)
Definition pool_inv {J R} (jobs : list J) (vals : list R)
    (st : @Pool.pstate J (list (option R))) : Prop :=
  Pool.rejected st = None /\
  length (Pool.slots st) = length jobs /\
  exists taken : nat,
    (taken <= length jobs)%nat /\
    Pool.queue st = drop taken jobs /\
    (forall idx job, (idx, job) ∈ Pool.inflight st ->
       (idx < taken)%nat /\ jobs !! idx = Some job) /\
    (forall i v, (i < taken)%nat ->
       (forall job, (i, job) ∉ Pool.inflight st) ->
       vals !! i = Some v -> Pool.slots st !! i = Some (Some v)).

(** While jobs are queued, some runner is awaiting one. *)
Definition pool_busy {J Store} (st : @Pool.pstate J Store) : Prop :=
  Pool.queue st <> [] -> Pool.inflight st <> [].

(** Jobs queued or in flight. *)
Definition pool_remaining {J Store} (st : @Pool.pstate J Store) : nat :=
  (length (Pool.queue st) + length (Pool.inflight st))%nat.

(** Only the file system changed. *)
Definition quiet (s s' : state) : Prop :=
  trace s' = trace s /\ vars s' = vars s.

(** What the steps of [classifyVideo] ahead of [await cleanup()] may do:
    they leave [tempCleaned] alone and record no invocation of [cleanup]. *)
Definition ahead_of_cleanup (s s' : state) : Prop :=
  tempCleaned (vars s') = tempCleaned (vars s) /\
  exists t, trace s' = trace s ++ t /\ cleanups t = 0%nat.

(** What scoring the frames may do: record events. *)
Definition scoring (s s' : state) : Prop :=
  vars s' = vars s /\ fs s' = fs s /\
  exists t, trace s' = trace s ++ t /\ cleanups t = 0%nat.

End Samples.

(** ** [src/utils/ffmpeg.js]: the PNG stream of the single-pass extraction *)
Module PngStream.
Import JS Env.

(** [Buffer.from([0x89,0x50,0x4E,0x47,0x0D,0x0A,0x1A,0x0A])] *)
Definition sig : bytes :=
  [Byte.x89; Byte.x50; Byte.x4e; Byte.x47; Byte.x0d; Byte.x0a; Byte.x1a; Byte.x0a].

(** [a === b] on two array reads; [None] is [undefined]. *)
Definition same_byte (a b : option Byte.byte) : bool :=
  match a, b with
  | Some x, Some y => Byte.eqb x y
  | None, None => true
  | _, _ => false
  end.

(** The inner loop: [all[i + j] === sig[j]] for every [j]. *)
Definition sig_at (all : bytes) (i : nat) : bool :=
  forallb (fun j => same_byte (all !! (i + j)%nat) (sig !! j))
          (seq 0 (length sig)).

(** [idxs]: the offsets [0 <= i <= all.length - sig.length] at which the
    signature starts, in increasing order. *)
Definition idxs (all : bytes) : list nat :=
  List.filter (sig_at all) (seq 0 (length all + 1 - length sig)).

(** The loop over [idxs]: the slice from each offset to the next one, and
    from the last offset to the end. *)
Fixpoint outs (all : bytes) (idxs : list nat) : list bytes :=
  match idxs with
  | [] => []
  | start :: rest =>
      let e := match rest with
               | next :: _ => next
               | [] => length all
               end in
      slice all start e :: outs all rest
  end.

(** [extractFramesAutoFromBuffer] once FFmpeg has closed, [all] being
    what it wrote to its standard output. *)
Definition split_pngs (all : bytes) (frames : Z) : list bytes :=
  if (length all =? 0)%nat then []
  else slice0 (outs all (idxs all)) frames.

End PngStream.

(** ** The command line: [parseArgs] and [main] *)
Module Cli.
Import JS Env.

(** [opts] as [parseArgs] builds it.  [None] is a property that is absent
    or [undefined]; [turbo] is [!!opts.turbo]. *)
Record options : Type := {
  model : option string;
  backend : option string;
  io : option string;
  frames : option number;
  topK : option number;
  maxBytes : option number;
  turbo : bool;
  media : option string;
  positional : list string
}.

Definition no_options : options :=
  {| model := None; backend := None; io := None; frames := None; topK := None;
     maxBytes := None; turbo := false; media := None; positional := [] |}.

Definition set_model (v : option string) (o : options) : options :=
  {| model := v; backend := backend o; io := io o; frames := frames o;
     topK := topK o; maxBytes := maxBytes o; turbo := turbo o; media := media o;
     positional := positional o |}.
Definition set_backend (v : option string) (o : options) : options :=
  {| model := model o; backend := v; io := io o; frames := frames o;
     topK := topK o; maxBytes := maxBytes o; turbo := turbo o; media := media o;
     positional := positional o |}.
Definition set_io (v : option string) (o : options) : options :=
  {| model := model o; backend := backend o; io := v; frames := frames o;
     topK := topK o; maxBytes := maxBytes o; turbo := turbo o; media := media o;
     positional := positional o |}.
Definition set_frames (v : number) (o : options) : options :=
  {| model := model o; backend := backend o; io := io o; frames := Some v;
     topK := topK o; maxBytes := maxBytes o; turbo := turbo o; media := media o;
     positional := positional o |}.
Definition set_topK (v : number) (o : options) : options :=
  {| model := model o; backend := backend o; io := io o; frames := frames o;
     topK := Some v; maxBytes := maxBytes o; turbo := turbo o; media := media o;
     positional := positional o |}.
Definition set_maxBytes (v : number) (o : options) : options :=
  {| model := model o; backend := backend o; io := io o; frames := frames o;
     topK := topK o; maxBytes := Some v; turbo := turbo o; media := media o;
     positional := positional o |}.
Definition set_turbo (o : options) : options :=
  {| model := model o; backend := backend o; io := io o; frames := frames o;
     topK := topK o; maxBytes := maxBytes o; turbo := true; media := media o;
     positional := positional o |}.
Definition set_media (v : option string) (o : options) : options :=
  {| model := model o; backend := backend o; io := io o; frames := frames o;
     topK := topK o; maxBytes := maxBytes o; turbo := turbo o; media := v;
     positional := positional o |}.
Definition push_positional (a : string) (o : options) : options :=
  {| model := model o; backend := backend o; io := io o; frames := frames o;
     topK := topK o; maxBytes := maxBytes o; turbo := turbo o; media := media o;
     positional := positional o ++ [a] |}.

(** What [parseArgs] returns: [{ help: true }] or [opts]. *)
Inductive parsed : Type :=
| Help
| Opts (o : options).

(** What [main] goes on to do with the classifier. *)
Inductive call : Type :=
| CallImages (images : list string) (topK : option number)
| CallVideos (videos : list string) (frames : number) (topK : option number)
    (turboMode : bool) (maxBytes : number)
| CallClassify (asVideos : bool) (inputs : list string) (frames : number)
    (topK : option number) (turboMode : bool) (maxBytes : number).

(** The arguments of [TeachableMachine.create]. *)
Record create_args : Type := {
  modelUrl : option string;
  modelDir : option string;
  saveToDir : option string;
  c_backend : string;
  c_ioMode : io_mode
}.

Inductive action : Type :=
| PrintHelp
| Run (c : create_args) (k : call).

(** [x || d] on an optional string *)
Definition or_default (x : option string) (d : string) : string :=
  match x with
  | Some s => if String.eqb s "" then d else s
  | None => d
  end.

(** [Number.isFinite(x) ? x : d] on an optional number *)
Definition finite_or (x : option number) (d : number) : number :=
  match x with
  | Some n => if isFinite n then n else d
  | None => d
  end.

Section WithNumber.
(** [Number(s)] on a string *)
Variable Number : string -> number.

(** [Number(args[++i])]: the argument may be missing, and [Number(undefined)]
    is [NaN]. *)
Definition number_arg (v : option string) : number :=
  match v with
  | Some s => Number s
  | None => NaN
  end.

(** The [for] loop of [parseArgs] from argument [a] on; a value taken with
    [args[++i]] is skipped by the loop. *)
Fixpoint parse_loop (args : list string) (opts : options) : parsed :=
  match args with
  | [] => Opts opts
  | a :: rest =>
      if String.eqb a "--help" || String.eqb a "-h" then Help
      else if String.eqb a "--model" then
        match rest with
        | v :: rest' => parse_loop rest' (set_model (Some v) opts)
        | [] => Opts (set_model None opts)
        end
      else if String.eqb a "--backend" then
        match rest with
        | v :: rest' => parse_loop rest' (set_backend (Some v) opts)
        | [] => Opts (set_backend None opts)
        end
      else if String.eqb a "--io" then
        match rest with
        | v :: rest' => parse_loop rest' (set_io (Some v) opts)
        | [] => Opts (set_io None opts)
        end
      else if String.eqb a "--frames" then
        match rest with
        | v :: rest' => parse_loop rest' (set_frames (number_arg (Some v)) opts)
        | [] => Opts (set_frames (number_arg None) opts)
        end
      else if String.eqb a "--topK" then
        match rest with
        | v :: rest' => parse_loop rest' (set_topK (number_arg (Some v)) opts)
        | [] => Opts (set_topK (number_arg None) opts)
        end
      else if String.eqb a "--maxBytes" then
        match rest with
        | v :: rest' => parse_loop rest' (set_maxBytes (number_arg (Some v)) opts)
        | [] => Opts (set_maxBytes (number_arg None) opts)
        end
      else if String.eqb a "--turbo" then parse_loop rest (set_turbo opts)
      else if String.eqb a "--media" then
        match rest with
        | v :: rest' => parse_loop rest' (set_media (Some v) opts)
        | [] => Opts (set_media None opts)
        end
      else if negb (Str.startsWith "-" a) then parse_loop rest (push_positional a opts)
      else parse_loop rest opts
  end.

(** [parseArgs()], [args] being [argv.slice(2)] *)
Definition parseArgs (args : list string) : parsed := parse_loop args no_options.

(** [main()] up to the call it makes. *)
Definition main (args : list string) : action :=
  match parseArgs args with
  | Help => PrintHelp
  | Opts opts =>
      if String.eqb (or_default (model opts) "") ""
         || (length (positional opts) =? 0)%nat
      then PrintHelp
      else
        let remote := Str.startsWith "http" (or_default (model opts) "") in
        let created :=
          {| modelUrl := if remote then model opts else None;
             modelDir := if remote then None else model opts;
             saveToDir := if remote then None else model opts;
             c_backend := or_default (backend opts) "tfjs";
             c_ioMode := if String.eqb (or_default (io opts) "") "disk"
                         then Disk else Ram |} in
        let mediaType := or_default (media opts) "auto" in
        let frames := finite_or (frames opts) (Num 10) in
        let topK := match topK opts with
                    | Some n => if isFinite n then Some n else None
                    | None => None
                    end in
        let maxBytes := finite_or (maxBytes opts) (Num (10 * 1024 * 1024)) in
        let inputs := positional opts in
        Run created
          (if String.eqb mediaType "image" then CallImages inputs topK
           else if String.eqb mediaType "video"
           then CallVideos inputs frames topK (turbo opts) maxBytes
           else CallClassify ((length inputs =? 1)%nat && gt0 frames) inputs
                  frames topK (turbo opts) maxBytes)
  end.

End WithNumber.
End Cli.

(** ** [src/index.js]: the batch wrapper of [classifyVideo] *)
Module Wrappers.
Import JS Env Async TM.
Section WithWorld.
Variable w : world.
Variable tm : classifier.

(** [classifyVideoBatch({ videoUrls, ...rest })]; [None] is a [videoUrls]
    that is no array. *)
Definition classifyVideoBatch (videoUrls : option (list media)) (o : video_opts)
    : M (list video_result) :=
  match videoUrls with
  | Some (u :: l) => s <- get ;; lift (classifyVideoMany w tm (u :: l) o s)
  | _ => throw "videoUrls must be a non-empty array"
  end.

End WithWorld.
End Wrappers.

(** ** [src/utils/ffmpeg.js]: [parseDurationSec]

    The pattern [/Duration:\s*(\d+):(\d+):(\d+\.\d+)/] on a text of
    ASCII characters.  Spaces, digits and the separators are disjoint
    classes, so the greedy quantifiers never give anything back: a match
    at a position takes the longest run each time. *)
Module Duration.

(** [\d] *)
Definition is_digit (c : ascii) : bool :=
  ((48 <=? nat_of_ascii c) && (nat_of_ascii c <=? 57))%nat.

(** [\s] on ASCII: space, tab, line feed, vertical tab, form feed and
    carriage return *)
Definition is_space (c : ascii) : bool :=
  ((nat_of_ascii c =? 32) || (9 <=? nat_of_ascii c) && (nat_of_ascii c <=? 13))%nat.

Definition digit_value (c : ascii) : Z := Z.of_nat (nat_of_ascii c - 48).

(** The longest run of digits at the head, and what follows it. *)
Fixpoint span_digits (s : string) : string * string :=
  match s with
  | String c s' =>
      if is_digit c
      then (String c (fst (span_digits s')), snd (span_digits s'))
      else (EmptyString, s)
  | EmptyString => (EmptyString, EmptyString)
  end.

(** [\s*] *)
Fixpoint skip_spaces (s : string) : string :=
  match s with
  | String c s' => if is_space c then skip_spaces s' else s
  | EmptyString => EmptyString
  end.

(** The text after the literal [p] at the head of [s], if it is there. *)
Fixpoint after_literal (p s : string) : option string :=
  match p, s with
  | EmptyString, _ => Some s
  | String a p', String b s' =>
      if Ascii.eqb a b then after_literal p' s' else None
  | String _ _, EmptyString => None
  end.

(** [parseInt(d, 10)] on a run of digits, from the value [acc] of the
    digits read so far. *)
Fixpoint parseInt_from (acc : Z) (d : string) : Z :=
  match d with
  | String c d' => parseInt_from (acc * 10 + digit_value c) d'
  | EmptyString => acc
  end.

Definition parseInt (d : string) : Z := parseInt_from 0 d.

(** [parseFloat] on digits, a point and digits *)
Definition parseFloat (whole frac : string) : Q :=
  (inject_Z (parseInt whole)
   + inject_Z (parseInt frac) / inject_Z (10 ^ Z.of_nat (String.length frac)))%Q.

(** [(\d+)] followed by the character [sep]: the digits and the text
    after [sep]. *)
Definition digits_then (sep : ascii) (s : string) : option (string * string) :=
  match fst (span_digits s), snd (span_digits s) with
  | String c d, String x r =>
      if Ascii.eqb x sep then Some (String c d, r) else None
  | _, _ => None
  end.

(** The pattern at the head of [s], and the value the function computes
    from its groups. *)
Definition match_here (s : string) : option Q :=
  match after_literal "Duration:" s with
  | None => None
  | Some s1 =>
      match digits_then ":" (skip_spaces s1) with
      | None => None
      | Some (h, s2) =>
          match digits_then ":" s2 with
          | None => None
          | Some (m, s3) =>
              match digits_then "." s3 with
              | None => None
              | Some (whole, s4) =>
                  match fst (span_digits s4) with
                  | EmptyString => None
                  | String c frac =>
                      Some (inject_Z (parseInt h * 3600 + parseInt m * 60)
                            + parseFloat whole (String c frac))%Q
                  end
              end
          end
      end
  end.

(** [parseDurationSec(stderr)]: [exec] takes the leftmost match; [None]
    is [null]. *)
Fixpoint parseDurationSec (stderr : string) : option Q :=
  match match_here stderr with
  | Some q => Some q
  | None =>
      match stderr with
      | String _ rest => parseDurationSec rest
      | EmptyString => None
      end
  end.

End Duration.

(** ** [src/index.js]: [TeachableMachine.create]

    The model directories are a finite map from paths to what they hold;
    the network, the native backend and the warm-up inference are
    outcomes given by the run.  Saving a model and loading it again is
    taken to give the model back. *)
Module Create.
Import JS Env TM.

(** What [tf.loadLayersModel] gives: the network, named by its weights,
    and the entries 1 and 2 of its input shape when they are numbers. *)
Record layers : Type := {
  l_weights : string;
  l_shapeH : option Z;
  l_shapeW : option Z
}.

(** A model directory: [model.json] with [weights.bin] if present, and
    [metadata.json] if present, with its [labels] when they are an
    array. *)
Record model_dir : Type := {
  d_model : option layers;
  d_metadata : option (option (list string))
}.

Inductive net_event : Type :=
| NetGet (url : string)       (* http(url).buffer() *)
| NetLoad (url : string).     (* tf.loadLayersModel(url) *)

Record cstate : Type := {
  store : gmap string model_dir;
  net : list net_event
}.

(** What the run gives from outside. *)
Record remote : Type := {
  r_node : bool;   (* the import of tfjs-node and the switch to it succeed *)
  r_metadata : string -> outcome (option (list string));
                   (* the download parsed as JSON; its labels if an array *)
  r_model : string -> outcome layers;
  r_writable : string -> bool;   (* writing into the directory succeeds *)
  r_warmup : layers -> outcome unit    (* model.predict on the dummy input *)
}.

(** The options of [create]; [None] is an omitted option. *)
Record create_opts : Type := {
  modelUrl : option string;
  modelDir : option string;
  loadFrom : option string;                (* loadFrom = 'auto' *)
  saveToDir : option string;
  warmup : option bool;                    (* warmup = true *)
  co_ioMode : option string;               (* ioMode = 'ram' *)
  co_backend : option string;              (* backend = 'tfjs' *)
  preprocessUseWorkers : bool              (* !!preprocessUseWorkers *)
}.

(** The instance [create] returns. *)
Record instance : Type := {
  i_classifier : classifier;
  i_backend : string;
  i_layers : layers
}.

(** truthiness of an optional string *)
Definition truthy_str (x : option string) : bool :=
  match x with
  | Some s => negb (String.eqb s "")
  | None => false
  end.

Section WithRemote.
Variable r : remote.

(** [tf.loadLayersModel(ioFromDir(modelDir))] and [readMetadata(modelDir)]
    with the check of the labels. *)
Definition load_local (dir : option string) (s : cstate)
    : outcome (layers * list string) :=
  match dir with
  | None => Throw "ERR_INVALID_ARG_TYPE: the path argument must be of type string"
  | Some d =>
      match store s !! d with
      | Some {| d_model := Some m; d_metadata := meta |} =>
          match meta with
          | None => Throw "ENOENT: no such file or directory, open metadata.json"
          | Some None => Throw "Invalid metadata in local dir."
          | Some (Some labels) => Ok (m, labels)
          end
      | _ => Throw "ENOENT: no such file or directory, open model.json"
      end
  end.

(** [model.save(ioFromDir(targetDir))] and [writeMetadata(targetDir, ...)] *)
Definition save_local (d : string) (m : layers) (labels : list string)
    (s : cstate) : outcome unit * cstate :=
  if r_writable r d
  then (Ok tt,
        {| store := <[d := {| d_model := Some m;
                              d_metadata := Some (Some labels) |}]> (store s);
           net := net s |})
  else (Throw "EACCES: permission denied", s).

(** The [else] branch: metadata and model from [modelUrl], saved when a
    target directory is given. *)
Definition load_remote (o : create_opts) (s : cstate)
    : outcome (layers * list string) * cstate :=
  match modelUrl o with
  | Some url =>
      if String.eqb url "" then (Throw "Model URL is missing!", s)
      else
        let s1 := {| store := store s;
                     net := net s ++ [NetGet (url ++ "metadata.json")] |} in
        match r_metadata r (url ++ "metadata.json") with
        | Throw e => (Throw e, s1)
        | Ok None =>
            (Throw "Invalid metadata: 'labels' field not found or is not an array.",
             s1)
        | Ok (Some labels) =>
            let s2 := {| store := store s1;
                         net := net s1 ++ [NetLoad (url ++ "model.json")] |} in
            match r_model r (url ++ "model.json") with
            | Throw e => (Throw e, s2)
            | Ok m =>
                let targetDir := match saveToDir o with
                                 | Some d => Some d
                                 | None => modelDir o
                                 end in
                if truthy_str targetDir
                then match save_local (default "" targetDir) m labels s2 with
                     | (Ok _, s3) => (Ok (m, labels), s3)
                     | (Throw e, s3) => (Throw e, s3)
                     end
                else (Ok (m, labels), s2)
            end
        end
  | None => (Throw "Model URL is missing!", s)
  end.

(** The body of the outer [try] of [create]. *)
Definition create_body (o : create_opts) (s : cstate)
    : outcome instance * cstate :=
  let backend := default "tfjs" (co_backend o) in
  let loadFrom := default "auto" (loadFrom o) in
  if String.eqb backend "tfjs-node" && negb (r_node r)
  then (Throw "Requested backend 'tfjs-node' but '@tensorflow/tfjs-node' is not installed. Install it with: npm i @tensorflow/tfjs-node",
        s)
  else
    let loaded :=
      if String.eqb loadFrom "dir"
         || (String.eqb loadFrom "auto" && truthy_str (modelDir o)
             && bool_decide (is_Some (store s !! default "" (modelDir o))))
      then (load_local (modelDir o) s, s)
      else load_remote o s in
    match loaded with
    | (Throw e, s1) => (Throw e, s1)
    | (Ok (m, labels), s1) =>
        let warm :=
          if default true (warmup o)
          then match l_shapeH m, l_shapeW m with
               | Some _, Some _ => r_warmup r m
               | _, _ => Ok tt
               end
          else Ok tt in
        match warm with
        | Throw e => (Throw e, s1)
        | Ok _ =>
            (Ok {| i_classifier :=
                     {| tm_model := {| classes := labels;
                                       shapeH := l_shapeH m;
                                       shapeW := l_shapeW m |};
                        ioMode := if String.eqb (default "ram" (co_ioMode o)) "disk"
                                  then Disk else Ram;
                        useWorkers := preprocessUseWorkers o |};
                   i_backend := if String.eqb backend "tfjs-node"
                                then "tfjs-node" else "tfjs";
                   i_layers := m |},
             s1)
        end
    end.

(** [TeachableMachine.create(options)] *)
Definition create (o : create_opts) (s : cstate) : outcome instance * cstate :=
  match create_body o s with
  | (Ok tm, s1) => (Ok tm, s1)
  | (Throw e, s1) => (Throw ("Model loading failed: " ++ e), s1)
  end.

End WithRemote.
End Create.

(** ** [src/utils/ffmpeg.js]: [extractFramesFromBuffer] *)
Module BufferFrames.
Import JS Env.
Section WithGrab.
(** One FFmpeg pass that reads the media from its standard input and
    seeks to a time: the chunks it wrote, concatenated, or [None] when it
    wrote none. *)
Variable grab : bytes -> Q -> option bytes.

(** One job: the pass at the timestamp and, if it wrote nothing, the pass
    0.1 s earlier; [None] is [undefined].  The promise never rejects. *)
Definition buffer_job (buffer : bytes) (t : Q) : outcome (option bytes) :=
  let seek := Qmax 0 t in
  match grab buffer seek with
  | Some b => Ok (Some b)
  | None => Ok (grab buffer (Qmax 0 (seek - (1 # 10))))
  end.

(** [extractFramesFromBuffer(ffmpegPath, buffer, timestampsSec,
    { concurrency })] under the completion schedule [sched]. *)
Definition extractFramesFromBuffer (buffer : bytes) (timestampsSec : list Q)
    (concurrency : Z) (sched : nat -> nat) : outcome (list bytes) :=
  obind (Pool.run_indexed (buffer_job buffer) timestampsSec concurrency sched)
    (fun results => Ok (Ffmpeg.filter_Boolean results)).

End WithGrab.
End BufferFrames.

(** ** Further notions used in the statements *)
Module Notions.
Import TM Samples.

(** The invariant of a pool run under any storing discipline, as long as
    no job has rejected: the queue is a suffix of the jobs, a runner is
    awaiting a job while jobs are queued, every job in flight is the job of
    its index, and every job taken and no longer in flight has completed. *)
Definition pool_sound {J R Store} (exec : J -> outcome R) (jobs : list J)
    (st : @Pool.pstate J Store) : Prop :=
  Pool.rejected st = None ->
  pool_busy st /\
  exists taken : nat,
    (taken <= length jobs)%nat /\
    Pool.queue st = drop taken jobs /\
    (forall idx job, (idx, job) ∈ Pool.inflight st ->
       (idx < taken)%nat /\ jobs !! idx = Some job) /\
    (forall i job, (i < taken)%nat -> jobs !! i = Some job ->
       (forall j, (i, j) ∉ Pool.inflight st) -> is_ok (exec job) = true).

(** The values of the jobs in flight. *)
Definition inflight_values {J R} (vals : list R) (fl : list (nat * J)) : list R :=
  omap (fun p => vals !! fst p) fl.

(** The invariant of the pushing pool when no job rejects: the results
    pushed so far together with the values of the jobs in flight are, up to
    order, the values of the jobs taken. *)
Definition push_inv {J R} (jobs : list J) (vals : list R)
    (st : @Pool.pstate J (list R)) : Prop :=
  Pool.rejected st = None /\
  exists taken : nat,
    (taken <= length jobs)%nat /\
    Pool.queue st = drop taken jobs /\
    (forall idx job, (idx, job) ∈ Pool.inflight st ->
       (idx < taken)%nat /\ jobs !! idx = Some job) /\
    Pool.slots st ++ inflight_values vals (Pool.inflight st) ≡ₚ take taken vals.

(** The frame a job of [extractFrames] ends up with for timestamp [t]: the
    one of the first seek, else the one of the retry 0.1 s earlier. *)
Definition frame_of (w : world) (inputPath : string) (t : Q) : option Env.bytes :=
  match w_grab w inputPath (Qmax 0 t) with
  | Some b => Some b
  | None => w_grab w inputPath (Qmax 0 (Qmax 0 t - (1 # 10)))
  end.

(** The name [fs_mkdtemp] gives to the next temp directory. *)
Definition next_dir (prefix : string) (s : state) : string :=
  ("/tmp/" ++ prefix ++ pretty (created (fs s)))%string.

(** Column [a] ranks ahead of column [b]: its score is larger, or the
    scores are equal and [a] is the lower column. *)
Definition ranks_ahead (scores : list Q) (a b : nat) : Prop :=
  exists x y, scores !! a = Some x /\ scores !! b = Some y /\
    ((y < x)%Q \/ ((x == y)%Q /\ (a < b)%nat)).

(** The scores the frames give to column [c], frame by frame. *)
Definition column (c : nat) (probs : list (list Q)) : list Q :=
  omap (fun row : list Q => row !! c) probs.

(** A sum taken from the left, as a loop with [+=] takes it. *)
Definition sum_left (start : Q) (l : list Q) : Q := foldl Qplus start l.

(** [sum / Math.max(1, frameCount)] for every sum. *)
Definition means (sums : list Q) (frameCount : nat) : list Q :=
  map (fun x => (x / inject_Z (Z.max 1 (Z.of_nat frameCount)))%Q) sums.

(** The temp directory a release action removes when it is invoked. *)
Definition owned (c : cleanup_fn) : gset string :=
  match c with
  | CleanupRm (Some dir) => {[dir]}
  | _ => ∅
  end.

(** What a step of a video request may do to the temp directories: it
    leaves the [cleanup] variable alone and, when no removal fails, every
    directory that exists after the step existed before it. *)
Definition shrinks (s s' : state) : Prop :=
  cleanup (vars s') = cleanup (vars s) /\
  locked (fs s') = locked (fs s) /\
  (locked (fs s) = ∅ -> dirs (fs s') ⊆ dirs (fs s)).

(** The release action a resolution hands out; a failed one hands out
    nothing. *)
Definition handed_out (r : outcome Ffmpeg.resolved) : cleanup_fn :=
  match r with
  | Ok loc => Ffmpeg.release loc
  | Throw _ => CleanupNoop
  end.

(** As [playable], but no file can be written. *)
Definition disk_full : world :=
  {| w_http := w_http playable; w_readFile := w_readFile playable;
     w_statSize := w_statSize playable; w_base64 := w_base64 playable;
     w_mkdtemp := w_mkdtemp playable;
     w_writeFile := fun _ _ => Throw "ENOSPC: no space left on device";
     w_ffmpeg := w_ffmpeg playable; w_probePath := w_probePath playable;
     w_probeBuffer := w_probeBuffer playable; w_grab := w_grab playable;
     w_extractAuto := w_extractAuto playable;
     w_workerResize := w_workerResize playable;
     w_sharpResize := w_sharpResize playable; w_predict := w_predict playable;
     w_cpus := w_cpus playable; w_sched := w_sched playable |}.

(** A step that assigns none of the [let] variables. *)
Definition same_vars (s s' : state) : Prop := vars s' = vars s.

(** A step that leaves alone the variables the [io] report is read from,
    [sizeBytes] apart. *)
Definition same_mode (s s' : state) : Prop :=
  usedMode (vars s') = usedMode (vars s) /\
  fallbackToDisk (vars s') = fallbackToDisk (vars s) /\
  tempCleaned (vars s') = tempCleaned (vars s).

(** The entry of [results] for the frame at position [i], scored
    [scores]. *)
Definition frame_entry (tm : classifier) (k : Z) (stamps : list Q) (i : nat)
    (scores : list Q) : frame_prediction :=
  {| frameIndex := i; timestampSec := stamps !! i;
     fp_predictions := frame_predictions tm k scores |}.

(** The entry is what a single-image request for its input gives: the
    result of [_classifyImage], or the message of the failed acquisition. *)
Definition single_result (w : world) (tm : classifier) (topK : option Z)
    (crop : bool) (e : image_result) : Prop :=
  match ir_error e with
  | Some msg =>
      Preprocess.getImageBuffer w (ir_input e) = Throw msg /\
      ir_predictions e = None
  | None => classifyImage w tm (ir_input e) topK crop = Ok e
  end.

(** The engine scores every sample of a batch as it scores the sample
    alone. *)
Definition rowwise (w : world) : Prop :=
  forall batch rows,
    w_predict w batch = Ok rows ->
    Forall2 (fun x row => w_predict w [x] = Ok [row]) batch rows.

(** Every character of the string satisfies [p]. *)
Fixpoint every (p : ascii -> bool) (s : string) : bool :=
  match s with
  | String c s' => p c && every p s'
  | EmptyString => true
  end.

(** The string does not begin with a character satisfying [p]. *)
Definition begins_without (p : ascii -> bool) (s : string) : bool :=
  match s with
  | String c _ => negb (p c)
  | EmptyString => true
  end.

(** A run in which the model and its metadata can be downloaded and
    every directory can be written. *)
Definition hosted : Create.remote :=
  {| Create.r_node := true;
     Create.r_metadata := fun _ => Ok (Some ["cat"; "dog"]%string);
     Create.r_model := fun _ =>
       Ok {| Create.l_weights := "weights"; Create.l_shapeH := Some 224;
             Create.l_shapeW := Some 224 |};
     Create.r_writable := fun _ => true;
     Create.r_warmup := fun _ => Ok tt |}.

(** A run without network. *)
Definition offline : Create.remote :=
  {| Create.r_node := true;
     Create.r_metadata := fun _ => Throw "ENOTFOUND";
     Create.r_model := fun _ => Throw "ENOTFOUND";
     Create.r_writable := fun _ => true;
     Create.r_warmup := fun _ => Ok tt |}.

(** [create({ modelUrl, modelDir })] *)
Definition cached_opts : Create.create_opts :=
  {| Create.modelUrl := Some "https://host/models/m/"%string;
     Create.modelDir := Some "./model"%string;
     Create.loadFrom := None; Create.saveToDir := None;
     Create.warmup := None; Create.co_ioMode := None;
     Create.co_backend := None; Create.preprocessUseWorkers := false |}.

(** At most [n] jobs are in flight, and exactly [n] while jobs are queued
    and no job has rejected. *)
Definition saturated {J Store} (n : nat) (st : @Pool.pstate J Store) : Prop :=
  (length (Pool.inflight st) <= n)%nat /\
  (Pool.rejected st = None -> Pool.queue st <> [] ->
   length (Pool.inflight st) = n).

End Notions.


(** * Properties *)

(** ** The frame sampler *)
Section Sampler.
Import Ffmpeg.

Lemma sample_loop_length n : forall k count d ts,
  length (sample_loop n k count d ts) = (length ts + n)%nat.
Proof.
  induction n as [|n IH]; intros k count d ts; simpl.
  - lia.
  - rewrite IH, length_app. simpl. lia.
Qed.

Lemma sample_loop_prefix n : forall k count d ts (i : nat),
  (i < length ts)%nat ->
  sample_loop n k count d ts !! i = ts !! i.
Proof.
  induction n as [|n IH]; intros k count d ts i Hi; simpl.
  - reflexivity.
  - rewrite IH by (rewrite length_app; simpl; lia).
    apply lookup_app_l. exact Hi.
Qed.

Lemma sample_loop_lookup n : forall k count d ts (j : nat),
  (j < n)%nat ->
  sample_loop n k count d ts !! (length ts + j)%nat =
    Some (((inject_Z (k + Z.of_nat j) + (1 # 2)) / inject_Z count) * d)%Q.
Proof.
  induction n as [|n IH]; intros k count d ts j Hj; [lia|].
  simpl. destruct j as [|j].
  - rewrite sample_loop_prefix by (rewrite length_app; simpl; lia).
    rewrite Nat.add_0_r, Z.add_0_r.
    rewrite lookup_app_r by lia.
    rewrite Nat.sub_diag. reflexivity.
  - specialize (IH (k + 1) count d (ts ++ [(((inject_Z k + (1 # 2)) / inject_Z count) * d)%Q]) j).
    rewrite length_app in IH. simpl in IH.
    replace (length ts + S j)%nat with (length ts + 1 + j)%nat by lia.
    rewrite IH by lia.
    replace (k + 1 + Z.of_nat j) with (k + Z.of_nat (S j)) by lia.
    reflexivity.
Qed.

Lemma sampleTimestamps_positive d count :
  (0 < d)%Q -> 0 < count ->
  sampleTimestamps d count = sample_loop (Z.to_nat count) 0 count d [].
Proof.
  intros Hd Hc. unfold sampleTimestamps.
  assert (Qeq_bool d 0 = false) as ->.
  { apply not_true_is_false. intros H. apply Qeq_bool_iff in H.
    rewrite H in Hd. revert Hd. apply Qlt_irrefl. }
  assert (Qle_bool d 0 = false) as ->.
  { apply not_true_is_false. intros H. apply Qle_bool_iff in H.
    apply (Qlt_irrefl 0). eapply Qlt_le_trans; eauto. }
  assert ((count =? 0) = false) as -> by lia.
  assert ((count <=? 0) = false) as -> by lia.
  reflexivity.
Qed.

End Sampler.

Section SamplerClaims.
Import Ffmpeg.

Lemma sampleTimestamps_empty d count :
  (d <= 0)%Q \/ count <= 0 -> sampleTimestamps d count = [].
Proof.
  intros [Hd|Hc]; unfold sampleTimestamps.
  - apply Qle_bool_iff in Hd. rewrite Hd.
    rewrite orb_true_r. reflexivity.
  - assert ((count <=? 0) = true) as -> by lia.
    rewrite orb_true_r. reflexivity.
Qed.

(** C8.  For a positive duration and a positive integer count the sampler
    returns exactly [count] timestamps, the one at position [k] being
    [(k + 0.5) / count * durationSec]; [sample(10, 4)] is
    [1.25, 3.75, 6.25, 8.75]; and the result is empty whenever the duration
    or the count is not positive. *)
Theorem sampleTimestamps_midpoints (d : Q) (count : Z) :
  ((0 < d)%Q -> 0 < count ->
     length (sampleTimestamps d count) = Z.to_nat count /\
     forall k : Z, 0 <= k < count ->
       exists t, sampleTimestamps d count !! Z.to_nat k = Some t /\
                 (t == ((inject_Z k + (1 # 2)) / inject_Z count) * d)%Q)
  /\ ((d <= 0)%Q \/ count <= 0 -> sampleTimestamps d count = [])
  /\ Forall2 Qeq (sampleTimestamps 10 4) [5 # 4; 15 # 4; 25 # 4; 35 # 4]%Q.
Proof.
  split; [|split].
  - intros Hd Hc. rewrite sampleTimestamps_positive by assumption. split.
    + rewrite sample_loop_length. simpl. lia.
    + intros k Hk. eexists. split.
      * apply (sample_loop_lookup (Z.to_nat count) 0 count d [] (Z.to_nat k)). lia.
      * rewrite Z.add_0_l, Z2Nat.id by lia. reflexivity.
  - apply sampleTimestamps_empty.
  - repeat constructor.
Qed.

Lemma sampleTimestamps_midpoints_witness :
  (0 < 10)%Q /\ 0 < 4 /\ length (sampleTimestamps 10 4) = 4%nat
  /\ sampleTimestamps 0 4 = [] /\ sampleTimestamps 10 0 = [].
Proof.
  split; [reflexivity|]. split; [lia|]. split; [|split].
  - apply (proj1 (sampleTimestamps_midpoints 10 4)); [reflexivity | lia].
  - apply (proj1 (proj2 (sampleTimestamps_midpoints 0 4))). left. discriminate.
  - apply (proj1 (proj2 (sampleTimestamps_midpoints 10 0))). right. lia.
Defined.

End SamplerClaims.

(** ** The unified entry point *)
Section Routing.
Import TM Samples.
Variable w : world.
Variable tm : classifier.

Lemma classify_legacy input mediaType o batchSize :
  mixed_form input = false ->
  classify w tm input mediaType o batchSize =
    if isVideo (default "auto"%string mediaType) (default (Num 10) (o_frames o))
    then (r <- classifyVideos w tm (legacy_input input) o ;; ret (ResVideos r))
    else (r <- lift (classifyImages w tm (legacy_input input) (o_topK o)
                       (o_centerCrop o) batchSize) ;;
          ret (ResImages r)).
Proof.
  intros Hm. destruct input as [m|l|images videos]; try reflexivity.
  unfold classify. simpl in Hm. rewrite Hm. reflexivity.
Qed.

(** C10.  With [mediaType] omitted or ['auto'] and an input that is not of
    the [{ images, videos }] form, [classify] hands the input to video
    classification whenever [frames] is a finite positive number, which
    includes the default [frames = 10]; it hands it to image classification
    when [frames] is not a finite positive number, and, whatever [frames]
    is, when [mediaType] is ['image']. *)
Theorem classify_auto_route input mediaType o batchSize :
  mixed_form input = false ->
  let frames := default (Num 10) (o_frames o) in
  let to_videos := (r <- classifyVideos w tm (legacy_input input) o ;;
                    ret (ResVideos r)) in
  let to_images := (r <- lift (classifyImages w tm (legacy_input input) (o_topK o)
                                 (o_centerCrop o) batchSize) ;;
                    ret (ResImages r)) in
  (default "auto"%string mediaType = "auto"%string ->
     (isFinite frames && gt0 frames = true ->
        classify w tm input mediaType o batchSize = to_videos)
     /\ (o_frames o = None ->
        classify w tm input mediaType o batchSize = to_videos)
     /\ (isFinite frames && gt0 frames = false ->
        classify w tm input mediaType o batchSize = to_images))
  /\ (mediaType = Some "image"%string ->
        classify w tm input mediaType o batchSize = to_images).
Proof.
  intros Hm frames to_videos to_images.
  pose proof (classify_legacy input mediaType o batchSize Hm) as Hc.
  fold frames in Hc. split.
  - intros Hauto. rewrite Hauto in Hc. unfold isVideo in Hc. simpl in Hc.
    rewrite andb_true_r in Hc. split; [|split].
    + intros Hf. rewrite Hf in Hc. exact Hc.
    + intros Hnone. subst frames. rewrite Hnone in Hc. exact Hc.
    + intros Hf. rewrite Hf in Hc. exact Hc.
  - intros ->. unfold isVideo in Hc. simpl in Hc.
    rewrite andb_false_r in Hc. exact Hc.
Qed.

End Routing.

Lemma classify_auto_route_witness :
  TM.classify Samples.barren (Samples.two_labels Ram) (TM.InOne (MString "clip.mp4"))
    None Samples.default_opts None =
  (r <- TM.classifyVideos Samples.barren (Samples.two_labels Ram)
          (TM.One (MString "clip.mp4")) Samples.default_opts ;;
   ret (TM.ResVideos r))
  /\ TM.classify Samples.barren (Samples.two_labels Ram) (TM.InOne (MString "cat.png"))
       (Some "image"%string) Samples.default_opts None =
     (r <- lift (TM.classifyImages Samples.barren (Samples.two_labels Ram)
                   (TM.One (MString "cat.png")) None true None) ;;
      ret (TM.ResImages r)).
Proof.
  split.
  - apply (proj1 (classify_auto_route Samples.barren (Samples.two_labels Ram)
                    (TM.InOne (MString "clip.mp4")) None Samples.default_opts None
                    eq_refl)).
    + reflexivity.
    + reflexivity.
  - apply (proj2 (classify_auto_route Samples.barren (Samples.two_labels Ram)
                    (TM.InOne (MString "cat.png")) (Some "image"%string)
                    Samples.default_opts None eq_refl)).
    reflexivity.
Defined.

(** ** Reasoning about awaited computations *)
Section Respects.
Import Samples.
Context (R : state -> state -> Prop) (R_refl : forall s, R s s)
  (R_trans : forall s1 s2 s3, R s1 s2 -> R s2 s3 -> R s1 s3).

Lemma respects_ret {A} (a : A) : respects R (ret a).
Proof. intros s r s' H. inversion H. subst. apply R_refl. Qed.

Lemma respects_throw {A} (e : string) : respects R (@throw A e).
Proof. intros s r s' H. inversion H. subst. apply R_refl. Qed.

Lemma respects_lift {A} (o : outcome A) : respects R (lift o).
Proof. intros s r s' H. inversion H. subst. apply R_refl. Qed.

Lemma respects_get : respects R get.
Proof. intros s r s' H. inversion H. subst. apply R_refl. Qed.

Lemma respects_modify (f : state -> state) :
  (forall s, R s (f s)) -> respects R (modify f).
Proof. intros Hf s r s' H. inversion H. subst. apply Hf. Qed.

Lemma respects_bind {A B} (m : M A) (k : A -> M B) :
  respects R m -> (forall a, respects R (k a)) -> respects R (bind m k).
Proof.
  intros Hm Hk s r s' H. unfold bind in H.
  destruct (m s) as [[a|e] s1] eqn:E.
  - eapply R_trans; [eapply Hm; eauto | eapply Hk; eauto].
  - inversion H. subst. eapply Hm; eauto.
Qed.

Lemma respects_try_catch {A} (body : M A) (handler : string -> M A) :
  respects R body -> (forall e, respects R (handler e)) ->
  respects R (try_catch body handler).
Proof.
  intros Hm Hk s r s' H. unfold try_catch in H.
  destruct (body s) as [[a|e] s1] eqn:E.
  - inversion H. subst. eapply Hm; eauto.
  - eapply R_trans; [eapply Hm; eauto | eapply Hk; eauto].
Qed.

Lemma respects_try_finally {A} (body : M A) (fin : M unit) :
  respects R body -> respects R fin -> respects R (try_finally body fin).
Proof.
  intros Hm Hf s r s' H. unfold try_finally in H.
  destruct (body s) as [rb s1] eqn:E.
  destruct (fin s1) as [[u|e] s2] eqn:F; inversion H; subst;
    (eapply R_trans; [eapply Hm; eauto | eapply Hf; eauto]).
Qed.

End Respects.

Create HintDb respects.

(** One structural step on a goal [respects R m]. *)
Ltac respects_step :=
  lazymatch goal with
  | |- Samples.respects _ (bind _ _) =>
      apply respects_bind; [eauto with respects .. | | intros ?]
  | |- Samples.respects _ (ret _) => apply respects_ret; eauto with respects
  | |- Samples.respects _ (throw _) => apply respects_throw; eauto with respects
  | |- Samples.respects _ (lift _) => apply respects_lift; eauto with respects
  | |- Samples.respects _ get => apply respects_get; eauto with respects
  | |- Samples.respects _ (try_catch _ _) =>
      apply respects_try_catch; [eauto with respects .. | | intros ?]
  | |- Samples.respects _ (try_finally _ _) =>
      apply respects_try_finally; [eauto with respects .. | | ]
  | |- Samples.respects _ (match ?x with _ => _ end) => destruct x
  | |- Samples.respects _ (if ?b then _ else _) => destruct b
  end.


Section Quiet.
Import Samples Ffmpeg.
Variable w : world.

Lemma quiet_refl s : quiet s s.
Proof. split; reflexivity. Qed.

Lemma quiet_trans s1 s2 s3 : quiet s1 s2 -> quiet s2 s3 -> quiet s1 s3.
Proof. intros [? ?] [? ?]. split; congruence. Qed.

Lemma quiet_set_fs f s : quiet s (set_fs f s).
Proof. split; reflexivity. Qed.

Hint Resolve quiet_refl quiet_trans quiet_set_fs : respects.

Lemma fs_rm_force_quiet dir : respects quiet (fs_rm_force dir).
Proof.
  intros s r s' H. unfold fs_rm_force in H.
  destruct (decide _); inversion H; subst; auto with respects.
Qed.

Lemma run_cleanup_quiet c : respects quiet (run_cleanup c).
Proof.
  destruct c as [|[dir|]]; simpl.
  - apply respects_ret; auto with respects.
  - apply fs_rm_force_quiet.
  - apply respects_ret; auto with respects.
Qed.

Lemma fs_mkdtemp_quiet prefix : respects quiet (fs_mkdtemp w prefix).
Proof.
  intros s r s' H. unfold fs_mkdtemp in H.
  destruct (w_mkdtemp w _); inversion H; subst; auto with respects.
Qed.

Hint Resolve fs_rm_force_quiet run_cleanup_quiet fs_mkdtemp_quiet : respects.

Lemma temp_resolved_quiet b : respects quiet (temp_resolved w b).
Proof.
  unfold temp_resolved, writeTemp.
  repeat (respects_step; eauto with respects).
Qed.

Hint Resolve temp_resolved_quiet : respects.

Lemma ensureLocalPathWithCleanup_quiet src :
  respects quiet (ensureLocalPathWithCleanup w src).
Proof.
  unfold ensureLocalPathWithCleanup.
  repeat (respects_step; eauto with respects).
Qed.

Lemma getMediaBuffer_quiet src : respects quiet (getMediaBuffer w src).
Proof.
  unfold getMediaBuffer.
  repeat (respects_step; eauto with respects).
Qed.

Lemma extractFrames_quiet p stamps conc :
  respects quiet (extractFrames w p stamps conc).
Proof.
  unfold extractFrames.
  repeat (respects_step; eauto with respects).
Qed.

Lemma extractFramesAutoFromBuffer_quiet b frames d :
  respects quiet (extractFramesAutoFromBuffer w b frames d).
Proof. apply respects_lift. auto with respects. Qed.

Lemma ensureFFmpeg_quiet : respects quiet (ensureFFmpeg w).
Proof. apply respects_lift. auto with respects. Qed.

End Quiet.

Lemma respects_weaken {A} (R R' : state -> state -> Prop) (m : M A) :
  (forall s s', R s s' -> R' s s') ->
  Samples.respects R m -> Samples.respects R' m.
Proof. intros HR Hm s r s' H. apply HR. eapply Hm. eauto. Qed.

#[global] Hint Resolve quiet_refl quiet_trans quiet_set_fs fs_rm_force_quiet
  run_cleanup_quiet fs_mkdtemp_quiet temp_resolved_quiet
  ensureLocalPathWithCleanup_quiet getMediaBuffer_quiet extractFrames_quiet
  extractFramesAutoFromBuffer_quiet ensureFFmpeg_quiet : respects.

(** ** The steps of a video request *)
Section VideoSteps.
Import Samples TM.
Variable w : world.
Variable tm : classifier.

Lemma cleanups_app a b : cleanups (a ++ b) = (cleanups a + cleanups b)%nat.
Proof. unfold cleanups. rewrite List.filter_app, length_app. reflexivity. Qed.

Lemma ahead_refl s : ahead_of_cleanup s s.
Proof. split; [reflexivity|]. exists []. rewrite app_nil_r. auto. Qed.

Lemma ahead_trans s1 s2 s3 :
  ahead_of_cleanup s1 s2 -> ahead_of_cleanup s2 s3 -> ahead_of_cleanup s1 s3.
Proof.
  intros [H1 (t1 & E1 & C1)] [H2 (t2 & E2 & C2)]. split; [congruence|].
  exists (t1 ++ t2). split.
  - rewrite E2, E1, app_assoc. reflexivity.
  - rewrite cleanups_app. lia.
Qed.

Lemma quiet_ahead s s' : quiet s s' -> ahead_of_cleanup s s'.
Proof.
  intros [Ht Hv]. split; [congruence|]. exists []. rewrite app_nil_r. auto.
Qed.

Lemma scoring_refl s : scoring s s.
Proof. repeat split. exists []. rewrite app_nil_r. auto. Qed.

Lemma scoring_trans s1 s2 s3 : scoring s1 s2 -> scoring s2 s3 -> scoring s1 s3.
Proof.
  intros (V1 & F1 & t1 & E1 & C1) (V2 & F2 & t2 & E2 & C2).
  split; [congruence|]. split; [congruence|].
  exists (t1 ++ t2). split.
  - rewrite E2, E1, app_assoc. reflexivity.
  - rewrite cleanups_app. lia.
Qed.

Lemma scoring_ahead s s' : scoring s s' -> ahead_of_cleanup s s'.
Proof. intros (V & F & t & E & C). split; [congruence|]. eauto. Qed.

Lemma scoring_log e s : is_cleanup e = false -> scoring s (add_event e s).
Proof.
  intros He. repeat split. exists [e]. split; [reflexivity|].
  unfold cleanups. simpl. rewrite He. reflexivity.
Qed.

Lemma ahead_log e s : is_cleanup e = false -> ahead_of_cleanup s (add_event e s).
Proof. intros He. apply scoring_ahead, scoring_log, He. Qed.

Lemma ahead_assign g s :
  (forall v, tempCleaned (g v) = tempCleaned v) ->
  ahead_of_cleanup s (set_vars (g (vars s)) s).
Proof.
  intros Hg. split; [apply Hg|]. exists []. simpl. rewrite app_nil_r. auto.
Qed.

Lemma respects_quiet_ahead {A} (m : M A) :
  respects quiet m -> respects ahead_of_cleanup m.
Proof. apply respects_weaken, quiet_ahead. Qed.

Lemma respects_scoring_ahead {A} (m : M A) :
  respects scoring m -> respects ahead_of_cleanup m.
Proof. apply respects_weaken, scoring_ahead. Qed.

Lemma log_ahead e : is_cleanup e = false -> respects ahead_of_cleanup (log e).
Proof. intros He. apply respects_modify. intros s. apply ahead_log, He. Qed.

Lemma log_scoring e : is_cleanup e = false -> respects scoring (log e).
Proof. intros He. apply respects_modify. intros s. apply scoring_log, He. Qed.

Lemma assign_ahead g :
  (forall v, tempCleaned (g v) = tempCleaned v) ->
  respects ahead_of_cleanup (assign g).
Proof. intros Hg. apply respects_modify. intros s. apply ahead_assign, Hg. Qed.

Lemma release_ahead c : respects ahead_of_cleanup (call_cleanup EvRelease c).
Proof.
  intros s r s' H. unfold call_cleanup in H.
  destruct (Ffmpeg.run_cleanup c s) as [[u|e] s1] eqn:E;
    inversion H; subst;
    (eapply ahead_trans;
     [apply quiet_ahead; eapply run_cleanup_quiet; eauto
     | apply ahead_log; reflexivity]).
Qed.

End VideoSteps.

#[global] Hint Resolve ahead_refl ahead_trans scoring_refl scoring_trans
  release_ahead : respects.
#[global] Hint Extern 1 (Samples.respects Samples.ahead_of_cleanup (log _)) =>
  apply log_ahead; reflexivity : respects.
#[global] Hint Extern 1 (Samples.respects Samples.scoring (log _)) =>
  apply log_scoring; reflexivity : respects.
#[global] Hint Extern 1 (Samples.respects Samples.ahead_of_cleanup (TM.assign _)) =>
  apply assign_ahead; intros []; reflexivity : respects.
#[global] Hint Extern 5 (Samples.respects Samples.ahead_of_cleanup _) =>
  apply respects_quiet_ahead; solve [eauto with respects] : respects.

Section VideoPhases.
Import Samples TM.
Variable w : world.
Variable tm : classifier.

Lemma size_check_ahead maxBytes : respects ahead_of_cleanup (size_check maxBytes).
Proof. unfold size_check. repeat (respects_step; eauto with respects). Qed.

Hint Resolve size_check_ahead : respects.

Lemma resolve_ram_ahead videoUrl maxBytes :
  respects ahead_of_cleanup (resolve_ram w videoUrl maxBytes).
Proof. unfold resolve_ram. repeat (respects_step; eauto with respects). Qed.

Lemma resolve_disk_ahead videoUrl maxBytes :
  respects ahead_of_cleanup (resolve_disk w videoUrl maxBytes).
Proof. unfold resolve_disk. repeat (respects_step; eauto with respects). Qed.

Lemma extract_first_ahead src frames d stamps conc :
  respects ahead_of_cleanup (extract_first w src frames d stamps conc).
Proof. unfold extract_first. repeat (respects_step; eauto with respects). Qed.

Lemma fallback_ahead videoUrl stamps conc fb :
  respects ahead_of_cleanup (fallback w videoUrl stamps conc fb).
Proof. unfold fallback. repeat (respects_step; eauto with respects). Qed.

Hint Resolve resolve_ram_ahead resolve_disk_ahead extract_first_ahead
  fallback_ahead : respects.

Lemma acquire_frames_ahead videoUrl o frames :
  respects ahead_of_cleanup (acquire_frames w tm videoUrl o frames).
Proof. unfold acquire_frames. repeat (respects_step; eauto with respects). Qed.

End VideoPhases.

(** ** Taking a run apart *)
Section Inversion.

Lemma bind_inv {A B} (m : M A) (k : A -> M B) s r s' :
  bind m k s = (r, s') ->
  (exists a s1, m s = (Ok a, s1) /\ k a s1 = (r, s')) \/
  (exists e, m s = (Throw e, s') /\ r = Throw e).
Proof.
  unfold bind. destruct (m s) as [[a|e] s1]; intros H.
  - left. eauto.
  - right. inversion H. subst. eauto.
Qed.

Lemma bind_ok_inv {A B} (m : M A) (k : A -> M B) s b s' :
  bind m k s = (Ok b, s') ->
  exists a s1, m s = (Ok a, s1) /\ k a s1 = (Ok b, s').
Proof.
  intros H. apply bind_inv in H. destruct H as [H|(e & _ & H)]; [exact H|].
  discriminate.
Qed.

Lemma try_finally_inv {A} (body : M A) (fin : M unit) s r s' :
  try_finally body fin s = (r, s') ->
  exists rb s1 rf, body s = (rb, s1) /\ fin s1 = (rf, s') /\
    r = match rf with Ok _ => rb | Throw e => Throw e end.
Proof.
  unfold try_finally. destruct (body s) as [rb s1].
  destruct (fin s1) as [[u|e] s2] eqn:F; intros H; inversion H; subst;
    do 3 eexists; repeat split; eauto.
Qed.

End Inversion.

Section Scoring.
Import Samples TM.
Variable w : world.
Variable tm : classifier.

Lemma frame_loop_scoring targetH targetW crop k stamps bufs :
  forall i agg fc results,
    respects scoring
      (frame_loop w tm targetH targetW crop k stamps i bufs agg fc results).
Proof.
  induction bufs as [|buf rest IH]; intros i agg fc results; simpl.
  - respects_step.
  - repeat (respects_step; eauto with respects).
Qed.

Lemma scoring_resizes (l : list bytes) s :
  scoring s (foldr (fun _ => add_event EvResize) s l).
Proof.
  induction l as [|b l IH]; simpl.
  - apply scoring_refl.
  - eapply scoring_trans; [exact IH|]. apply scoring_log. reflexivity.
Qed.

Lemma turbo_frames_scoring targetH targetW crop k stamps conc bufs :
  respects scoring (turbo_frames w tm targetH targetW crop k stamps conc bufs).
Proof.
  unfold turbo_frames.
  respects_step.
  - apply respects_modify. apply scoring_resizes.
  - repeat (respects_step; eauto with respects).
Qed.

Lemma tally_scoring o targetH targetW stamps bufs :
  respects scoring (tally w tm o targetH targetW stamps bufs).
Proof.
  unfold tally. destruct (o_turboMode o).
  - apply turbo_frames_scoring.
  - apply frame_loop_scoring.
Qed.

(** The two exits of [await cleanup(); tempCleaned = true;]. *)
Lemma cleanup_and_mark_inv s r s' :
  cleanup_and_mark s = (r, s') ->
  (r = Ok tt /\ tempCleaned (vars s') = true /\
   Ffmpeg.run_cleanup (cleanup (vars s)) s = (Ok tt, set_vars (vars s) (set_fs (fs s') s)) /\
   vars s' = set_tempCleaned true (vars s) /\
   trace s' = trace s ++ [EvCleanup (cleanup (vars s)) true])
  \/
  (exists e, r = Throw e /\ vars s' = vars s /\
   fst (Ffmpeg.run_cleanup (cleanup (vars s)) s) = Throw e /\
   trace s' = trace s ++ [EvCleanup (cleanup (vars s)) false]).
Proof.
  unfold cleanup_and_mark, bind, get, call_cleanup, assign, modify.
  destruct (Ffmpeg.run_cleanup (cleanup (vars s)) s) as [[u|e] s1] eqn:E;
    intros H; inversion H; subst; clear H.
  - left. destruct u.
    pose proof (run_cleanup_quiet _ _ _ _ E) as [Ht Hv].
    simpl. rewrite Ht, Hv. repeat split.
    destruct s1 as [f1 v1 t1], s as [f0 v0 t0]. simpl in *. subst. reflexivity.
  - right. exists e.
    pose proof (run_cleanup_quiet _ _ _ _ E) as [Ht Hv].
    simpl. rewrite Ht, Hv. repeat split.
Qed.

(** What a run of the second half of the [try] block consists of. *)
Lemma score_frames_inv videoUrl o frames targetH targetW stamps bufs s r s' :
  score_frames w tm videoUrl o frames targetH targetW stamps bufs s = (r, s') ->
  (exists e, r = Throw e /\ scoring s s') \/
  (exists agg fc results s1 rc,
     tally w tm o targetH targetW stamps bufs s = (Ok (agg, fc, results), s1) /\
     cleanup_and_mark s1 = (rc, s') /\
     r = match rc with
         | Throw e => Throw e
         | Ok _ =>
             Ok {| vr_input := videoUrl; vr_frames := frames;
                   vr_turboMode := o_turboMode o;
                   vr_io := {| io_mode_used := usedMode (vars s1);
                               io_fallbackToDisk := fallbackToDisk (vars s1);
                               io_tempCleaned := tempCleaned (vars s1);
                               io_sizeBytes := sizeBytes (vars s1);
                               io_maxBytes := default (10 * 1024 * 1024) (o_maxBytes o) |};
                   vr_results := results;
                   vr_aggregate := overall tm (clampK (o_topK o) (cls tm)) agg fc |}
         end).
Proof.
  unfold score_frames. intros H.
  apply bind_inv in H. destruct H as [(acc & s1 & Ht & H)|(e & Ht & ->)].
  - destruct acc as [[agg fc] results].
    right. exists agg, fc, results, s1.
    unfold make_out in H. unfold bind at 1 in H. unfold bind at 1 in H.
    unfold get, ret in H.
    apply bind_inv in H. destruct H as [(u & s2 & Hc & H)|(e & Hc & ->)].
    + exists (Ok u). inversion H. subst. split; [exact Ht|]. split; [exact Hc|].
      reflexivity.
    + exists (Throw e). auto.
  - left. exists e. split; [reflexivity|]. eapply tally_scoring. eauto.
Qed.

End Scoring.

(** ** Cleanup of a video request *)
Section Cleanup.
Import Samples TM.
Variable w : world.
Variable tm : classifier.

Lemma cleanups_one c b : cleanups [EvCleanup c b] = 1%nat.
Proof. reflexivity. Qed.

(** The [try] block invokes [cleanup] once when it completes and at most
    once when it throws, and sets [tempCleaned] only when it completes. *)
Lemma video_body_cleanups videoUrl o frames targetH targetW s r s' :
  video_body w tm videoUrl o frames targetH targetW s = (r, s') ->
  exists t, trace s' = trace s ++ t /\
    match r with
    | Ok _ => cleanups t = 1%nat /\ exists c, In (EvCleanup c true) t
    | Throw _ => (cleanups t = 0%nat \/ cleanups t = 1%nat) /\
                 tempCleaned (vars s') = tempCleaned (vars s)
    end.
Proof.
  unfold video_body. intros H.
  apply bind_inv in H. destruct H as [(sf & s1 & Ha & H)|(e & Ha & ->)].
  - apply acquire_frames_ahead in Ha. destruct Ha as [Hv (t1 & Et1 & Ct1)].
    apply score_frames_inv in H.
    destruct H as [(e & -> & Hs)|(agg & fc & results & s2 & rc & Ht & Hc & ->)].
    + apply scoring_ahead in Hs. destruct Hs as [Hv2 (t2 & Et2 & Ct2)].
      exists (t1 ++ t2). split.
      * rewrite Et2, Et1, app_assoc. reflexivity.
      * split; [left; rewrite cleanups_app; lia | congruence].
    + apply tally_scoring in Ht. destruct Ht as (Hv2 & _ & t2 & Et2 & Ct2).
      apply cleanup_and_mark_inv in Hc.
      destruct Hc as [(-> & Hm & _ & _ & Et3)|(e & -> & Hv3 & _ & Et3)].
      * exists (t1 ++ t2 ++ [EvCleanup (cleanup (vars s2)) true]). split.
        -- rewrite Et3, Et2, Et1, <- !app_assoc. reflexivity.
        -- split.
           ++ rewrite !cleanups_app, cleanups_one. lia.
           ++ exists (cleanup (vars s2)). rewrite !in_app_iff. simpl. auto.
      * exists (t1 ++ t2 ++ [EvCleanup (cleanup (vars s2)) false]). split.
        -- rewrite Et3, Et2, Et1, <- !app_assoc. reflexivity.
        -- split; [right; rewrite !cleanups_app, cleanups_one; lia | congruence].
  - apply acquire_frames_ahead in Ha. destruct Ha as [Hv (t1 & Et1 & Ct1)].
    exists t1. split; [exact Et1|]. split; [left; exact Ct1 | exact Hv].
Qed.

(** The [finally] block invokes [cleanup] once more and never throws. *)
Lemma finally_block s r s' :
  try_catch cleanup_and_mark (fun _ => ret tt) s = (r, s') ->
  r = Ok tt /\
  exists c b, trace s' = trace s ++ [EvCleanup c b] /\
    (tempCleaned (vars s') = true -> b = true \/ tempCleaned (vars s) = true).
Proof.
  unfold try_catch. destruct (cleanup_and_mark s) as [rc s1] eqn:E.
  apply cleanup_and_mark_inv in E.
  destruct E as [(-> & Hm & _ & _ & Et)|(e & -> & Hv & _ & Et)]; intros H;
    inversion H; subst; (split; [reflexivity|]); do 2 eexists;
    (split; [exact Et|]).
  - auto.
  - rewrite Hv. auto.
Qed.

Lemma classifyVideo1_unfold videoUrl o s :
  reaches_try w tm videoUrl o = true ->
  exists targetH targetW,
    classifyVideo1 w tm videoUrl o s =
      try_finally
        (video_body w tm videoUrl o (floor_frames (default (Num 10) (o_frames o)))
           targetH targetW)
        (try_catch cleanup_and_mark (fun _ => ret tt))
        (set_vars (init_vars tm) s).
Proof.
  unfold reaches_try, classifyVideo1. intros H.
  apply andb_prop in H. destruct H as [H Hff].
  apply andb_prop in H. destruct H as [H Hshape].
  apply andb_prop in H. destruct H as [H Hle].
  apply andb_prop in H. destruct H as [Htr Hfin].
  rewrite Htr, Hfin. apply negb_true_iff in Hle. rewrite Hle. simpl.
  destruct (shapeH (tm_model tm)) as [targetH|]; [|discriminate].
  destruct (shapeW (tm_model tm)) as [targetW|]; [|discriminate].
  exists targetH, targetW.
  unfold Ffmpeg.ensureFFmpeg, lift, bind at 1.
  destruct (w_ffmpeg w); [|discriminate]. reflexivity.
Qed.

(** C2 (amended).  A single-video call that passes its guards invokes the
    [cleanup] action in effect at least once and at most twice on every
    exit: the [try] block invokes it before it returns and the [finally]
    block invokes it again, so a call that returns has invoked it exactly
    twice; and [tempCleaned] is true at the end only if an invocation of
    [cleanup] completed without throwing. *)
Theorem classifyVideo1_cleanup_calls videoUrl o s r s' :
  reaches_try w tm videoUrl o = true ->
  classifyVideo1 w tm videoUrl o s = (r, s') ->
  exists t, trace s' = trace s ++ t /\
    (1 <= cleanups t <= 2)%nat /\
    (is_ok r = true -> cleanups t = 2%nat) /\
    (tempCleaned (vars s') = true -> exists c, In (EvCleanup c true) t).
Proof.
  intros Hg H.
  destruct (classifyVideo1_unfold videoUrl o s Hg) as (targetH & targetW & E).
  rewrite E in H. clear E.
  apply try_finally_inv in H. destruct H as (rb & s1 & rf & Hb & Hf & ->).
  apply video_body_cleanups in Hb. destruct Hb as (t1 & Et1 & Hb).
  apply finally_block in Hf. destruct Hf as (-> & c & b & Et2 & Hm).
  simpl in Et1.
  exists (t1 ++ [EvCleanup c b]). split.
  - rewrite Et2, Et1, app_assoc. reflexivity.
  - rewrite cleanups_app, cleanups_one. destruct rb as [out|e].
    + destruct Hb as [Hc (c1 & Hin)]. split; [lia|]. split; [intros _; lia|].
      intros _. exists c1. apply in_app_iff. auto.
    + destruct Hb as [Hc Hv]. split; [lia|]. split; [discriminate|].
      intros Ht. destruct (Hm Ht) as [->|Hold].
      * exists c. apply in_app_iff. simpl. auto.
      * rewrite Hv in Hold. simpl in Hold. discriminate.
Qed.

End Cleanup.

Lemma classifyVideo1_cleanup_calls_witness :
  exists t,
    trace (snd (TM.classifyVideo1 Samples.playable (Samples.two_labels Disk)
                  (MBuffer []) Samples.default_opts Samples.fresh)) = [] ++ t /\
    (1 <= Samples.cleanups t <= 2)%nat.
Proof.
  destruct (classifyVideo1_cleanup_calls Samples.playable (Samples.two_labels Disk)
              (MBuffer []) Samples.default_opts Samples.fresh _ _
              eq_refl (surjective_pairing _)) as (t & Et & Hc & _).
  exists t. split; [exact Et | exact Hc].
Defined.

(** C2, as stated, fails on a successful disk-mode request: the release
    action of the temp directory is invoked twice, not once. *)
Lemma cleanup_invoked_twice_on_success :
  let run := TM.classifyVideo1 Samples.playable (Samples.two_labels Disk)
               (MBuffer []) Samples.default_opts Samples.fresh in
  is_ok (fst run) = true /\
  List.filter Samples.is_cleanup (trace (snd run)) =
    [EvCleanup (CleanupRm (Some "/tmp/tmvid-0"%string)) true;
     EvCleanup (CleanupRm (Some "/tmp/tmvid-0"%string)) true] /\
  Samples.cleanups (trace (snd run)) <> 1%nat.
Proof.
  vm_compute. split; [reflexivity|]. split; [reflexivity|]. discriminate.
Qed.

(** ** The size ceiling and the disk fallback *)
Section Acquisition.
Import Samples TM.
Variable w : world.
Variable tm : classifier.

(** [getMediaBuffer] neither reads nor writes the state. *)
Lemma getMediaBuffer_state src s :
  Ffmpeg.getMediaBuffer w src s = (fst (Ffmpeg.getMediaBuffer w src fresh), s).
Proof.
  unfold Ffmpeg.getMediaBuffer.
  destruct src as [|str|b|]; try reflexivity.
  repeat match goal with
         | |- context [if ?b then _ else _] => destruct b
         | |- context [match ?x with _ => _ end] => destruct x
         end; reflexivity.
Qed.

(** In disk mode the exception of the size check is caught on the spot:
    the guarded block always completes, whatever the size. *)
Lemma disk_size_check_swallowed maxBytes size s :
  try_catch (assign (set_sizeBytes size) ;;; size_check maxBytes)
    (fun _ => ret tt) s =
  (Ok tt, set_vars (set_sizeBytes size (vars s)) s).
Proof.
  cbv [try_catch bind assign modify size_check get throw ret]. simpl.
  destruct (negb (maxBytes =? 0) && (maxBytes <? size)); reflexivity.
Qed.

(** In [ram] mode a buffer above a non-zero [maxBytes] ends the request
    right after the acquisition. *)
Lemma resolve_ram_size_exceeded videoUrl maxBytes buf s :
  fst (Ffmpeg.getMediaBuffer w videoUrl fresh) = Ok buf ->
  maxBytes <> 0 -> maxBytes < Z.of_nat (length buf) ->
  resolve_ram w videoUrl maxBytes s =
    (Throw "Media exceeds maxBytes",
     set_vars (set_sizeBytes (Z.of_nat (length buf)) (vars s))
       (add_event EvGetMediaBuffer s)).
Proof.
  intros Hbuf Hnz Hlt.
  cbv [resolve_ram bind log modify].
  rewrite getMediaBuffer_state, Hbuf.
  cbv [size_check assign modify bind get throw]. simpl.
  assert ((maxBytes =? 0) = false) as -> by lia.
  assert ((maxBytes <? Z.of_nat (length buf)) = true) as -> by lia.
  reflexivity.
Qed.

(** The [ram] path of the size ceiling, end to end: the request fails with
    the size error and nothing but the acquisition and the final
    invocation of the (empty) cleanup has happened. *)
Lemma ram_mode_fails_fast videoUrl o s buf :
  ioMode tm = Ram ->
  reaches_try w tm videoUrl o = true ->
  fst (Ffmpeg.getMediaBuffer w videoUrl fresh) = Ok buf ->
  default (10 * 1024 * 1024) (o_maxBytes o) <> 0 ->
  default (10 * 1024 * 1024) (o_maxBytes o) < Z.of_nat (length buf) ->
  exists s',
    classifyVideo1 w tm videoUrl o s = (Throw "Media exceeds maxBytes", s') /\
    trace s' = trace s ++ [EvGetMediaBuffer; EvCleanup CleanupNoop true] /\
    existsb is_work (trace s') = existsb is_work (trace s).
Proof.
  intros Hram Hg Hbuf Hnz Hlt.
  destruct (classifyVideo1_unfold w tm videoUrl o s Hg) as (targetH & targetW & E).
  rewrite E. clear E.
  unfold try_finally, video_body, acquire_frames. rewrite Hram.
  unfold bind at 1. unfold bind at 1.
  rewrite (resolve_ram_size_exceeded videoUrl _ buf _ Hbuf Hnz Hlt).
  eexists. split; [reflexivity|]. simpl. split.
  - rewrite <- app_assoc. reflexivity.
  - rewrite <- app_assoc, existsb_app. simpl. apply orb_false_r.
Qed.

End Acquisition.

(** C3, at the failing input: a disk-mode request for a 20 MiB file under
    the default 10 MiB ceiling is not rejected; it is probed, its frames
    are extracted and scored, and a result is returned. *)
Lemma disk_mode_ignores_maxBytes :
  let run := TM.classifyVideo1 Samples.playable (Samples.two_labels Disk)
               (MString "big.mp4") Samples.default_opts Samples.fresh in
  is_ok (fst run) = true /\
  sizeBytes (vars (snd run)) = 20 * 1024 * 1024 /\
  List.filter Samples.is_work (trace (snd run)) =
    [EvProbe; EvExtract Disk] ++ concat (replicate 10 [EvResize; EvPredict]).
Proof. vm_compute. repeat split. Qed.

Section Fallback.
Import Samples TM.
Variable w : world.
Variable tm : classifier.

Lemma resolve_ram_ok videoUrl maxBytes s ds sa :
  resolve_ram w videoUrl maxBytes s = (Ok ds, sa) ->
  exists buf,
    fst (Ffmpeg.getMediaBuffer w videoUrl fresh) = Ok buf /\
    ds = (w_probeBuffer w buf, SrcBuffer buf) /\
    sa = add_event EvProbe
           (set_vars (set_sizeBytes (Z.of_nat (length buf)) (vars s))
              (add_event EvGetMediaBuffer s)).
Proof.
  cbv [resolve_ram bind log modify]. rewrite getMediaBuffer_state.
  destruct (fst (Ffmpeg.getMediaBuffer w videoUrl fresh)) as [buf|e];
    [|discriminate].
  cbv [size_check assign modify bind get throw ret]. simpl.
  destruct (negb (maxBytes =? 0) && (maxBytes <? Z.of_nat (length buf)));
    [discriminate|].
  intros H. inversion H. subst. exists buf. auto.
Qed.

Lemma extract_first_ram b frames d stamps conc s :
  usedMode (vars s) = Ram ->
  extract_first w (SrcBuffer b) frames d stamps conc s =
    (w_extractAuto w b frames d, add_event (EvExtract Ram) s).
Proof.
  intros Hmode.
  cbv [extract_first bind get log modify Ffmpeg.extractFramesAutoFromBuffer lift].
  rewrite Hmode. destruct (w_extractAuto w b frames d); reflexivity.
Qed.

(** The fallback block on an empty [frameBuffers] in [ram] mode. *)
Lemma fallback_ram_empty_ok videoUrl stamps conc s fb s1 :
  usedMode (vars s) = Ram ->
  fallback w videoUrl stamps conc [] s = (Ok fb, s1) ->
  usedMode (vars s1) = Disk /\ fallbackToDisk (vars s1) = true /\
  exists c, trace s1 = trace s ++ [EvEnsureLocalPath; EvExtract Disk;
                                     EvRelease c true].
Proof.
  intros Hmode H. unfold fallback in H.
  unfold bind at 1 in H. unfold get at 1 in H. rewrite Hmode in H.
  unfold bind at 1 in H. unfold log at 1, modify at 1 in H.
  apply bind_ok_inv in H. destruct H as (loc & sa & Hloc & H).
  apply ensureLocalPathWithCleanup_quiet in Hloc. destruct Hloc as [Ht Hv].
  simpl in Ht, Hv.
  unfold bind at 1 in H. unfold assign at 1, modify at 1 in H.
  unfold bind at 1 in H. unfold assign at 1, modify at 1 in H.
  apply try_finally_inv in H. destruct H as (rb & sb & rf & Hb & Hf & Hr).
  destruct rf as [u|e]; [|discriminate]. subst rb.
  unfold bind at 1 in Hb. unfold log at 1, modify at 1 in Hb.
  apply bind_ok_inv in Hb. destruct Hb as (fb' & sc & Hx & Hb).
  apply extractFrames_quiet in Hx. destruct Hx as [Ht2 Hv2].
  simpl in Ht2, Hv2.
  cbv [bind get assign modify ret] in Hb. inversion Hb. subst fb' sb. clear Hb.
  unfold call_cleanup in Hf.
  destruct (Ffmpeg.run_cleanup (Ffmpeg.release loc) _) as [[u'|e] sd] eqn:Er;
    [|discriminate].
  apply run_cleanup_quiet in Er. destruct Er as [Ht3 Hv3]. simpl in Ht3, Hv3.
  inversion Hf. subst s1. simpl.
  rewrite Hv3, Ht3, Hv2, Ht2, Hv, Ht. simpl.
  repeat split. exists (Ffmpeg.release loc).
  rewrite <- !app_assoc. reflexivity.
Qed.

End Fallback.

Section Guards.
Import Samples TM.
Variable w : world.
Variable tm : classifier.

(** A call that returns has passed the guards ahead of the [try] block. *)
Lemma classifyVideo1_ok_reaches videoUrl o s out s' :
  classifyVideo1 w tm videoUrl o s = (Ok out, s') ->
  reaches_try w tm videoUrl o = true.
Proof.
  unfold classifyVideo1, reaches_try.
  destruct (truthy videoUrl); [|discriminate]. simpl.
  destruct (isFinite (default (Num 10) (o_frames o))); [|discriminate]. simpl.
  destruct (le0 (default (Num 10) (o_frames o))); [discriminate|]. simpl.
  destruct (shapeH (tm_model tm)); [|discriminate].
  destruct (shapeW (tm_model tm)); [|discriminate].
  unfold bind at 1. unfold Ffmpeg.ensureFFmpeg, lift.
  destruct (w_ffmpeg w); [reflexivity|discriminate].
Qed.

End Guards.

(** ** The aggregate of a request without frames *)
Section ZeroFrames.
Import Samples TM.
Variable w : world.
Variable tm : classifier.







Lemma iter_runner_loop_empty {J Store} (njobs n : nat)
    (st : @Pool.pstate J Store) :
  Pool.queue st = [] ->
  Nat.iter n (Pool.runner_loop njobs) st = st.
Proof.
  intros Hq. induction n as [|n IH]; [reflexivity|].
  simpl. rewrite IH. unfold Pool.runner_loop. rewrite Hq. reflexivity.
Qed.





End ZeroFrames.



(** ** The release action of a resolved path *)
Section Release.
Import Samples Ffmpeg.
Variable w : world.

Lemma fs_rm_force_ok_inv dir s s' :
  fs_rm_force dir s = (Ok tt, s') ->
  s' = set_fs {| dirs := dirs (fs s) ∖ {[dir]}; locked := locked (fs s);
                 created := created (fs s) |} s.
Proof.
  unfold fs_rm_force. destruct (decide _); intros H; inversion H. reflexivity.
Qed.

Lemma fs_rm_force_absent dir s :
  dir ∉ dirs (fs s) -> fs_rm_force dir s = (Ok tt, s).
Proof.
  intros Hd. unfold fs_rm_force.
  destruct (decide _) as [[Hin _]|_]; [contradiction|].
  f_equal. destruct s as [[d l c] v t]. unfold set_fs. simpl in *.
  do 2 f_equal. set_solver.
Qed.

Lemma temp_resolved_ok_inv b s loc s1 :
  temp_resolved w b s = (Ok loc, s1) ->
  exists dir, release loc = CleanupRm (Some dir) /\ dir ∈ dirs (fs s1).
Proof.
  unfold temp_resolved, writeTemp. intros H.
  apply bind_ok_inv in H. destruct H as (fd & sa & H & Hret).
  inversion Hret. subst. clear Hret.
  apply bind_ok_inv in H. destruct H as (dir & sb & Hmk & H).
  apply bind_ok_inv in H. destruct H as (u & sc & Hwr & Hret).
  inversion Hret. subst. clear Hret.
  unfold lift in Hwr. inversion Hwr. subst. clear Hwr.
  unfold fs_mkdtemp in Hmk. destruct (w_mkdtemp w _); inversion Hmk. subst.
  eexists. split; [reflexivity|]. simpl. set_solver.
Qed.

(** The release action handed out with a resolved path is the empty one,
    or removes a temp directory that exists when the path is returned. *)
Lemma ensureLocalPathWithCleanup_release src s loc s1 :
  ensureLocalPathWithCleanup w src s = (Ok loc, s1) ->
  release loc = CleanupNoop \/
  exists dir, release loc = CleanupRm (Some dir) /\ dir ∈ dirs (fs s1).
Proof.
  unfold ensureLocalPathWithCleanup. intros H.
  destruct src as [|str|b|]; try discriminate.
  - destruct (String.eqb str ""); [discriminate|].
    destruct (Str.startsWith "http" str).
    { apply bind_ok_inv in H. destruct H as (buf & sa & _ & H).
      right. eapply temp_resolved_ok_inv. exact H. }
    destruct (Str.startsWith "data:" str).
    { destruct (Str.split_comma_1 str) as [base64|]; [|discriminate].
      destruct (String.eqb base64 ""); [discriminate|].
      right. eapply temp_resolved_ok_inv. exact H. }
    destruct (Str.looksBase64 str).
    { unfold try_catch in H.
      destruct (temp_resolved w (w_base64 w str) s) as [[loc'|e] sa] eqn:E.
      - inversion H. subst. right. eapply temp_resolved_ok_inv. exact E.
      - inversion H. left. reflexivity. }
    inversion H. left. reflexivity.
  - right. eapply temp_resolved_ok_inv. exact H.
Qed.

(** C9.  The release action of a resolved path is the empty action or the
    forced removal of the temp directory created for it.  Once it has
    completed, invoking it again completes as well and changes nothing:
    the directory is already gone, and a forced removal of a missing path
    is not an error. *)
Theorem cleanup_twice_is_noop src s loc s1 s2 s3 :
  ensureLocalPathWithCleanup w src s = (Ok loc, s1) ->
  run_cleanup (release loc) s2 = (Ok tt, s3) ->
  run_cleanup (release loc) s3 = (Ok tt, s3) /\
  (release loc = CleanupNoop \/
   exists dir, release loc = CleanupRm (Some dir) /\
               dir ∈ dirs (fs s1) /\ dir ∉ dirs (fs s3)).
Proof.
  intros Hacq H.
  destruct (ensureLocalPathWithCleanup_release _ _ _ _ Hacq)
    as [Hrel|(dir & Hrel & Hin)]; rewrite Hrel in *; simpl in *.
  - split; [reflexivity|]. left. reflexivity.
  - apply fs_rm_force_ok_inv in H.
    assert (dir ∉ dirs (fs s3)) as Hd by (subst s3; simpl; set_solver).
    split; [apply fs_rm_force_absent, Hd|].
    right. exists dir. auto.
Qed.

End Release.

Lemma cleanup_twice_is_noop_witness :
  let loc := {| Ffmpeg.path := "/tmp/tmvid-0/input";
                Ffmpeg.release := CleanupRm (Some "/tmp/tmvid-0"%string) |} in
  let s1 := snd (Ffmpeg.ensureLocalPathWithCleanup Samples.playable (MBuffer [])
                   Samples.fresh) in
  let s3 := snd (Ffmpeg.run_cleanup (Ffmpeg.release loc) s1) in
  Ffmpeg.ensureLocalPathWithCleanup Samples.playable (MBuffer []) Samples.fresh
    = (Ok loc, s1) /\
  Ffmpeg.run_cleanup (Ffmpeg.release loc) s1 = (Ok tt, s3) /\
  Ffmpeg.run_cleanup (Ffmpeg.release loc) s3 = (Ok tt, s3).
Proof.
  intros loc s1 s3.
  assert (Ffmpeg.ensureLocalPathWithCleanup Samples.playable (MBuffer [])
            Samples.fresh = (Ok loc, s1)) as H1 by (vm_compute; reflexivity).
  assert (Ffmpeg.run_cleanup (Ffmpeg.release loc) s1 = (Ok tt, s3)) as H2
    by (vm_compute; reflexivity).
  split; [exact H1|]. split; [exact H2|].
  exact (proj1 (cleanup_twice_is_noop Samples.playable (MBuffer []) Samples.fresh
                  loc s1 s1 s3 H1 H2)).
Defined.

(** ** Labels against score columns *)
Section TopK.
Import Samples TM.

Lemma insert_by_length {A} (before : A -> A -> bool) a l :
  length (insert_by before a l) = S (length l).
Proof.
  induction l as [|y l IH]; simpl; [reflexivity|].
  destruct (before a y); simpl; [reflexivity|]. rewrite IH. reflexivity.
Qed.

Lemma stable_sort_length {A} (before : A -> A -> bool) l :
  length (stable_sort before l) = length l.
Proof.
  induction l as [|a l IH]; [reflexivity|].
  unfold stable_sort in *. simpl. rewrite insert_by_length, IH. reflexivity.
Qed.

Lemma order_desc_length scores : length (order_desc scores) = length scores.
Proof. unfold order_desc. rewrite stable_sort_length. apply length_seq. Qed.

Lemma topk_row_ok k row :
  0 <= k <= Z.of_nat (length row) ->
  exists v i, topk_row k row = Ok (v, i) /\
              length v = Z.to_nat k /\ length i = Z.to_nat k.
Proof.
  intros Hk. unfold topk_row.
  assert ((k <? 0) = false) as -> by lia.
  assert ((Z.of_nat (length row) <? k) = false) as -> by lia.
  do 2 eexists. split; [reflexivity|].
  rewrite length_map, !length_take, !order_desc_length, !length_map.
  split; apply Nat.min_l; lia.
Qed.

(** On a single row the flat [data()] of the two tensors are the row of
    values and the row of indices, also when [k] is 0 and both are empty. *)
Lemma getTopKClasses_row (labels : list string) (topK : option Z) (row : list Q) :
  getTopKClasses [row] labels topK =
    obind (topk_row (clampK topK labels) row) (fun vi =>
      Ok (imap (fun j idx => (labels !! idx, mjoin (fst vi !! j))) (snd vi))).
Proof.
  unfold getTopKClasses, topk. simpl.
  destruct (topk_row (clampK topK labels) row) as [[v i]|e] eqn:E; [|reflexivity].
  simpl. destruct (clampK topK labels =? 0) eqn:K; simpl.
  - apply Z.eqb_eq in K. rewrite K in E. unfold topk_row in E. simpl in E.
    destruct (Z.of_nat (length row) <? 0); [discriminate|].
    inversion E. reflexivity.
  - rewrite !app_nil_r. reflexivity.
Qed.

Section WithWorld.
Variable w : world.
Variable tm : classifier.

(** C6 (amended).  No path compares the width [W] of the engine's row
    with the number [L] of labels, and there is no [ModelMismatch] error.
    For a single-image inference whose engine answer is one row of width
    [W], with [K = min(topK ?? L, L)]: the call returns if and only if
    [0 <= K <= W], and then exactly [K] predictions; it fails with the
    range error of the top-k operator when [K > W] and when [K < 0].  This
    holds of [getTopKClasses] on the row, and of [_decodeAndPredict] once
    preprocessing has succeeded.  A mismatch [W <> L] is therefore an
    error only when it makes [K] exceed [W]. *)
Theorem getTopKClasses_ignores_width (topK : option Z) (row : list Q) :
  let labels := cls tm in
  let k := clampK topK labels in
  let W := Z.of_nat (length row) in
  (((exists top, getTopKClasses [row] labels topK = Ok top) <-> 0 <= k <= W)
   /\ (forall top, getTopKClasses [row] labels topK = Ok top ->
                   length top = Z.to_nat k)
   /\ (k < 0 -> getTopKClasses [row] labels topK =
                  Throw "'k' passed to topk() must be >= 0")
   /\ (W < k -> getTopKClasses [row] labels topK =
                  Throw "'k' passed to topk() must be <= the last dimension"))
  /\ (forall imageBuffer crop targetH targetW t,
       shapeH (tm_model tm) = Some targetH ->
       shapeW (tm_model tm) = Some targetW ->
       prepare_tensor w tm imageBuffer targetW targetH crop = Ok t ->
       w_predict w [normalize t] = Ok [row] ->
       ((exists preds, decodeAndPredict w tm imageBuffer topK crop = Ok preds)
          <-> 0 <= k <= W)
       /\ (forall preds, decodeAndPredict w tm imageBuffer topK crop = Ok preds ->
                         length preds = Z.to_nat k)
       /\ (k < 0 -> decodeAndPredict w tm imageBuffer topK crop =
                      Throw "'k' passed to topk() must be >= 0")
       /\ (W < k -> decodeAndPredict w tm imageBuffer topK crop =
                      Throw "'k' passed to topk() must be <= the last dimension")).
Proof.
  intros labels k W.
  assert (0 <= k <= W ->
          exists top, getTopKClasses [row] labels topK = Ok top /\
                      length top = Z.to_nat k) as Hin.
  { intros Hk. destruct (topk_row_ok k row Hk) as (v & i & E & Hv & Hi).
    rewrite getTopKClasses_row. fold k. rewrite E. simpl.
    eexists. split; [reflexivity|]. rewrite length_imap. exact Hi. }
  assert (k < 0 -> getTopKClasses [row] labels topK =
                     Throw "'k' passed to topk() must be >= 0") as Hneg.
  { intros Hk. rewrite getTopKClasses_row. fold k. unfold topk_row.
    assert ((k <? 0) = true) as -> by lia. reflexivity. }
  assert (W < k -> getTopKClasses [row] labels topK =
                     Throw "'k' passed to topk() must be <= the last dimension")
    as Hwide.
  { intros Hk. rewrite getTopKClasses_row. fold k. unfold topk_row.
    assert ((k <? 0) = false) as -> by lia.
    assert ((Z.of_nat (length row) <? k) = true) as -> by (unfold W in Hk; lia).
    reflexivity. }
  assert (forall top, getTopKClasses [row] labels topK = Ok top -> 0 <= k <= W)
    as Hout.
  { intros top E. destruct (Z_lt_le_dec k 0) as [Hlt|Hge].
    - rewrite (Hneg Hlt) in E. discriminate.
    - destruct (Z_lt_le_dec W k) as [Hw|Hw]; [|lia].
      rewrite (Hwide Hw) in E. discriminate. }
  split.
  - split; [|split; [|split]].
    + split.
      * intros (top & E). exact (Hout top E).
      * intros Hk. destruct (Hin Hk) as (top & E & _). eauto.
    + intros top E. destruct (Hin (Hout top E)) as (top' & E' & Hl).
      congruence.
    + exact Hneg.
    + exact Hwide.
  - intros imageBuffer crop targetH targetW t HH HW Ht Hp.
    assert (decodeAndPredict w tm imageBuffer topK crop =
            obind (getTopKClasses [row] labels topK) (fun top =>
              Ok (imap (fun idx p => {| class := fst p; score := snd p;
                                        rank := Z.of_nat idx + 1 |}) top))) as Hd.
    { unfold decodeAndPredict. rewrite HH, HW, Ht. simpl. rewrite Hp. reflexivity. }
    rewrite Hd. split; [|split; [|split]].
    + split.
      * intros (preds & E).
        destruct (getTopKClasses [row] labels topK) as [top|e] eqn:Eg;
          [|discriminate].
        exact (Hout top eq_refl).
      * intros Hk. destruct (Hin Hk) as (top & E & _). rewrite E. simpl. eauto.
    + intros preds E.
      destruct (getTopKClasses [row] labels topK) as [top|e] eqn:Eg;
        [|discriminate].
      simpl in E. inversion E. rewrite length_imap.
      destruct (Hin (Hout top eq_refl)) as (top' & E' & Hl). congruence.
    + intros Hk. rewrite (Hneg Hk). reflexivity.
    + intros Hk. rewrite (Hwide Hk). reflexivity.
Qed.

End WithWorld.
End TopK.

Lemma getTopKClasses_ignores_width_witness :
  (exists preds,
     TM.decodeAndPredict (Samples.columns 4) Samples.five_labels [] (Some 2) true
       = Ok preds)
  /\ TM.decodeAndPredict (Samples.columns 4) Samples.five_labels [] None true =
     Throw "'k' passed to topk() must be <= the last dimension"
  /\ TM.decodeAndPredict (Samples.columns 4) Samples.five_labels [] (Some (-1)) true =
     Throw "'k' passed to topk() must be >= 0".
Proof.
  split; [|split].
  - apply (proj2 (proj1 (proj2 (getTopKClasses_ignores_width (Samples.columns 4)
                                  Samples.five_labels (Some 2)
                                  [1 # 10; 2 # 10; 3 # 10; 4 # 10]%Q)
                           [] true 1 1 [0; 0; 0] eq_refl eq_refl eq_refl eq_refl))).
    vm_compute. split; discriminate.
  - apply (proj2 (proj2 (proj2 (proj2 (getTopKClasses_ignores_width (Samples.columns 4)
                                  Samples.five_labels None
                                  [1 # 10; 2 # 10; 3 # 10; 4 # 10]%Q)
                           [] true 1 1 [0; 0; 0] eq_refl eq_refl eq_refl eq_refl)))).
    vm_compute. reflexivity.
  - apply (proj1 (proj2 (proj2 (proj2 (getTopKClasses_ignores_width (Samples.columns 4)
                                  Samples.five_labels (Some (-1))
                                  [1 # 10; 2 # 10; 3 # 10; 4 # 10]%Q)
                           [] true 1 1 [0; 0; 0] eq_refl eq_refl eq_refl eq_refl)))).
    vm_compute. reflexivity.
Defined.

(** C6, as stated, fails: with five labels, an engine reporting four
    columns and [topK = 2], and an engine reporting six columns and no
    [topK], both the single-image and the batch path return predictions;
    in the second case the best class has no label. *)
Lemma width_mismatch_returns_predictions :
  TM.classifyImage (Samples.columns 4) Samples.five_labels (MBuffer []) (Some 2) true =
    Ok {| TM.ir_input := MBuffer []; TM.ir_error := None;
          TM.ir_predictions :=
            Some [ {| TM.class := Some "d"%string; TM.score := Some (4 # 10)%Q; TM.rank := 1 |};
                   {| TM.class := Some "c"%string; TM.score := Some (3 # 10)%Q; TM.rank := 2 |} ] |}
  /\ (exists r,
        TM.classifyBatch (Samples.columns 6) Samples.five_labels [MBuffer []] None true None
          = Ok r /\
        option_map (map TM.class) (TM.br_results r !! 0%nat ≫= TM.ir_predictions) =
          Some [None; Some "e"; Some "d"; Some "c"; Some "b"]%string).
Proof.
  split; [vm_compute; reflexivity|].
  eexists. split; [vm_compute; reflexivity|]. reflexivity.
Qed.

(** ** Image batches *)
Section Batch.
Import Samples TM.
Variable w : world.
Variable tm : classifier.

Lemma obind_ok_inv {A B} (o : outcome A) (k : A -> outcome B) b :
  obind o k = Ok b -> exists a, o = Ok a /\ k a = Ok b.
Proof. destruct o as [a|e]; simpl; [eauto|discriminate]. Qed.






















Section Returns.
Variables (targetH targetW : Z) (topK : option Z) (crop : bool).
Hypothesis prepared :
  forall buf, exists t, prepare_tensor w tm buf targetW targetH crop = Ok t.
Hypothesis predicted :
  forall batch, exists logits,
    w_predict w batch = Ok logits /\ length logits = length batch /\
    Forall (fun row => clampK topK (cls tm) <= Z.of_nat (length row)) logits.
Hypothesis k_positive : 1 <= clampK topK (cls tm).



End Returns.


End Batch.





(** ** The bounded worker pool *)
Section PoolIndexed.
Import Samples.
Context {J R : Type}.
Variable exec : J -> outcome R.
Variable jobs : list J.
Variable vals : list R.
Hypothesis completes : Forall2 (fun job v => exec job = Ok v) jobs vals.

Local Abbreviation store_at :=
  (fun (idx : nat) (r : R) (res : list (option R)) => <[idx := Some r]> res).
Local Abbreviation runner :=
  (Pool.runner_loop (Store := list (option R)) (length jobs)).
Local Abbreviation settle := (Pool.settle exec store_at (length jobs)).

Lemma runner_loop_busy (st : @Pool.pstate J (list (option R))) :
  pool_busy (runner st).
Proof.
  unfold pool_busy, Pool.runner_loop.
  destruct (Pool.queue st) as [|job q] eqn:E; simpl.
  - rewrite E. congruence.
  - intros _. destruct (Pool.inflight st); discriminate.
Qed.

Lemma runner_loop_remaining (st : @Pool.pstate J (list (option R))) :
  pool_remaining (runner st) = pool_remaining st.
Proof.
  unfold pool_remaining, Pool.runner_loop.
  destruct (Pool.queue st) as [|job q] eqn:E; simpl.
  - rewrite E. reflexivity.
  - rewrite length_app. simpl. lia.
Qed.

Lemma runner_loop_inv st : pool_inv jobs vals st -> pool_inv jobs vals (runner st).
Proof.
  intros (Hrej & Hlen & k & Hk & Hq & Hfl & Hdone).
  unfold Pool.runner_loop.
  destruct (Pool.queue st) as [|job q] eqn:E.
  - split; [exact Hrej|]. split; [exact Hlen|]. exists k. rewrite E. auto.
  - assert (jobs !! k = Some job) as Hjob.
    { rewrite <- (Nat.add_0_r k), <- lookup_drop, <- Hq. reflexivity. }
    assert (k < length jobs)%nat as Hlt by (eapply lookup_lt_Some; eauto).
    assert (length jobs - length (job :: q) = k)%nat as Hidx.
    { rewrite Hq, length_drop. lia. }
    rewrite Hidx.
    split; [exact Hrej|]. split; [exact Hlen|]. exists (S k). simpl.
    split; [lia|]. split; [|split].
    + erewrite drop_S in Hq by exact Hjob. inversion Hq. reflexivity.
    + intros idx j Hin. apply elem_of_app in Hin. destruct Hin as [Hin|Hin].
      * destruct (Hfl idx j Hin). split; [lia|assumption].
      * apply list_elem_of_singleton in Hin. inversion Hin. subst. split; [lia|exact Hjob].
    + intros i v Hi Hnot Hv. apply Hdone; [|intros j Hin|exact Hv].
      * destruct (decide (i = k)) as [->|Hne]; [|lia].
        exfalso. apply (Hnot job). apply elem_of_app. right.
        apply list_elem_of_singleton. reflexivity.
      * apply (Hnot j). apply elem_of_app. left. exact Hin.
Qed.

Lemma settle_inv choice st :
  pool_inv jobs vals st -> pool_inv jobs vals (settle choice st).
Proof.
  intros Hinv. unfold Pool.settle.
  destruct (Pool.inflight st !! (choice mod length (Pool.inflight st))%nat)
    as [[idx job]|] eqn:E; [|exact Hinv].
  destruct Hinv as (Hrej & Hlen & k & Hk & Hq & Hfl & Hdone).
  destruct (Hfl idx job) as [Hidx Hjob];
    [eapply list_elem_of_lookup_2; exact E|].
  destruct (Forall2_lookup_l _ _ _ _ _ completes Hjob) as (v & Hv & Hexec).
  rewrite Hexec. apply runner_loop_inv.
  unfold pool_inv. cbn [Pool.slots Pool.queue Pool.inflight Pool.rejected].
  split; [exact Hrej|]. split; [rewrite length_insert; exact Hlen|].
  exists k. split; [exact Hk|]. split; [exact Hq|]. split.
  - intros i j Hin. apply Hfl. eapply list_elem_of_delete_inv. exact Hin.
  - intros i v' Hi Hnot Hv'.
    destruct (decide (i = idx)) as [->|Hne].
    + rewrite list_lookup_insert_eq by lia. congruence.
    + rewrite list_lookup_insert_ne by congruence.
      apply Hdone; [exact Hi| |exact Hv'].
      intros j Hin. apply (Hnot j).
      rewrite delete_take_drop.
      rewrite <- (take_drop_middle _ _ _ E) in Hin.
      apply elem_of_app in Hin. apply elem_of_app.
      destruct Hin as [Hin|Hin]; [left; exact Hin|].
      apply elem_of_cons in Hin. destruct Hin as [Heq|Hin]; [|right; exact Hin].
      inversion Heq. congruence.
Qed.

Lemma settle_busy choice st :
  pool_inv jobs vals st -> pool_busy st -> pool_busy (settle choice st).
Proof.
  intros Hinv Hbusy. unfold Pool.settle.
  destruct (Pool.inflight st !! (choice mod length (Pool.inflight st))%nat)
    as [[idx job]|] eqn:E; [|exact Hbusy].
  destruct Hinv as (Hrej & Hlen & k & Hk & Hq & Hfl & Hdone).
  destruct (Hfl idx job) as [Hidx Hjob];
    [eapply list_elem_of_lookup_2; exact E|].
  destruct (Forall2_lookup_l _ _ _ _ _ completes Hjob) as (v & Hv & Hexec).
  rewrite Hexec. apply runner_loop_busy.
Qed.

Lemma settle_remaining choice st :
  pool_inv jobs vals st -> pool_busy st ->
  pool_remaining (settle choice st) = pred (pool_remaining st).
Proof.
  intros Hinv Hbusy. unfold Pool.settle.
  destruct (Pool.inflight st) as [|x fl] eqn:Efl.
  - simpl. unfold pool_remaining. rewrite Efl.
    destruct (Pool.queue st) as [|job q] eqn:Eq; [reflexivity|].
    exfalso. apply Hbusy; [rewrite Eq; discriminate|exact Efl].
  - assert (choice mod length (x :: fl) < length (x :: fl))%nat as Hlt
      by (apply Nat.mod_upper_bound; discriminate).
    destruct (lookup_lt_is_Some_2 _ _ Hlt) as ([idx job] & E).
    rewrite E.
    destruct Hinv as (Hrej & Hlen & k & Hk & Hq & Hfl & Hdone).
    destruct (Hfl idx job) as [Hidx Hjob];
      [rewrite Efl; eapply list_elem_of_lookup_2; exact E|].
    destruct (Forall2_lookup_l _ _ _ _ _ completes Hjob) as (v & Hv & Hexec).
    rewrite Hexec, runner_loop_remaining.
    unfold pool_remaining. simpl Pool.queue. simpl Pool.inflight.
    rewrite length_delete by (eexists; exact E). rewrite Efl. simpl. lia.
Qed.

Lemma settle_all_finishes sched :
  forall fuel t st,
    pool_inv jobs vals st -> pool_busy st ->
    (pool_remaining st <= fuel)%nat ->
    let st' := Pool.settle_all exec store_at (length jobs) fuel sched t st in
    pool_inv jobs vals st' /\ pool_remaining st' = 0%nat.
Proof.
  induction fuel as [|fuel IH]; intros t st Hinv Hbusy Hrem; simpl.
  - split; [exact Hinv|lia].
  - apply IH.
    + apply settle_inv, Hinv.
    + apply settle_busy; assumption.
    + rewrite settle_remaining by assumption. lia.
Qed.

Lemma iter_runner_inv n st :
  pool_inv jobs vals st -> pool_inv jobs vals (Nat.iter n runner st).
Proof.
  intros Hinv. induction n as [|n IH]; simpl; [exact Hinv|].
  apply runner_loop_inv, IH.
Qed.

Lemma iter_runner_remaining n (st : @Pool.pstate J (list (option R))) :
  pool_remaining (Nat.iter n runner st) = pool_remaining st.
Proof.
  induction n as [|n IH]; simpl; [reflexivity|].
  rewrite runner_loop_remaining. exact IH.
Qed.

Lemma width_positive njobs conc : exists n, Pool.width njobs conc = S n.
Proof.
  unfold Pool.width.
  destruct (Z.to_nat (Z.max 1 (Z.min conc (Z.of_nat njobs)))) eqn:E; [lia|eauto].
Qed.

(** The number of runners lies in [[1, jobs.length]] when there are jobs;
    with no job there is still one runner. *)
Lemma width_clamped njobs conc :
  (njobs <> 0%nat -> (1 <= Pool.width njobs conc <= njobs)%nat) /\
  (njobs = 0%nat -> Pool.width njobs conc = 1%nat).
Proof. unfold Pool.width. split; intros H; lia. Qed.

(** The pools that store by index are aligned to the submission order
    under every schedule: when every job completes, slot [i] of the result
    holds the value of job [i]. *)
Lemma run_indexed_aligned conc sched :
  Pool.run_indexed exec jobs conc sched = Ok (map Some vals).
Proof.
  unfold Pool.run_indexed, Pool.start.
  destruct (width_positive (length jobs) conc) as (n & ->).
  set (st0 := {| Pool.queue := jobs; Pool.inflight := [];
                 Pool.slots := replicate (length jobs) None;
                 Pool.rejected := None |}).
  assert (pool_inv jobs vals st0) as Hinv0.
  { split; [reflexivity|]. split; [apply length_replicate|].
    exists 0%nat. simpl. split; [lia|]. split; [reflexivity|]. split.
    - intros idx job Hin. inversion Hin.
    - intros i v Hi. lia. }
  destruct (settle_all_finishes sched (length jobs) 0 (Nat.iter (S n) runner st0))
    as [Hinv Hrem].
  - apply iter_runner_inv, Hinv0.
  - simpl. apply runner_loop_busy.
  - rewrite iter_runner_remaining. unfold pool_remaining. simpl. lia.
  - cbv zeta in Hinv, Hrem.
    destruct Hinv as (Hrej & Hlen & k & Hk & Hq & Hfl & Hdone).
    unfold Pool.finish. rewrite Hrej. f_equal.
    unfold pool_remaining in Hrem.
    assert (Pool.inflight
              (Pool.settle_all exec store_at (length jobs) (length jobs) sched 0
                 (Nat.iter (S n) runner st0)) = []) as Hfl0
      by (apply length_zero_iff_nil; lia).
    assert (k = length jobs) as ->.
    { assert (length (drop k jobs) = 0%nat) as Hd by (rewrite <- Hq; lia).
      rewrite length_drop in Hd. lia. }
    pose proof (Forall2_length _ _ _ completes) as Hvl.
    apply list_eq. intros i.
    destruct (vals !! i) as [v|] eqn:Ev.
    + rewrite list_lookup_fmap_Some_2 with (x := v) by exact Ev.
      apply Hdone; [|intros job Hin; rewrite Hfl0 in Hin; inversion Hin|exact Ev].
      apply lookup_lt_Some in Ev. lia.
    + apply lookup_ge_None in Ev.
      rewrite (proj2 (lookup_ge_None _ _)) by (rewrite Hlen; lia).
      symmetry. apply lookup_ge_None. rewrite length_map. lia.
Qed.

End PoolIndexed.

(** C5, at the failing input: a batch of two videos with the default
    [maxConcurrent = 2] in which the second request settles first returns
    the result of the second video at index 0 and that of the first at
    index 1; the pool of the video batch pushes results as jobs settle. *)
Lemma video_batch_completion_order :
  exists rs,
    TM.classifyVideoMany Samples.second_settles_first (Samples.two_labels Ram)
      [MString "a.mp4"; MString "b.mp4"] Samples.default_opts Samples.fresh = Ok rs /\
    map TM.vr_input rs = [MString "b.mp4"; MString "a.mp4"].
Proof. eexists. split; [vm_compute; reflexivity|]. reflexivity. Qed.

(** The pools of frame extraction and of turbo preprocessing, by contrast,
    give the same array under every schedule. *)
Lemma extraction_pool_schedule_independent (exec : Q -> outcome (option Env.bytes))
    (stamps : list Q) (frames : list (option Env.bytes)) conc sched1 sched2 :
  Forall2 (fun t f => exec t = Ok f) stamps frames ->
  Pool.run_indexed exec stamps conc sched1 = Pool.run_indexed exec stamps conc sched2.
Proof.
  intros H. rewrite !(run_indexed_aligned exec stamps frames H). reflexivity.
Qed.

(** ** The pool under any storing discipline *)
Section PoolAny.
Import Samples Notions.
Context {J R Store : Type}.
Variable exec : J -> outcome R.
Variable store : nat -> R -> Store -> Store.
Variable jobs : list J.

Lemma runner_busy_any (st : @Pool.pstate J Store) :
  pool_busy (Pool.runner_loop (length jobs) st).
Proof.
  unfold pool_busy, Pool.runner_loop.
  destruct (Pool.queue st) as [|job q] eqn:E; simpl.
  - rewrite E. congruence.
  - intros _. destruct (Pool.inflight st); discriminate.
Qed.

Lemma runner_remaining_any (st : @Pool.pstate J Store) :
  pool_remaining (Pool.runner_loop (length jobs) st) = pool_remaining st.
Proof.
  unfold pool_remaining, Pool.runner_loop.
  destruct (Pool.queue st) as [|job q] eqn:E; simpl.
  - rewrite E. reflexivity.
  - rewrite length_app. simpl. lia.
Qed.

Lemma runner_rejected_any (st : @Pool.pstate J Store) :
  Pool.rejected (Pool.runner_loop (length jobs) st) = Pool.rejected st.
Proof. unfold Pool.runner_loop. destruct (Pool.queue st); reflexivity. Qed.

Lemma iter_runner_remaining_any n (st : @Pool.pstate J Store) :
  pool_remaining (Nat.iter n (Pool.runner_loop (length jobs)) st) = pool_remaining st.
Proof.
  induction n as [|n IH]; simpl; [reflexivity|].
  rewrite runner_remaining_any. exact IH.
Qed.

Lemma iter_runner_rejected_any n (st : @Pool.pstate J Store) :
  Pool.rejected (Nat.iter n (Pool.runner_loop (length jobs)) st) = Pool.rejected st.
Proof.
  induction n as [|n IH]; simpl; [reflexivity|].
  rewrite runner_rejected_any. exact IH.
Qed.

(** What taking the next job does to the queue. *)
Lemma queue_head (taken : nat) job (q : list J) :
  job :: q = drop taken jobs ->
  jobs !! taken = Some job /\ q = drop (S taken) jobs /\
  (taken < length jobs)%nat /\
  (length jobs - length (job :: q))%nat = taken.
Proof.
  intros Hq.
  assert (jobs !! taken = Some job) as Hjob.
  { rewrite <- (Nat.add_0_r taken), <- lookup_drop, <- Hq. reflexivity. }
  assert (taken < length jobs)%nat as Hlt by (eapply lookup_lt_Some; eauto).
  split; [exact Hjob|]. split; [|split; [exact Hlt|]].
  - erewrite drop_S in Hq by exact Hjob. inversion Hq. reflexivity.
  - rewrite Hq, length_drop. lia.
Qed.

(** The jobs in flight before and after one of them settles. *)
Lemma inflight_split (fl : list (nat * J)) p x :
  fl !! p = Some x ->
  fl = take p fl ++ x :: drop (S p) fl /\
  delete p fl = take p fl ++ drop (S p) fl.
Proof.
  intros E. split; [symmetry; apply take_drop_middle; exact E|].
  apply delete_take_drop.
Qed.

Lemma runner_sound_any (st : @Pool.pstate J Store) :
  (Pool.rejected st = None ->
   exists taken : nat,
     (taken <= length jobs)%nat /\
     Pool.queue st = drop taken jobs /\
     (forall idx job, (idx, job) ∈ Pool.inflight st ->
        (idx < taken)%nat /\ jobs !! idx = Some job) /\
     (forall i job, (i < taken)%nat -> jobs !! i = Some job ->
        (forall j, (i, j) ∉ Pool.inflight st) -> is_ok (exec job) = true)) ->
  pool_sound exec jobs (Pool.runner_loop (length jobs) st).
Proof.
  intros Hst Hrej. rewrite runner_rejected_any in Hrej.
  split; [apply runner_busy_any|].
  destruct (Hst Hrej) as (k & Hk & Hq & Hfl & Hdone).
  unfold Pool.runner_loop.
  destruct (Pool.queue st) as [|job q] eqn:E.
  - exists k. rewrite E. auto.
  - destruct (queue_head k job q Hq) as (Hjob & Hq' & Hlt & Hidx).
    rewrite Hidx. exists (S k). simpl.
    split; [lia|]. split; [exact Hq'|]. split.
    + intros idx j Hin. apply elem_of_app in Hin. destruct Hin as [Hin|Hin].
      * destruct (Hfl idx j Hin). split; [lia|assumption].
      * apply list_elem_of_singleton in Hin. inversion Hin. subst.
        split; [lia|exact Hjob].
    + intros i j Hi Hj Hnot.
      destruct (decide (i = k)) as [->|Hne].
      * exfalso. apply (Hnot job). apply elem_of_app. right.
        apply list_elem_of_singleton. reflexivity.
      * apply (Hdone i j); [lia|exact Hj|].
        intros j' Hin. apply (Hnot j'). apply elem_of_app. left. exact Hin.
Qed.

Lemma settle_sound_any choice (st : @Pool.pstate J Store) :
  pool_sound exec jobs st ->
  pool_sound exec jobs (Pool.settle exec store (length jobs) choice st).
Proof.
  intros Hst. unfold Pool.settle.
  destruct (Pool.inflight st !! (choice mod length (Pool.inflight st))%nat)
    as [[idx job]|] eqn:E; [|exact Hst].
  destruct (exec job) as [r|e] eqn:Ex.
  - apply runner_sound_any. cbn [Pool.rejected Pool.queue Pool.inflight].
    intros Hrej. destruct (Hst Hrej) as (_ & k & Hk & Hq & Hfl & Hdone).
    exists k. split; [exact Hk|]. split; [exact Hq|]. split.
    + intros i j Hin. apply Hfl. eapply list_elem_of_delete_inv. exact Hin.
    + intros i j Hi Hj Hnot.
      destruct (decide (i = idx)) as [->|Hne].
      * destruct (Hfl idx job) as [_ Hjob];
          [eapply list_elem_of_lookup_2; exact E|].
        rewrite Hjob in Hj. inversion Hj. subst. rewrite Ex. reflexivity.
      * apply (Hdone i j Hi Hj). intros j' Hin. apply (Hnot j').
        destruct (inflight_split _ _ _ E) as [Hfull Hdel].
        rewrite Hdel. rewrite Hfull in Hin.
        apply elem_of_app in Hin. apply elem_of_app.
        destruct Hin as [Hin|Hin]; [left; exact Hin|].
        apply elem_of_cons in Hin. destruct Hin as [Heq|Hin]; [|right; exact Hin].
        inversion Heq. congruence.
  - intros Hrej. simpl in Hrej. destruct (Pool.rejected st); discriminate.
Qed.

Lemma settle_rejected_stays choice (st : @Pool.pstate J Store) e :
  Pool.rejected st = Some e ->
  Pool.rejected (Pool.settle exec store (length jobs) choice st) = Some e.
Proof.
  intros Hrej. unfold Pool.settle.
  destruct (Pool.inflight st !! (choice mod length (Pool.inflight st))%nat)
    as [[idx job]|]; [|exact Hrej].
  destruct (exec job).
  - rewrite runner_rejected_any. exact Hrej.
  - simpl. rewrite Hrej. reflexivity.
Qed.

Lemma settle_remaining_any choice (st : @Pool.pstate J Store) :
  pool_busy st ->
  Pool.rejected (Pool.settle exec store (length jobs) choice st) = None ->
  pool_remaining (Pool.settle exec store (length jobs) choice st)
    = pred (pool_remaining st).
Proof.
  intros Hbusy. unfold Pool.settle.
  destruct (Pool.inflight st) as [|x fl] eqn:Efl.
  - simpl. intros _. unfold pool_remaining. rewrite Efl.
    destruct (Pool.queue st) as [|job q] eqn:Eq; [reflexivity|].
    exfalso. apply Hbusy; [rewrite Eq; discriminate|exact Efl].
  - assert (choice mod length (x :: fl) < length (x :: fl))%nat as Hlt
      by (apply Nat.mod_upper_bound; discriminate).
    destruct (lookup_lt_is_Some_2 _ _ Hlt) as ([idx job] & E).
    rewrite E. destruct (exec job) as [r|e].
    + intros _. rewrite runner_remaining_any.
      unfold pool_remaining. cbn [Pool.queue Pool.inflight].
      rewrite length_delete by (eexists; exact E). rewrite ?Efl. simpl. lia.
    + simpl. destruct (Pool.rejected st); discriminate.
Qed.

(** When the jobs run out with no rejection, every job has completed. *)
Lemma settle_all_sound sched :
  forall fuel t (st : @Pool.pstate J Store),
    pool_sound exec jobs st ->
    (Pool.rejected st = None -> (pool_remaining st <= fuel)%nat) ->
    Pool.rejected (Pool.settle_all exec store (length jobs) fuel sched t st) = None ->
    Forall (fun job => is_ok (exec job) = true) jobs.
Proof.
  induction fuel as [|fuel IH]; intros t st Hst Hrem Hend; simpl in Hend.
  - destruct (Hst Hend) as (_ & k & Hk & Hq & Hfl & Hdone).
    specialize (Hrem Hend). unfold pool_remaining in Hrem.
    assert (Pool.inflight st = []) as Hfl0 by (apply length_zero_iff_nil; lia).
    assert (k = length jobs) as ->.
    { assert (length (drop k jobs) = 0%nat) as Hd by (rewrite <- Hq; lia).
      rewrite length_drop in Hd. lia. }
    apply Forall_forall. intros job Hin.
    apply list_elem_of_lookup in Hin. destruct Hin as (i & Hi).
    apply (Hdone i job); [eapply lookup_lt_Some; eauto|exact Hi|].
    intros j Hj. rewrite Hfl0 in Hj. inversion Hj.
  - apply (IH (S t) (Pool.settle exec store (length jobs) (sched t) st)).
    + apply settle_sound_any, Hst.
    + intros Hrej.
      assert (Pool.rejected st = None) as Hrej0.
      { destruct (Pool.rejected st) as [e|] eqn:E; [|reflexivity].
        rewrite (settle_rejected_stays _ _ e E) in Hrej. discriminate. }
      rewrite settle_remaining_any; [|apply (Hst Hrej0)|exact Hrej].
      specialize (Hrem Hrej0). lia.
    + exact Hend.
Qed.

(** A pool call that returns has seen every job complete, whatever the
    schedule, the concurrency and the way results are stored. *)
Lemma pool_ok_all_completed conc sched (init : Store) :
  Pool.rejected
    (Pool.settle_all exec store (length jobs) (length jobs) sched 0
       (Pool.start (length jobs) jobs conc init)) = None ->
  Forall (fun job => is_ok (exec job) = true) jobs.
Proof.
  unfold Pool.start.
  destruct (width_positive (length jobs) conc) as (n & ->).
  apply settle_all_sound.
  - simpl. apply runner_sound_any. rewrite iter_runner_rejected_any. simpl.
    intros _.
    assert (forall m, exists taken : nat,
      (taken <= length jobs)%nat /\
      Pool.queue (Nat.iter m (Pool.runner_loop (length jobs))
                    {| Pool.queue := jobs; Pool.inflight := [];
                       Pool.slots := init; Pool.rejected := None |})
        = drop taken jobs /\
      (forall idx job,
         (idx, job) ∈ Pool.inflight
           (Nat.iter m (Pool.runner_loop (length jobs))
              {| Pool.queue := jobs; Pool.inflight := [];
                 Pool.slots := init; Pool.rejected := None |}) ->
         (idx < taken)%nat /\ jobs !! idx = Some job) /\
      (forall i job, (i < taken)%nat -> jobs !! i = Some job ->
         (forall j, (i, j) ∉ Pool.inflight
            (Nat.iter m (Pool.runner_loop (length jobs))
               {| Pool.queue := jobs; Pool.inflight := [];
                  Pool.slots := init; Pool.rejected := None |})) ->
         is_ok (exec job) = true)) as Hiter.
    { induction m as [|m IH].
      - exists 0%nat. simpl. split; [lia|]. split; [reflexivity|]. split.
        + intros idx job Hin. inversion Hin.
        + intros i job Hi. lia.
      - simpl.
        destruct (runner_sound_any _ (fun _ => IH)) as (_ & Hk).
        + rewrite runner_rejected_any, iter_runner_rejected_any. reflexivity.
        + exact Hk. }
    apply Hiter.
  - intros _. rewrite iter_runner_remaining_any. unfold pool_remaining. simpl. lia.
Qed.

End PoolAny.

Section PoolPushing.
Import Samples Notions.
Context {J R : Type}.
Variable exec : J -> outcome R.
Variable jobs : list J.
Variable vals : list R.
Hypothesis completes : Forall2 (fun job v => exec job = Ok v) jobs vals.

Local Abbreviation push :=
  (fun (_ : nat) (r : R) (out : list R) => out ++ [r]).

Lemma inflight_values_app (a b : list (nat * J)) :
  inflight_values vals (a ++ b) = inflight_values vals a ++ inflight_values vals b.
Proof. unfold inflight_values. apply omap_app. Qed.

Lemma runner_push_inv st :
  push_inv jobs vals st -> push_inv jobs vals (Pool.runner_loop (length jobs) st).
Proof.
  intros (Hrej & k & Hk & Hq & Hfl & Hperm).
  unfold Pool.runner_loop.
  destruct (Pool.queue st) as [|job q] eqn:E.
  - split; [exact Hrej|]. exists k. rewrite E. auto.
  - destruct (queue_head jobs k job q Hq) as (Hjob & Hq' & Hlt & Hidx).
    rewrite Hidx. split; [exact Hrej|]. exists (S k). simpl.
    split; [lia|]. split; [exact Hq'|]. split.
    + intros idx j Hin. apply elem_of_app in Hin. destruct Hin as [Hin|Hin].
      * destruct (Hfl idx j Hin). split; [lia|assumption].
      * apply list_elem_of_singleton in Hin. inversion Hin. subst.
        split; [lia|exact Hjob].
    + destruct (Forall2_lookup_l _ _ _ _ _ completes Hjob) as (v & Hv & _).
      rewrite inflight_values_app. unfold inflight_values at 2. simpl.
      rewrite Hv. simpl.
      rewrite (take_S_r _ _ _ Hv), app_assoc.
      apply Permutation_app; [exact Hperm|reflexivity].
Qed.

Lemma settle_push_inv choice st :
  push_inv jobs vals st ->
  push_inv jobs vals (Pool.settle exec push (length jobs) choice st).
Proof.
  intros Hinv. unfold Pool.settle.
  destruct (Pool.inflight st !! (choice mod length (Pool.inflight st))%nat)
    as [[idx job]|] eqn:E; [|exact Hinv].
  destruct Hinv as (Hrej & k & Hk & Hq & Hfl & Hperm).
  destruct (Hfl idx job) as [Hidx Hjob];
    [eapply list_elem_of_lookup_2; exact E|].
  destruct (Forall2_lookup_l _ _ _ _ _ completes Hjob) as (v & Hv & Hexec).
  rewrite Hexec. apply runner_push_inv.
  unfold push_inv. cbn [Pool.slots Pool.queue Pool.inflight Pool.rejected].
  split; [exact Hrej|]. exists k. split; [exact Hk|]. split; [exact Hq|]. split.
  - intros i j Hin. apply Hfl. eapply list_elem_of_delete_inv. exact Hin.
  - destruct (inflight_split _ _ _ E) as [Hfull Hdel].
    rewrite Hdel.
    remember (take (choice mod length (Pool.inflight st)) (Pool.inflight st)) as l1.
    remember (drop (S (choice mod length (Pool.inflight st))) (Pool.inflight st)) as l2.
    rewrite Hfull in Hperm. clear Hfull Hdel Heql1 Heql2.
    rewrite inflight_values_app in *.
    assert (inflight_values vals ((idx, job) :: l2) = v :: inflight_values vals l2)
      as Hcons by (unfold inflight_values; simpl; rewrite Hv; reflexivity).
    rewrite Hcons in Hperm.
    rewrite <- Hperm, <- !app_assoc.
    apply Permutation_app; [reflexivity|].
    simpl. rewrite <- Permutation_middle. reflexivity.
Qed.

Lemma push_inv_sound st : push_inv jobs vals st -> pool_busy st ->
  pool_sound exec jobs st.
Proof.
  intros (Hrej & k & Hk & Hq & Hfl & _) Hbusy _.
  split; [exact Hbusy|]. exists k. split; [exact Hk|]. split; [exact Hq|].
  split; [exact Hfl|].
  intros i job _ Hjob _.
  destruct (Forall2_lookup_l _ _ _ _ _ completes Hjob) as (v & _ & Hexec).
  rewrite Hexec. reflexivity.
Qed.

Lemma settle_all_push sched :
  forall fuel t st,
    push_inv jobs vals st -> pool_busy st ->
    (pool_remaining st <= fuel)%nat ->
    let st' := Pool.settle_all exec push (length jobs) fuel sched t st in
    push_inv jobs vals st' /\ pool_remaining st' = 0%nat.
Proof.
  induction fuel as [|fuel IH]; intros t st Hinv Hbusy Hrem; simpl.
  - split; [exact Hinv|lia].
  - pose proof (settle_push_inv (sched t) st Hinv) as Hinv'.
    pose proof (settle_sound_any exec push jobs (sched t) st
                  (push_inv_sound st Hinv Hbusy)) as Hsound.
    apply IH.
    + exact Hinv'.
    + apply Hsound. apply Hinv'.
    + rewrite settle_remaining_any; [lia|exact Hbusy|apply Hinv'].
Qed.

(** When every job completes, the pushing pool returns the values of all
    the jobs, each once, in the order in which the jobs settle. *)
Lemma run_pushing_permutation conc sched :
  exists out, Pool.run_pushing exec jobs conc sched = Ok out /\ out ≡ₚ vals.
Proof.
  unfold Pool.run_pushing, Pool.start.
  destruct (width_positive (length jobs) conc) as (n & ->).
  set (st0 := {| Pool.queue := jobs; Pool.inflight := [];
                 Pool.slots := @nil R; Pool.rejected := None |}).
  assert (push_inv jobs vals st0) as Hinv0.
  { split; [reflexivity|]. exists 0%nat. simpl.
    split; [lia|]. split; [reflexivity|]. split.
    - intros idx job Hin. inversion Hin.
    - rewrite take_0. reflexivity. }
  assert (forall m, push_inv jobs vals (Nat.iter m (Pool.runner_loop (length jobs)) st0))
    as Hiter.
  { induction m as [|m IH]; simpl; [exact Hinv0|]. apply runner_push_inv, IH. }
  destruct (settle_all_push sched (length jobs) 0
              (Nat.iter (S n) (Pool.runner_loop (length jobs)) st0))
    as [Hinv Hrem].
  - apply Hiter.
  - simpl. apply runner_busy_any.
  - rewrite iter_runner_remaining_any. unfold pool_remaining. simpl. lia.
  - cbv zeta in Hinv, Hrem.
    destruct Hinv as (Hrej & k & Hk & Hq & Hfl & Hperm).
    unfold Pool.finish. rewrite Hrej. eexists. split; [reflexivity|].
    unfold pool_remaining in Hrem.
    assert (Pool.inflight
              (Pool.settle_all exec push (length jobs) (length jobs) sched 0
                 (Nat.iter (S n) (Pool.runner_loop (length jobs)) st0)) = []) as Hfl0
      by (apply length_zero_iff_nil; lia).
    assert (k = length jobs) as ->.
    { assert (length (drop k jobs) = 0%nat) as Hd by (rewrite <- Hq; lia).
      rewrite length_drop in Hd. lia. }
    rewrite Hfl0 in Hperm. simpl in Hperm. rewrite app_nil_r in Hperm.
    rewrite Hperm. rewrite take_ge; [reflexivity|].
    rewrite (Forall2_length _ _ _ completes). lia.
Qed.

End PoolPushing.

(** ** Video batches and frame extraction through the pools *)
Section PoolUses.
Import Samples Notions TM.
Variable w : world.
Variable tm : classifier.

(** X1.  When every request of a video batch succeeds, the batch returns
    exactly the results of its requests, each once, whatever the schedule
    and [maxConcurrent] are; only their order depends on the schedule. *)
Theorem video_batch_permutation videoUrls o s (results : list video_result) :
  Forall2 (fun u r => fst (classifyVideo1 w tm u o s) = Ok r) videoUrls results ->
  exists rs, classifyVideoMany w tm videoUrls o s = Ok rs /\
             rs ≡ₚ results /\ length rs = length videoUrls.
Proof.
  intros Hall. unfold classifyVideoMany.
  destruct (run_pushing_permutation (fun u => fst (classifyVideo1 w tm u o s))
              videoUrls results Hall (default 2 (o_maxConcurrent o)) (w_sched w))
    as (out & E & Hperm).
  exists out. split; [exact E|]. split; [exact Hperm|].
  rewrite Hperm. symmetry. eapply Forall2_length. exact Hall.
Qed.

(** X2.  A video batch has no per-item failure isolation: when the request
    of any one input fails, the whole batch call rejects. *)
Theorem video_batch_rejects_on_failure videoUrls o s u e :
  u ∈ videoUrls ->
  fst (classifyVideo1 w tm u o s) = Throw e ->
  exists e', classifyVideoMany w tm videoUrls o s = Throw e'.
Proof.
  intros Hin Hfail. unfold classifyVideoMany, Pool.run_pushing, Pool.finish.
  destruct (Pool.rejected _) as [e'|] eqn:E; [eauto|].
  exfalso.
  pose proof (pool_ok_all_completed _ _ _ _ _ _ E) as Hall.
  rewrite Forall_forall in Hall. specialize (Hall u Hin).
  rewrite Hfail in Hall. discriminate.
Qed.

Lemma frame_job_frame_of inputPath t :
  Ffmpeg.frame_job w inputPath t = Ok (frame_of w inputPath t).
Proof.
  unfold Ffmpeg.frame_job, frame_of.
  destruct (w_grab w inputPath (Qmax 0 t)); reflexivity.
Qed.

Lemma omap_id_map {A B} (f : A -> option B) (l : list A) :
  omap id (map f l) = omap f l.
Proof.
  induction l as [|x l IH]; [reflexivity|].
  cbn. rewrite IH. destruct (f x); reflexivity.
Qed.

Lemma filter_Boolean_filled {A} (l : list (option A)) :
  Ffmpeg.filter_Boolean (map Some l) = omap id l.
Proof.
  unfold Ffmpeg.filter_Boolean.
  induction l as [|[a|] l IH]; [reflexivity| |].
  - change (a :: omap (fun r : option (option A) =>
                         match r with Some (Some b) => Some b | _ => None end)
                   (map Some l) = a :: omap id l).
    f_equal. exact IH.
  - exact IH.
Qed.

(** X3.  [extractFrames] returns the frames of its timestamps in timestamp
    order, without the timestamps for which both seeks failed, whatever the
    concurrency and the schedule are; it works in a temp directory of its
    own, which it removes before returning. *)
Theorem extractFrames_in_order inputPath stamps conc s :
  w_mkdtemp w (created (fs s)) = true ->
  next_dir "tmframes-" s ∉ locked (fs s) ->
  exists s',
    Ffmpeg.extractFrames w inputPath stamps conc s =
      (Ok (omap (frame_of w inputPath) stamps), s') /\
    dirs (fs s') = dirs (fs s) ∖ {[next_dir "tmframes-" s]} /\
    vars s' = vars s /\ trace s' = trace s.
Proof.
  intros Hmk Hlock. unfold Ffmpeg.extractFrames.
  unfold bind at 1. unfold Ffmpeg.fs_mkdtemp at 1. rewrite Hmk.
  rewrite (run_indexed_aligned (Ffmpeg.frame_job w inputPath) stamps
             (map (frame_of w inputPath) stamps)).
  2:{ apply Forall2_fmap_r, Forall_Forall2_diag, Forall_forall.
      intros t _. apply frame_job_frame_of. }
  unfold bind at 1. unfold lift at 1.
  unfold bind at 1. unfold Ffmpeg.fs_rm_force.
  fold (next_dir "tmframes-" s).
  destruct (decide _) as [[_ Hl]|_]; [simpl in Hl; contradiction|].
  eexists. split.
  - unfold ret. f_equal. f_equal. rewrite filter_Boolean_filled.
    apply omap_id_map.
  - simpl. split; [set_solver|]. split; reflexivity.
Qed.

End PoolUses.

Lemma video_batch_permutation_witness :
  exists rs,
    TM.classifyVideoMany Samples.second_settles_first (Samples.two_labels Ram)
      [MString "a.mp4"; MString "b.mp4"] Samples.default_opts Samples.fresh = Ok rs /\
    length rs = 2%nat.
Proof.
  destruct (fst (TM.classifyVideo1 Samples.second_settles_first
                   (Samples.two_labels Ram) (MString "a.mp4")
                   Samples.default_opts Samples.fresh)) as [ra|ea] eqn:Ea;
    [|vm_compute in Ea; discriminate].
  destruct (fst (TM.classifyVideo1 Samples.second_settles_first
                   (Samples.two_labels Ram) (MString "b.mp4")
                   Samples.default_opts Samples.fresh)) as [rb|eb] eqn:Eb;
    [|vm_compute in Eb; discriminate].
  destruct (video_batch_permutation Samples.second_settles_first
              (Samples.two_labels Ram) [MString "a.mp4"; MString "b.mp4"]
              Samples.default_opts Samples.fresh [ra; rb])
    as (rs & E & _ & Hlen).
  - repeat constructor; assumption.
  - exists rs. split; [exact E | exact Hlen].
Defined.

Lemma video_batch_rejects_on_failure_witness :
  exists e',
    TM.classifyVideoMany Samples.playable (Samples.two_labels Ram)
      [MString "a.mp4"; MString ""] Samples.default_opts Samples.fresh = Throw e'.
Proof.
  apply (video_batch_rejects_on_failure Samples.playable (Samples.two_labels Ram)
           [MString "a.mp4"; MString ""] Samples.default_opts Samples.fresh
           (MString "") "videoUrl is required").
  - apply elem_of_cons. right. apply elem_of_cons. left. reflexivity.
  - reflexivity.
Defined.

Lemma extractFrames_in_order_witness :
  exists s',
    Ffmpeg.extractFrames Samples.playable "clip.mp4" [1 # 2; 3 # 2]%Q 4 Samples.fresh =
      (Ok [[Byte.x01]; [Byte.x01]], s') /\
    dirs (fs s') = dirs (fs Samples.fresh) ∖ {["/tmp/tmframes-0"%string]}.
Proof.
  destruct (extractFrames_in_order Samples.playable "clip.mp4" [1 # 2; 3 # 2]%Q 4
              Samples.fresh eq_refl) as (s' & E & Hd & _).
  - vm_compute. set_solver.
  - exists s'. split; [exact E | exact Hd].
Defined.

(** ** Timestamps *)
Section Timestamps.
Import Ffmpeg.

(** One clamped timestamp. *)
Lemma clamp_bounds (maxT t : Q) :
  (0 <= maxT)%Q -> (0 <= Qmin (Qmax 0 t) maxT <= maxT)%Q.
Proof.
  intros Hm. split.
  - apply Q.min_glb; [apply Q.le_max_l | exact Hm].
  - apply Q.le_min_r.
Qed.

Lemma clamp_fixed (maxT t : Q) :
  (0 <= t)%Q -> (t <= maxT)%Q -> (Qmin (Qmax 0 t) maxT == t)%Q.
Proof.
  intros H0 H1. rewrite (Q.max_r 0 t H0). apply Q.min_l. exact H1.
Qed.

Lemma clamp_monotone (maxT t1 t2 : Q) :
  (t1 <= t2)%Q -> (Qmin (Qmax 0 t1) maxT <= Qmin (Qmax 0 t2) maxT)%Q.
Proof.
  intros H. apply Q.min_le_compat_r. apply Q.max_le_compat_l. exact H.
Qed.

(** X4.  [safeTimestamps] keeps the number and the order of the
    timestamps and moves each into [[0, maxT]] with
    [maxT = max(0, durationSec - max(0, marginSec))], the margin being 0.05
    when omitted: every result lies in that range, a timestamp already in
    it is unchanged, and a pair in non-decreasing order stays so. *)
Theorem safeTimestamps_clamps (durationSec : Q) (timestamps : list Q)
    (marginSec : option Q) :
  let maxT := Qmax 0 (durationSec - Qmax 0 (default (5 # 100)%Q marginSec)) in
  length (safeTimestamps durationSec timestamps marginSec) = length timestamps /\
  Forall (fun t' => (0 <= t' <= maxT)%Q)
    (safeTimestamps durationSec timestamps marginSec) /\
  Forall2 (fun t t' => ((0 <= t)%Q -> (t <= maxT)%Q -> (t' == t)%Q))
    timestamps (safeTimestamps durationSec timestamps marginSec) /\
  (forall i j t1 t2 t1' t2',
     timestamps !! i = Some t1 -> timestamps !! j = Some t2 ->
     safeTimestamps durationSec timestamps marginSec !! i = Some t1' ->
     safeTimestamps durationSec timestamps marginSec !! j = Some t2' ->
     (t1 <= t2)%Q -> (t1' <= t2')%Q).
Proof.
  intros maxT. unfold safeTimestamps. fold maxT.
  assert (0 <= maxT)%Q as Hm by apply Q.le_max_l.
  split; [apply length_map|]. split; [|split].
  - apply Forall_forall. intros t' Hin.
    apply list_elem_of_In, in_map_iff in Hin. destruct Hin as (t & <- & _).
    apply clamp_bounds, Hm.
  - induction timestamps as [|t ts IH]; constructor; [|exact IH].
    intros H0 H1. apply clamp_fixed; assumption.
  - intros i j t1 t2 t1' t2' Hi Hj Hi' Hj' Hle.
    change (map (fun t => Qmin (Qmax 0 t) maxT) timestamps)
      with ((fun t => Qmin (Qmax 0 t) maxT) <$> timestamps) in Hi', Hj'.
    rewrite list_lookup_fmap, Hi in Hi'. rewrite list_lookup_fmap, Hj in Hj'.
    inversion Hi'. inversion Hj'. apply clamp_monotone, Hle.
Qed.

Lemma midpoint_inside (k n : Z) (d : Q) :
  0 <= k -> k < n -> (0 < d)%Q ->
  (0 < ((inject_Z k + (1 # 2)) / inject_Z n) * d)%Q /\
  (((inject_Z k + (1 # 2)) / inject_Z n) * d < d)%Q.
Proof.
  intros Hk Hn Hd.
  assert (0 <= inject_Z k)%Q as Hk'
    by (change 0%Q with (inject_Z 0); rewrite <- Zle_Qle; exact Hk).
  assert (inject_Z k + 1 <= inject_Z n)%Q as Hn'.
  { change 1%Q with (inject_Z 1). rewrite <- inject_Z_plus, <- Zle_Qle. lia. }
  assert (0 < inject_Z n)%Q as Hnpos by lra.
  assert (0 < (inject_Z k + (1 # 2)) / inject_Z n)%Q as H1.
  { apply Qlt_shift_div_l; [exact Hnpos|]. lra. }
  assert ((inject_Z k + (1 # 2)) / inject_Z n < 1)%Q as H2.
  { apply Qlt_shift_div_r; [exact Hnpos|]. lra. }
  split.
  - apply Qmult_lt_0_compat; assumption.
  - rewrite <- (Qmult_1_l d) at 2. apply Qmult_lt_compat_r; assumption.
Qed.

Lemma midpoint_increasing (i j n : Z) (d : Q) :
  i < j -> 0 < n -> (0 < d)%Q ->
  (((inject_Z i + (1 # 2)) / inject_Z n) * d <
   ((inject_Z j + (1 # 2)) / inject_Z n) * d)%Q.
Proof.
  intros Hij Hn Hd.
  assert (inject_Z i < inject_Z j)%Q as Hij' by (rewrite <- Zlt_Qlt; exact Hij).
  assert (0 < inject_Z n)%Q as Hnpos
    by (change 0%Q with (inject_Z 0); rewrite <- Zlt_Qlt; exact Hn).
  apply Qmult_lt_compat_r; [exact Hd|].
  unfold Qdiv. apply Qmult_lt_compat_r; [|lra].
  apply Qinv_lt_0_compat, Hnpos.
Qed.

(** The timestamp at position [i] of a non-empty sample. *)
Lemma sampleTimestamps_lookup d count (i : nat) t :
  (0 < d)%Q -> 0 < count ->
  sampleTimestamps d count !! i = Some t ->
  (i < Z.to_nat count)%nat /\
  t = (((inject_Z (Z.of_nat i) + (1 # 2)) / inject_Z count) * d)%Q.
Proof.
  intros Hd Hc H. rewrite sampleTimestamps_positive in H by assumption.
  assert (i < Z.to_nat count)%nat as Hi.
  { apply lookup_lt_Some in H. rewrite sample_loop_length in H. simpl in H. lia. }
  split; [exact Hi|].
  pose proof (sample_loop_lookup (Z.to_nat count) 0 count d [] i Hi) as E.
  simpl in E. rewrite E in H. inversion H. reflexivity.
Qed.

(** X5.  For a positive duration and count, the sampled timestamps lie
    strictly between 0 and the duration and strictly increase; the
    timestamps [classifyVideo] hands to the extraction, the sample clamped
    with the default margin, are as many as the count and never decrease. *)
Theorem sampled_stamps_ordered (d : Q) (count : Z) :
  (0 < d)%Q -> 0 < count ->
  let raw := sampleTimestamps d count in
  let stamps := safeTimestamps d raw None in
  Forall (fun t => (0 < t)%Q /\ (t < d)%Q) raw /\
  (forall i j ti tj, (i < j)%nat ->
     raw !! i = Some ti -> raw !! j = Some tj -> (ti < tj)%Q) /\
  length stamps = Z.to_nat count /\
  (forall i j ti tj, (i <= j)%nat ->
     stamps !! i = Some ti -> stamps !! j = Some tj -> (ti <= tj)%Q).
Proof.
  intros Hd Hc raw stamps.
  assert (forall i j ti tj, (i < j)%nat ->
            raw !! i = Some ti -> raw !! j = Some tj -> (ti < tj)%Q) as Hinc.
  { intros i j ti tj Hij Hi Hj.
    apply sampleTimestamps_lookup in Hi; [|assumption..].
    apply sampleTimestamps_lookup in Hj; [|assumption..].
    destruct Hi as [_ ->], Hj as [_ ->].
    apply midpoint_increasing; [lia|assumption..]. }
  split; [|split; [exact Hinc|split]].
  - apply Forall_forall. intros t Hin.
    apply list_elem_of_lookup in Hin. destruct Hin as (i & Hi).
    apply sampleTimestamps_lookup in Hi; [|assumption..].
    destruct Hi as [Hi ->]. apply midpoint_inside; [lia|lia|exact Hd].
  - unfold stamps, safeTimestamps. rewrite length_map.
    unfold raw. rewrite sampleTimestamps_positive by assumption.
    rewrite sample_loop_length. reflexivity.
  - intros i j ti tj Hij Hi Hj.
    assert (exists ri, raw !! i = Some ri) as (ri & Hri).
    { apply lookup_lt_is_Some_2. apply lookup_lt_Some in Hi.
      unfold stamps, safeTimestamps in Hi. rewrite length_map in Hi. exact Hi. }
    assert (exists rj, raw !! j = Some rj) as (rj & Hrj).
    { apply lookup_lt_is_Some_2. apply lookup_lt_Some in Hj.
      unfold stamps, safeTimestamps in Hj. rewrite length_map in Hj. exact Hj. }
    unfold stamps, safeTimestamps in Hi, Hj.
    change (map ?f raw) with (f <$> raw) in Hi, Hj.
    rewrite list_lookup_fmap, Hri in Hi. rewrite list_lookup_fmap, Hrj in Hj.
    inversion Hi. inversion Hj. apply clamp_monotone.
    destruct (decide (i = j)) as [->|Hne].
    + rewrite Hri in Hrj. inversion Hrj. apply Qle_refl.
    + apply Qlt_le_weak. apply (Hinc i j ri rj); [lia|assumption..].
Qed.

End Timestamps.

(** The two examples of the clamp: 9.99 becomes 9.95 and -1 becomes 0 for
    a duration of 10 s. *)
Lemma safeTimestamps_examples :
  Forall2 Qeq (Ffmpeg.safeTimestamps 10 [999 # 100; -1 # 1]%Q (Some (5 # 100)%Q))
    [995 # 100; 0]%Q.
Proof. repeat constructor. Qed.

Lemma sampled_stamps_ordered_witness :
  length (Ffmpeg.safeTimestamps 10 (Ffmpeg.sampleTimestamps 10 4) None) = 4%nat /\
  Forall (fun t => (0 < t)%Q /\ (t < 10)%Q) (Ffmpeg.sampleTimestamps 10 4).
Proof.
  destruct (sampled_stamps_ordered 10 4) as (Hraw & _ & Hlen & _).
  - reflexivity.
  - lia.
  - split; [exact Hlen | exact Hraw].
Defined.

(** ** Ranking by descending score *)
Section Ranking.
Import Samples Notions TM.

Lemma insert_by_perm {A} (before : A -> A -> bool) a l :
  insert_by before a l ≡ₚ a :: l.
Proof.
  induction l as [|y l IH]; simpl; [reflexivity|].
  destruct (before a y); [reflexivity|].
  rewrite IH. apply perm_swap.
Qed.

Lemma stable_sort_perm {A} (before : A -> A -> bool) l :
  stable_sort before l ≡ₚ l.
Proof.
  induction l as [|a l IH]; [reflexivity|].
  unfold stable_sort in *. simpl. rewrite insert_by_perm, IH. reflexivity.
Qed.

Lemma ranks_ahead_trans scores a b c :
  ranks_ahead scores a b -> ranks_ahead scores b c -> ranks_ahead scores a c.
Proof.
  intros (x & y & Ha & Hb & H1) (y' & z & Hb' & Hc & H2).
  rewrite Hb in Hb'. inversion Hb'. subst y'.
  exists x, z. split; [exact Ha|]. split; [exact Hc|].
  destruct H1 as [H1|[H1 H1']], H2 as [H2|[H2 H2']].
  - left. lra.
  - left. lra.
  - left. lra.
  - right. split; [lra|lia].
Qed.

(** The comparator of the sort, on columns that exist. *)
Lemma desc_by_true scores a b x y :
  scores !! a = Some x -> scores !! b = Some y ->
  desc_by (map Some scores) a b = true -> (y <= x)%Q.
Proof.
  intros Ha Hb. unfold desc_by.
  change (map Some scores) with (Some <$> scores).
  rewrite !list_lookup_fmap, Ha, Hb. simpl. apply Qle_bool_iff.
Qed.

Lemma desc_by_false scores a b x y :
  scores !! a = Some x -> scores !! b = Some y ->
  desc_by (map Some scores) a b = false -> (x < y)%Q.
Proof.
  intros Ha Hb. unfold desc_by.
  change (map Some scores) with (Some <$> scores).
  rewrite !list_lookup_fmap, Ha, Hb. simpl. intros H.
  apply Qnot_le_lt. intros Hle. apply Qle_bool_iff in Hle. congruence.
Qed.

(** Inserting a column lower than all the columns of a ranked list. *)
Lemma insert_by_ranked scores a l :
  is_Some (scores !! a) ->
  Forall (fun y => (a < y)%nat /\ is_Some (scores !! y)) l ->
  StronglySorted (ranks_ahead scores) l ->
  StronglySorted (ranks_ahead scores) (insert_by (desc_by (map Some scores)) a l).
Proof.
  intros [x Hx] Hall Hs. induction Hs as [|y l Hs IH Hy]; simpl.
  - constructor; constructor.
  - inversion Hall as [|? ? [Hay [sy Hsy]] Hall']. subst.
    destruct (desc_by (map Some scores) a y) eqn:E.
    + assert (ranks_ahead scores a y) as Hahead.
      { exists x, sy. split; [exact Hx|]. split; [exact Hsy|].
        pose proof (desc_by_true _ _ _ _ _ Hx Hsy E) as Hle.
        destruct (Qlt_le_dec sy x) as [Hlt|Hge]; [left; exact Hlt|].
        right. split; [lra|exact Hay]. }
      constructor; [constructor; assumption|].
      constructor; [exact Hahead|].
      eapply Forall_impl; [exact Hy|].
      intros z Hz. eapply ranks_ahead_trans; eauto.
    + assert (ranks_ahead scores y a) as Hahead.
      { exists sy, x. split; [exact Hsy|]. split; [exact Hx|].
        left. eapply desc_by_false; eauto. }
      constructor; [apply IH; exact Hall'|].
      rewrite insert_by_perm. constructor; assumption.
Qed.

Lemma stable_sort_ranked scores (l : list nat) :
  StronglySorted lt l ->
  Forall (fun y => is_Some (scores !! y)) l ->
  StronglySorted (ranks_ahead scores) (stable_sort (desc_by (map Some scores)) l).
Proof.
  intros Hs. induction Hs as [|a l Hs IH Ha]; intros Hall.
  - constructor.
  - inversion Hall as [|? ? Hsa Hall']. subst.
    change (stable_sort (desc_by (map Some scores)) (a :: l))
      with (insert_by (desc_by (map Some scores)) a
              (stable_sort (desc_by (map Some scores)) l)).
    apply insert_by_ranked.
    + exact Hsa.
    + rewrite stable_sort_perm.
      apply Forall_forall. intros y Hy. split.
      * rewrite Forall_forall in Ha. apply Ha, Hy.
      * rewrite Forall_forall in Hall'. apply Hall', Hy.
    + apply IH, Hall'.
Qed.

Lemma seq_strongly_sorted n : forall start, StronglySorted lt (seq start n).
Proof.
  induction n as [|n IH]; intros start; simpl; constructor; [apply IH|].
  apply Forall_forall. intros y Hy.
  apply list_elem_of_In, in_seq in Hy. lia.
Qed.

Lemma StronglySorted_lookup {A} (R : A -> A -> Prop) l :
  StronglySorted R l ->
  forall i j a b, (i < j)%nat -> l !! i = Some a -> l !! j = Some b -> R a b.
Proof.
  induction 1 as [|x l Hs IH Hx]; intros i j a b Hij Hi Hj.
  - inversion Hi.
  - destruct j as [|j]; [lia|]. destruct i as [|i].
    + inversion Hi. subst. rewrite Forall_forall in Hx.
      apply Hx. eapply list_elem_of_lookup_2. exact Hj.
    + apply (IH i j); [lia|assumption..].
Qed.

Lemma order_desc_perm (scores : list Q) :
  order_desc (map Some scores) ≡ₚ seq 0 (length scores).
Proof. unfold order_desc. rewrite length_map. apply stable_sort_perm. Qed.

Lemma order_desc_sorted (scores : list Q) :
  forall i j a b, (i < j)%nat ->
    order_desc (map Some scores) !! i = Some a ->
    order_desc (map Some scores) !! j = Some b ->
    ranks_ahead scores a b.
Proof.
  unfold order_desc. rewrite length_map.
  apply StronglySorted_lookup, stable_sort_ranked.
  - apply seq_strongly_sorted.
  - apply Forall_forall. intros y Hy.
    apply list_elem_of_In, in_seq in Hy. apply lookup_lt_is_Some. lia.
Qed.

(** X6.  The order the code gets from
    [scores.map((s, i) => i).sort((a, b) => scores[b] - scores[a])] lists
    every column exactly once, by descending score, and columns of equal
    score by ascending index. *)
Theorem order_desc_ranked (scores : list Q) :
  order_desc (map Some scores) ≡ₚ seq 0 (length scores) /\
  forall i j a b, (i < j)%nat ->
    order_desc (map Some scores) !! i = Some a ->
    order_desc (map Some scores) !! j = Some b ->
    ranks_ahead scores a b.
Proof. split; [apply order_desc_perm | apply order_desc_sorted]. Qed.

(** The entry at position [j] of the predictions of a frame. *)
Lemma frame_predictions_lookup tm k scores (j : nat) p :
  0 <= k ->
  frame_predictions tm k scores !! j = Some p ->
  exists c q,
    (j < Z.to_nat k)%nat /\
    order_desc (map Some scores) !! j = Some c /\
    scores !! c = Some q /\
    p = {| class := cls tm !! c; score := Some q; rank := Z.of_nat j + 1 |}.
Proof.
  intros Hk. unfold frame_predictions, slice0.
  assert ((k <? 0) = false) as -> by lia.
  rewrite list_lookup_imap. intros H.
  destruct (take (Z.to_nat k) (order_desc (map Some scores)) !! j) as [c|] eqn:E;
    [|discriminate].
  apply lookup_take_Some in E. destruct E as [E Hj].
  assert (c ∈ seq 0 (length scores)) as Hc.
  { rewrite <- order_desc_perm. eapply list_elem_of_lookup_2. exact E. }
  apply list_elem_of_In, in_seq in Hc.
  destruct (lookup_lt_is_Some_2 scores c) as (q & Hq); [lia|].
  exists c, q. split; [exact Hj|]. split; [exact E|]. split; [exact Hq|].
  simpl in H. inversion H.
  change (map Some scores) with (Some <$> scores).
  rewrite list_lookup_fmap, Hq. reflexivity.
Qed.

(** X7.  The predictions reported for a frame are the first
    [min(K, W)] columns of that order: the entry at position [j] has rank
    [j + 1] and carries the label and the score of one column of the row,
    and scores never increase along the list. *)
Theorem frame_predictions_ranked tm (k : Z) (scores : list Q) :
  0 <= k ->
  let preds := frame_predictions tm k scores in
  length preds = Nat.min (Z.to_nat k) (length scores) /\
  (forall j p, preds !! j = Some p ->
     rank p = Z.of_nat j + 1 /\
     exists c q, scores !! c = Some q /\ score p = Some q /\
                 class p = cls tm !! c) /\
  (forall i j pi pj, (i < j)%nat ->
     preds !! i = Some pi -> preds !! j = Some pj ->
     exists qi qj, score pi = Some qi /\ score pj = Some qj /\ (qj <= qi)%Q).
Proof.
  intros Hk preds. split; [|split].
  - unfold preds, frame_predictions, slice0.
    assert ((k <? 0) = false) as -> by lia.
    rewrite length_imap, length_take.
    rewrite (Permutation_length (order_desc_perm scores)), length_seq.
    reflexivity.
  - intros j p Hp.
    destruct (frame_predictions_lookup tm k scores j p Hk Hp)
      as (c & q & _ & _ & Hq & ->).
    split; [reflexivity|]. exists c, q. auto.
  - intros i j pi pj Hij Hi Hj.
    destruct (frame_predictions_lookup tm k scores i pi Hk Hi)
      as (ci & qi & _ & Eci & Hqi & ->).
    destruct (frame_predictions_lookup tm k scores j pj Hk Hj)
      as (cj & qj & _ & Ecj & Hqj & ->).
    exists qi, qj. split; [reflexivity|]. split; [reflexivity|].
    destruct (order_desc_sorted scores i j ci cj Hij Eci Ecj)
      as (x & y & Hx & Hy & H).
    rewrite Hqi in Hx. rewrite Hqj in Hy. inversion Hx. inversion Hy. subst.
    destruct H as [H|[H _]]; lra.
Qed.

End Ranking.

Lemma frame_predictions_ranked_witness :
  length (TM.frame_predictions (Samples.two_labels Ram) 1 [1 # 4; 3 # 4]%Q) = 1%nat /\
  map TM.class (TM.frame_predictions (Samples.two_labels Ram) 1 [1 # 4; 3 # 4]%Q)
    = [Some "dog"%string].
Proof.
  split.
  - apply (proj1 (frame_predictions_ranked (Samples.two_labels Ram) 1
                    [1 # 4; 3 # 4]%Q ltac:(lia))).
  - reflexivity.
Defined.

(** ** Aggregation over frames *)
Section Aggregation.
Import Samples Notions TM.

(** One [+=] pass over a row that is no wider than the sums. *)
Lemma accumulate_lookup : forall (row : list Q) (agg : list num) (c : nat),
  (length row <= length agg)%nat ->
  accumulate agg row !! c =
    match row !! c with
    | Some x => option_map (fun a => nadd a (Some x)) (agg !! c)
    | None => agg !! c
    end.
Proof.
  induction row as [|x row IH]; intros agg c Hlen.
  - destruct agg; reflexivity.
  - destruct agg as [|a agg]; [simpl in Hlen; lia|].
    destruct c as [|c]; [reflexivity|].
    simpl. apply IH. simpl in Hlen. lia.
Qed.

Lemma accumulate_length_narrow : forall (row : list Q) (agg : list num),
  (length row <= length agg)%nat -> length (accumulate agg row) = length agg.
Proof.
  induction row as [|x row IH]; intros agg Hlen.
  - destruct agg; reflexivity.
  - destruct agg as [|a agg]; [simpl in Hlen; lia|].
    simpl. rewrite IH; [reflexivity|simpl in Hlen; lia].
Qed.

(** The sums after all the rows, from any sums to start with. *)
Lemma fold_accumulate_lookup (probs : list (list Q)) :
  forall (agg : list num) (c : nat) (a : Q),
    Forall (fun row => (length row <= length agg)%nat) probs ->
    agg !! c = Some (Some a) ->
    foldl accumulate agg probs !! c = Some (Some (sum_left a (column c probs))) /\
    length (foldl accumulate agg probs) = length agg.
Proof.
  induction probs as [|row probs IH]; intros agg c a Hall Ha.
  - split; [exact Ha|reflexivity].
  - inversion Hall as [|? ? Hrow Hall']. subst. simpl.
    pose proof (accumulate_length_narrow row agg Hrow) as Hlen.
    pose proof (accumulate_lookup row agg c Hrow) as Hc.
    unfold num in *. rewrite Ha in Hc.
    unfold column. simpl. fold (column c probs).
    destruct (row !! c) as [x|] eqn:Ex.
    + simpl in Hc. destruct (IH (accumulate agg row) c (a + x)%Q) as [H1 H2].
      * rewrite Hlen. exact Hall'.
      * exact Hc.
      * split; [exact H1|]. rewrite H2. exact Hlen.
    + destruct (IH (accumulate agg row) c a) as [H1 H2].
      * rewrite Hlen. exact Hall'.
      * exact Hc.
      * split; [exact H1|]. rewrite H2. exact Hlen.
Qed.

(** X8.  When no row is wider than the label list, the sums kept by
    [classifyVideo] hold for every class the sum, over the frames in scoring
    order, of the scores the rows give to that class, starting from 0, each
    [+=] adding the next frame's score on the right; and the number of sums
    stays the number of labels. *)
Theorem aggregate_sums (labels : nat) (probs : list (list Q)) :
  Forall (fun row => (length row <= labels)%nat) probs ->
  let zeros := replicate labels (Some 0%Q) in
  length (foldl accumulate zeros probs) = labels /\
  (forall c, (c < labels)%nat ->
     foldl accumulate zeros probs !! c =
       Some (Some (sum_left 0 (column c probs)))).
Proof.
  intros Hall zeros.
  assert (Forall (fun row => (length row <= length zeros)%nat) probs) as Hall'.
  { unfold zeros. rewrite length_replicate. exact Hall. }
  split.
  - destruct labels as [|n].
    + clear Hall'. induction Hall as [|row probs Hrow _ IH]; [reflexivity|].
      destruct row; [exact IH|simpl in Hrow; lia].
    + destruct (fold_accumulate_lookup probs zeros 0 0 Hall' eq_refl) as [_ H].
      rewrite H. apply length_replicate.
  - intros c Hc.
    apply (fold_accumulate_lookup probs zeros c 0 Hall').
    apply lookup_replicate_2. exact Hc.
Qed.

Lemma avg_of_sums (sums : list Q) (frameCount : nat) :
  map (fun s : num => ndiv s (inject_Z (Z.max 1 (Z.of_nat frameCount))))
    (map Some sums) = map Some (means sums frameCount).
Proof.
  unfold means. induction sums as [|x sums IH]; [reflexivity|].
  simpl. rewrite IH. reflexivity.
Qed.

(** The entry at position [j] of the aggregate. *)
Lemma overall_lookup tm k sums frameCount (j : nat) p :
  0 <= k ->
  overall tm k (map Some sums) frameCount !! j = Some p ->
  exists c q,
    order_desc (map Some (means sums frameCount)) !! j = Some c /\
    means sums frameCount !! c = Some q /\
    p = {| class := cls tm !! c; score := Some q; rank := Z.of_nat j + 1 |}.
Proof.
  intros Hk. unfold overall, slice0. rewrite avg_of_sums.
  assert ((k <? 0) = false) as -> by lia.
  intros H. apply lookup_take_Some in H. destruct H as [H _].
  rewrite list_lookup_imap in H.
  destruct (order_desc (map Some (means sums frameCount)) !! j) as [c|] eqn:E;
    [|discriminate].
  assert (c ∈ seq 0 (length (means sums frameCount))) as Hc.
  { rewrite <- order_desc_perm. eapply list_elem_of_lookup_2. exact E. }
  apply list_elem_of_In, in_seq in Hc.
  destruct (lookup_lt_is_Some_2 (means sums frameCount) c) as (q & Hq); [lia|].
  exists c, q. split; [reflexivity|]. split; [exact Hq|].
  simpl in H. inversion H.
  change (map Some (means sums frameCount)) with (Some <$> means sums frameCount).
  rewrite list_lookup_fmap, Hq. reflexivity.
Qed.

(** X9.  The aggregate of a video lists the classes by descending mean
    score, the mean of a class being its sum divided by
    [max(1, frameCount)], and classes of equal mean by ascending class
    index; it keeps the first [min(K, L)] of them, the entry at position
    [j] having rank [j + 1]. *)
Theorem overall_ranked tm (k : Z) (sums : list Q) (frameCount : nat) :
  0 <= k ->
  let agg := overall tm k (map Some sums) frameCount in
  length agg = Nat.min (Z.to_nat k) (length sums) /\
  (forall j p, agg !! j = Some p ->
     rank p = Z.of_nat j + 1 /\
     exists c x, sums !! c = Some x /\ class p = cls tm !! c /\
       score p = Some (x / inject_Z (Z.max 1 (Z.of_nat frameCount)))%Q) /\
  (forall i j pi pj, (i < j)%nat ->
     agg !! i = Some pi -> agg !! j = Some pj ->
     exists ci cj, class pi = cls tm !! ci /\ class pj = cls tm !! cj /\
       score pi = mjoin (map Some (means sums frameCount) !! ci) /\
       score pj = mjoin (map Some (means sums frameCount) !! cj) /\
       ranks_ahead (means sums frameCount) ci cj).
Proof.
  intros Hk agg. split; [|split].
  - unfold agg, overall, slice0. rewrite avg_of_sums.
    assert ((k <? 0) = false) as -> by lia.
    rewrite length_take, length_imap.
    rewrite (Permutation_length (order_desc_perm (means sums frameCount))).
    rewrite length_seq. unfold means. rewrite length_map. reflexivity.
  - intros j p Hp.
    destruct (overall_lookup tm k sums frameCount j p Hk Hp) as (c & q & _ & Hq & ->).
    split; [reflexivity|].
    unfold means in Hq. change (map ?f sums) with (f <$> sums) in Hq.
    rewrite list_lookup_fmap in Hq.
    destruct (sums !! c) as [x|] eqn:Ex; [|discriminate].
    inversion Hq. exists c, x. auto.
  - intros i j pi pj Hij Hi Hj.
    destruct (overall_lookup tm k sums frameCount i pi Hk Hi)
      as (ci & qi & Eci & Hqi & ->).
    destruct (overall_lookup tm k sums frameCount j pj Hk Hj)
      as (cj & qj & Ecj & Hqj & ->).
    exists ci, cj. split; [reflexivity|]. split; [reflexivity|].
    change (map Some (means sums frameCount)) with (Some <$> means sums frameCount).
    rewrite !list_lookup_fmap, Hqi, Hqj. split; [reflexivity|].
    split; [reflexivity|].
    apply (order_desc_sorted (means sums frameCount) i j ci cj Hij Eci Ecj).
Qed.

End Aggregation.

Lemma aggregate_sums_witness :
  foldl TM.accumulate (replicate 2 (Some 0%Q)) [[1 # 4; 3 # 4]; [1 # 2; 1 # 2]]%Q !! 1%nat
    = Some (Some (Notions.sum_left 0 [3 # 4; 1 # 2]%Q)).
Proof.
  apply (proj2 (aggregate_sums 2 [[1 # 4; 3 # 4]; [1 # 2; 1 # 2]]%Q
                  ltac:(repeat constructor))).
  lia.
Defined.

Lemma overall_ranked_witness :
  map TM.class (TM.overall (Samples.two_labels Ram) 2 (map Some [1 # 2; 3 # 2]%Q) 2)
    = [Some "dog"; Some "cat"]%string /\
  length (TM.overall (Samples.two_labels Ram) 2 (map Some [1 # 2; 3 # 2]%Q) 2) = 2%nat.
Proof.
  split; [reflexivity|].
  apply (proj1 (overall_ranked (Samples.two_labels Ram) 2 [1 # 2; 3 # 2]%Q 2
                  ltac:(lia))).
Defined.

(** ** The life of the temp directories of a video request *)
Section TempDirs.
Import Samples Notions TM Ffmpeg.
Variable w : world.
Variable tm : classifier.
Hypothesis writes : forall file buffer, w_writeFile w file buffer = Ok tt.

Lemma shrinks_refl s : shrinks s s.
Proof. split; [reflexivity|]. split; [reflexivity|]. intros _. reflexivity. Qed.

Lemma shrinks_trans s1 s2 s3 : shrinks s1 s2 -> shrinks s2 s3 -> shrinks s1 s3.
Proof.
  intros (Hc1 & Hl1 & Hd1) (Hc2 & Hl2 & Hd2). split; [congruence|].
  split; [congruence|]. intros Hl.
  specialize (Hd1 Hl). rewrite <- Hl1 in Hl. specialize (Hd2 Hl). set_solver.
Qed.

Lemma scoring_shrinks s s' : scoring s s' -> shrinks s s'.
Proof.
  intros (Hv & Hf & _). unfold shrinks. rewrite Hv, Hf.
  split; [reflexivity|]. split; [reflexivity|]. intros _. reflexivity.
Qed.

Lemma quiet_shrinks s s' : quiet s s' -> fs s' = fs s -> shrinks s s'.
Proof.
  intros (_ & Hv) Hf. unfold shrinks. rewrite Hv, Hf.
  split; [reflexivity|]. split; [reflexivity|]. intros _. reflexivity.
Qed.

Hint Resolve shrinks_refl shrinks_trans : respects.

Lemma log_shrinks e : respects shrinks (log e).
Proof.
  apply respects_modify. intros s.
  split; [reflexivity|]. split; [reflexivity|]. intros _. reflexivity.
Qed.

Lemma assign_shrinks f :
  (forall v, cleanup (f v) = cleanup v) -> respects shrinks (assign f).
Proof.
  intros Hf. apply respects_modify. intros s. split; [apply Hf|].
  split; [reflexivity|]. intros _. reflexivity.
Qed.

Lemma fs_rm_force_shrinks dir : respects shrinks (fs_rm_force dir).
Proof.
  intros s r s' H. unfold fs_rm_force in H.
  destruct (decide _); inversion H; subst; [apply shrinks_refl|].
  split; [reflexivity|]. split; [reflexivity|]. intros _. simpl. set_solver.
Qed.

Lemma run_cleanup_shrinks c : respects shrinks (run_cleanup c).
Proof.
  destruct c as [|[dir|]]; simpl.
  - apply respects_ret; auto with respects.
  - apply fs_rm_force_shrinks.
  - apply respects_ret; auto with respects.
Qed.

(** With no failing removal, a completed or failed invocation of a release
    action leaves none of the directories it owns. *)
Lemma run_cleanup_removes c s r s' :
  locked (fs s) = ∅ ->
  run_cleanup c s = (r, s') ->
  r = Ok tt /\ vars s' = vars s /\ locked (fs s') = ∅ /\
  dirs (fs s') = dirs (fs s) ∖ owned c.
Proof.
  intros Hl H. destruct c as [|[dir|]]; simpl in H.
  - inversion H. subst. repeat split; [exact Hl|]. simpl. set_solver.
  - unfold fs_rm_force in H.
    destruct (decide _) as [[_ Hin]|_].
    + rewrite Hl in Hin. set_solver.
    + inversion H. subst. repeat split. exact Hl.
  - inversion H. subst. repeat split; [exact Hl|]. simpl. set_solver.
Qed.

Lemma call_cleanup_shrinks ev c : respects shrinks (call_cleanup ev c).
Proof.
  intros s r s' H. unfold call_cleanup in H.
  destruct (run_cleanup c s) as [[u|e] s1] eqn:E;
    apply run_cleanup_shrinks in E; inversion H; subst; exact E.
Qed.

Lemma cleanup_and_mark_shrinks : respects shrinks cleanup_and_mark.
Proof.
  unfold cleanup_and_mark.
  repeat (respects_step;
          eauto using call_cleanup_shrinks, assign_shrinks with respects).
Qed.

Lemma size_check_shrinks maxBytes : respects shrinks (size_check maxBytes).
Proof.
  unfold size_check. repeat (respects_step; eauto with respects).
Qed.

Lemma getMediaBuffer_shrinks src : respects shrinks (getMediaBuffer w src).
Proof.
  unfold getMediaBuffer. repeat (respects_step; eauto with respects).
Qed.

(** No job of [extractFrames] rejects, so its pool always completes. *)
Lemma frame_pool_completes inputPath stamps conc :
  Pool.run_indexed (frame_job w inputPath) stamps conc (w_sched w) =
    Ok (map Some (map (frame_of w inputPath) stamps)).
Proof.
  apply run_indexed_aligned.
  induction stamps as [|t stamps IH]; constructor; [|exact IH].
  apply frame_job_frame_of.
Qed.

Lemma extractFrames_shrinks inputPath stamps conc :
  respects shrinks (extractFrames w inputPath stamps conc).
Proof.
  intros s r s' H. unfold extractFrames in H.
  apply bind_inv in H. destruct H as [(dir & s1 & Hmk & H)|(e & Hmk & _)].
  - rewrite frame_pool_completes in H.
    unfold bind at 1 in H. unfold lift at 1 in H.
    apply bind_inv in H.
    unfold fs_mkdtemp in Hmk. destruct (w_mkdtemp w _); [|discriminate].
    inversion Hmk. subst dir s1. clear Hmk.
    destruct H as [(u & s2 & Hrm & H)|(e & Hrm & _)].
    + inversion H. subst s2. clear H.
      unfold fs_rm_force in Hrm. simpl in Hrm.
      destruct (decide _) as [[_ Hin]|_].
      * inversion Hrm.
      * inversion Hrm. subst s'. simpl.
        split; [reflexivity|]. split; [reflexivity|]. intros _. set_solver.
    + unfold fs_rm_force in Hrm. simpl in Hrm.
      destruct (decide _) as [[_ Hin]|_].
      * inversion Hrm. subst s'. simpl.
        split; [reflexivity|]. split; [reflexivity|]. intros Hl.
        rewrite Hl in Hin. set_solver.
      * inversion Hrm.
  - unfold fs_mkdtemp in Hmk. destruct (w_mkdtemp w _); [discriminate|].
    inversion Hmk. subst. simpl.
    split; [reflexivity|]. split; [reflexivity|]. intros _. reflexivity.
Qed.

Lemma extractFramesAutoFromBuffer_shrinks b frames d :
  respects shrinks (extractFramesAutoFromBuffer w b frames d).
Proof. apply respects_lift. apply shrinks_refl. Qed.

Lemma temp_resolved_owned b s r s' :
  temp_resolved w b s = (r, s') ->
  vars s' = vars s /\ locked (fs s') = locked (fs s) /\
  dirs (fs s') ⊆ dirs (fs s) ∪ owned (handed_out r).
Proof.
  unfold temp_resolved, writeTemp, fs_mkdtemp. cbv [bind lift ret].
  destruct (w_mkdtemp w _); [rewrite writes|]; intros H; inversion H; subst;
    simpl; repeat split; set_solver.
Qed.

Lemma ensureLocalPathWithCleanup_owned src s r s' :
  ensureLocalPathWithCleanup w src s = (r, s') ->
  vars s' = vars s /\ locked (fs s') = locked (fs s) /\
  dirs (fs s') ⊆ dirs (fs s) ∪ owned (handed_out r).
Proof.
  assert (forall (x : outcome resolved), (x, s) = (r, s') ->
            vars s' = vars s /\ locked (fs s') = locked (fs s) /\
            dirs (fs s') ⊆ dirs (fs s) ∪ owned (handed_out r)) as Hstay.
  { intros x H. inversion H. subst. repeat split. set_solver. }
  unfold ensureLocalPathWithCleanup.
  destruct src as [|str|b|]; try (apply Hstay).
  - destruct (String.eqb str ""); [apply Hstay|].
    destruct (Str.startsWith "http" str).
    { unfold bind, lift. destruct (w_http w str); [|apply Hstay].
      apply temp_resolved_owned. }
    destruct (Str.startsWith "data:" str).
    { destruct (Str.split_comma_1 str) as [base64|]; [|apply Hstay].
      destruct (String.eqb base64 ""); [apply Hstay|].
      apply temp_resolved_owned. }
    destruct (Str.looksBase64 str); [|apply Hstay].
    unfold try_catch.
    destruct (temp_resolved w (w_base64 w str) s) as [[loc|e] s1] eqn:E;
      apply temp_resolved_owned in E; intros H; inversion H; subst.
    + exact E.
    + destruct E as (Hv & Hl & Hd). repeat split; [exact Hv|exact Hl|].
      simpl in *. set_solver.
  - apply temp_resolved_owned.
Qed.

Lemma call_cleanup_removes ev c s r s' :
  locked (fs s) = ∅ ->
  call_cleanup ev c s = (r, s') ->
  vars s' = vars s /\ locked (fs s') = ∅ /\
  dirs (fs s') = dirs (fs s) ∖ owned c.
Proof.
  intros Hl H. unfold call_cleanup in H.
  destruct (run_cleanup c s) as [ro s1] eqn:E.
  destruct (run_cleanup_removes c s ro s1 Hl E) as (-> & Hv & Hl1 & Hd).
  inversion H. subst. simpl. auto.
Qed.

Hint Resolve log_shrinks fs_rm_force_shrinks run_cleanup_shrinks
  call_cleanup_shrinks cleanup_and_mark_shrinks size_check_shrinks
  getMediaBuffer_shrinks extractFrames_shrinks
  extractFramesAutoFromBuffer_shrinks : respects.

Lemma fallback_body_shrinks p stamps conc :
  respects shrinks
    (log (EvExtract Disk) ;;;
     fb <- extractFrames w p stamps conc ;;
     s1 <- get ;;
     assign (set_sizeBytes (default (sizeBytes (vars s1)) (w_statSize w p))) ;;;
     ret fb).
Proof.
  repeat (respects_step; eauto using assign_shrinks with respects).
Qed.

(** The fallback removes the directory it creates, whether or not the
    extraction from it succeeds. *)
Lemma fallback_shrinks videoUrl stamps conc fb :
  respects shrinks (fallback w videoUrl stamps conc fb).
Proof.
  intros s r s' H. unfold fallback in H.
  unfold bind at 1, get at 1 in H.
  destruct (usedMode (vars s)); [destruct fb|];
    try (inversion H; subst; apply shrinks_refl).
  unfold bind at 1, log at 1, modify at 1 in H.
  apply bind_inv in H. destruct H as [(loc & sa & Hloc & H)|(e & Hloc & _)];
    apply ensureLocalPathWithCleanup_owned in Hloc;
    destruct Hloc as (Hv & Hl & Hd); simpl in Hv, Hl, Hd.
  - unfold bind at 1, assign at 1, modify at 1 in H.
    unfold bind at 1, assign at 1, modify at 1 in H.
    apply try_finally_inv in H. destruct H as (rb & sb & rf & Hb & Hf & _).
    apply fallback_body_shrinks in Hb.
    destruct Hb as (Hc1 & Hl1 & Hd1). simpl in Hc1, Hl1, Hd1.
    split; [|split].
    + pose proof (call_cleanup_shrinks _ _ _ _ _ Hf) as (Hc2 & _).
      rewrite Hc2, Hc1, Hv. reflexivity.
    + pose proof (call_cleanup_shrinks _ _ _ _ _ Hf) as (_ & Hl2 & _).
      rewrite Hl2, Hl1, Hl. reflexivity.
    + intros Hl0.
      assert (locked (fs sa) = ∅) as Hla by (rewrite Hl; exact Hl0).
      specialize (Hd1 Hla).
      assert (locked (fs sb) = ∅) as Hlb by (rewrite Hl1; exact Hla).
      destruct (call_cleanup_removes _ _ _ _ _ Hlb Hf) as (_ & _ & Hd2).
      rewrite Hd2. set_solver.
  - split; [rewrite Hv; reflexivity|]. split; [exact Hl|].
    intros _. set_solver.
Qed.

Lemma resolve_ram_shrinks videoUrl maxBytes :
  respects shrinks (resolve_ram w videoUrl maxBytes).
Proof.
  unfold resolve_ram.
  repeat (respects_step; eauto using assign_shrinks with respects).
Qed.

Lemma extract_first_shrinks src frames d stamps conc :
  respects shrinks (extract_first w src frames d stamps conc).
Proof.
  unfold extract_first.
  repeat (respects_step; eauto with respects).
Qed.

Lemma score_frames_shrinks videoUrl o frames targetH targetW stamps bufs :
  respects shrinks
    (score_frames w tm videoUrl o frames targetH targetW stamps bufs).
Proof.
  unfold score_frames. respects_step.
  - eapply respects_weaken; [apply scoring_shrinks|apply tally_scoring].
  - destruct a as [[agg fc] results]. unfold make_out.
    repeat (respects_step; eauto with respects).
Qed.

Lemma resolve_disk_rest_shrinks p maxBytes :
  respects shrinks
    (try_catch
       (assign (set_sizeBytes (default 0 (w_statSize w p))) ;;;
        size_check maxBytes)
       (fun _ => ret tt) ;;;
     log EvProbe ;;;
     ret (w_probePath w p, SrcPath p)).
Proof.
  repeat (respects_step; eauto using assign_shrinks with respects).
Qed.

(** The [disk] acquisition: the only directory it may add is the one the
    [cleanup] variable now removes. *)
Lemma resolve_disk_owned videoUrl maxBytes s r s' :
  resolve_disk w videoUrl maxBytes s = (r, s') ->
  locked (fs s') = locked (fs s) /\
  (locked (fs s) = ∅ ->
   dirs (fs s') ⊆ dirs (fs s) ∪ owned (cleanup (vars s'))).
Proof.
  intros H. unfold resolve_disk in H.
  unfold bind at 1, log at 1, modify at 1 in H.
  apply bind_inv in H. destruct H as [(loc & sa & Hloc & H)|(e & Hloc & _)];
    apply ensureLocalPathWithCleanup_owned in Hloc;
    destruct Hloc as (Hv & Hl & Hd); simpl in Hv, Hl, Hd.
  - unfold bind at 1, assign at 1, modify at 1 in H.
    apply resolve_disk_rest_shrinks in H. destruct H as (Hc1 & Hl1 & Hd1).
    simpl in Hc1, Hl1, Hd1. split; [congruence|].
    intros Hl0. rewrite Hc1.
    assert (locked (fs sa) = ∅) as Hla by (rewrite Hl; exact Hl0).
    specialize (Hd1 Hla). set_solver.
  - split; [exact Hl|]. intros _. set_solver.
Qed.

Lemma acquire_rest_shrinks videoUrl o frames (ds : option Q * frames_source) :
  respects shrinks
    (match fst ds with
     | None => throw "Unable to determine video duration"
     | Some durationSec =>
         if Qeq_bool durationSec 0 || Qle_bool durationSec 0
         then throw "Unable to determine video duration"
         else
           let stampsRaw := sampleTimestamps durationSec frames in
           let stamps := safeTimestamps durationSec stampsRaw None in
           let extractConc :=
             Z.max 1 (Z.min 16
               (default (if o_turboMode o then Z.min 8 (cpuCount w) else 1)
                        (o_extractionConcurrency o))) in
           fb0 <- extract_first w (snd ds) frames durationSec stamps extractConc ;;
           frameBuffers <- fallback w videoUrl stamps extractConc fb0 ;;
           ret (stamps, frameBuffers)
     end).
Proof.
  cbv zeta.
  repeat (respects_step;
          eauto using extract_first_shrinks, fallback_shrinks with respects).
Qed.

Lemma acquire_frames_owned videoUrl o frames s r s' :
  acquire_frames w tm videoUrl o frames s = (r, s') ->
  locked (fs s') = locked (fs s) /\
  (locked (fs s) = ∅ ->
   dirs (fs s') ⊆ dirs (fs s) ∪ owned (cleanup (vars s'))).
Proof.
  intros H. unfold acquire_frames in H.
  assert (forall r1 s1,
    match ioMode tm with
    | Ram => resolve_ram w videoUrl (default (10 * 1024 * 1024) (o_maxBytes o))
    | Disk => resolve_disk w videoUrl (default (10 * 1024 * 1024) (o_maxBytes o))
    end s = (r1, s1) ->
    locked (fs s1) = locked (fs s) /\
    (locked (fs s) = ∅ ->
     dirs (fs s1) ⊆ dirs (fs s) ∪ owned (cleanup (vars s1)))) as Hres.
  { intros r1 s1 E. destruct (ioMode tm).
    - apply resolve_ram_shrinks in E. destruct E as (_ & Hl & Hd).
      split; [exact Hl|]. intros Hl0. specialize (Hd Hl0). set_solver.
    - eapply resolve_disk_owned. exact E. }
  apply bind_inv in H. destruct H as [(ds & s1 & Hds & H)|(e & Hds & _)].
  - apply Hres in Hds. destruct Hds as (Hl & Hd).
    apply acquire_rest_shrinks in H. destruct H as (Hc1 & Hl1 & Hd1).
    split; [congruence|]. intros Hl0. rewrite Hc1.
    assert (locked (fs s1) = ∅) as Hl2 by (rewrite Hl; exact Hl0).
    specialize (Hd Hl0). specialize (Hd1 Hl2). set_solver.
  - eapply Hres. exact Hds.
Qed.

Lemma video_body_owned videoUrl o frames targetH targetW s r s' :
  video_body w tm videoUrl o frames targetH targetW s = (r, s') ->
  locked (fs s') = locked (fs s) /\
  (locked (fs s) = ∅ ->
   dirs (fs s') ⊆ dirs (fs s) ∪ owned (cleanup (vars s'))).
Proof.
  intros H. unfold video_body in H.
  apply bind_inv in H. destruct H as [(sf & s1 & Hacq & H)|(e & Hacq & _)].
  - apply acquire_frames_owned in Hacq. destruct Hacq as (Hl & Hd).
    apply score_frames_shrinks in H. destruct H as (Hc1 & Hl1 & Hd1).
    split; [congruence|]. intros Hl0. rewrite Hc1.
    assert (locked (fs s1) = ∅) as Hl2 by (rewrite Hl; exact Hl0).
    specialize (Hd Hl0). specialize (Hd1 Hl2). set_solver.
  - eapply acquire_frames_owned. exact Hacq.
Qed.

(** X10.  When no write into a fresh temp directory fails and no removal
    fails, a video request leaves no temp directory behind: on every exit,
    by return or by exception, every temp directory that exists after the
    call existed before it. *)
Theorem classifyVideo1_leaves_no_temp_dir videoUrl o s r s' :
  locked (fs s) = ∅ ->
  classifyVideo1 w tm videoUrl o s = (r, s') ->
  dirs (fs s') ⊆ dirs (fs s).
Proof.
  intros Hl H. unfold classifyVideo1 in H.
  destruct (negb (truthy videoUrl)); [inversion H; subst; reflexivity|].
  destruct (negb (isFinite (default (Num 10) (o_frames o)))
            || le0 (default (Num 10) (o_frames o)));
    [inversion H; subst; reflexivity|].
  destruct (shapeH (tm_model tm)) as [targetH|];
    [|inversion H; subst; reflexivity].
  destruct (shapeW (tm_model tm)) as [targetW|];
    [|inversion H; subst; reflexivity].
  unfold bind at 1, ensureFFmpeg at 1, lift at 1 in H.
  destruct (w_ffmpeg w) as [ff|e]; [|inversion H; subst; reflexivity].
  unfold bind at 1, assign at 1, modify at 1 in H.
  apply try_finally_inv in H. destruct H as (rb & s1 & rf & Hb & Hf & _).
  apply video_body_owned in Hb. destruct Hb as (Hl1 & Hd1).
  simpl in Hl1, Hd1. specialize (Hd1 Hl).
  assert (locked (fs s1) = ∅) as Hl2 by (rewrite Hl1; exact Hl).
  unfold try_catch in Hf.
  destruct (cleanup_and_mark s1) as [rc s2] eqn:E.
  unfold cleanup_and_mark in E. unfold bind at 1, get at 1 in E.
  apply bind_inv in E. destruct E as [(u & s3 & Hcl & E)|(e & Hcl & ->)].
  - destruct (call_cleanup_removes _ _ _ _ _ Hl2 Hcl) as (_ & _ & Hd3).
    inversion E; subst. inversion Hf; subst. simpl.
    rewrite Hd3. set_solver.
  - destruct (call_cleanup_removes _ _ _ _ _ Hl2 Hcl) as (_ & _ & Hd3).
    inversion Hf; subst. rewrite Hd3. set_solver.
Qed.

End TempDirs.

Section TempLeak.
Import Samples Notions TM Ffmpeg.
Variable w : world.
Variable tm : classifier.

(** A resolution through a temp file whose write fails: the exception of
    the write surfaces and the directory made for the file stays. *)
Lemma temp_resolved_write_fails b s e :
  w_mkdtemp w (created (fs s)) = true ->
  w_writeFile w (next_dir "tmvid-" s ++ "/input") b = Throw e ->
  temp_resolved w b s =
    (Throw e,
     set_fs {| dirs := {[next_dir "tmvid-" s]} ∪ dirs (fs s);
               locked := locked (fs s); created := S (created (fs s)) |} s).
Proof.
  intros Hmk Hwr.
  unfold temp_resolved, writeTemp, fs_mkdtemp. cbv [bind lift ret].
  rewrite Hmk. unfold next_dir in Hwr. rewrite Hwr. reflexivity.
Qed.

(** X11.  When the write into the fresh temp directory fails, a [disk]
    request for a buffer fails with that exception and the directory is
    left behind: the release action that would remove it was never
    returned, and the [cleanup] the request runs is still the empty one. *)
Theorem temp_dir_leaks_when_write_fails (b : bytes) o s e :
  ioMode tm = Disk ->
  reaches_try w tm (MBuffer b) o = true ->
  w_mkdtemp w (created (fs s)) = true ->
  w_writeFile w (next_dir "tmvid-" s ++ "/input") b = Throw e ->
  exists s',
    classifyVideo1 w tm (MBuffer b) o s = (Throw e, s') /\
    dirs (fs s') = {[next_dir "tmvid-" s]} ∪ dirs (fs s) /\
    trace s' = trace s ++ [EvEnsureLocalPath; EvCleanup CleanupNoop true].
Proof.
  intros Hdisk Hg Hmk Hwr.
  destruct (classifyVideo1_unfold w tm (MBuffer b) o s Hg) as (targetH & targetW & E).
  rewrite E. clear E.
  unfold try_finally, video_body, acquire_frames. rewrite Hdisk.
  unfold bind at 1. unfold bind at 1. unfold resolve_disk.
  unfold bind at 1. unfold log at 1, modify at 1.
  unfold bind at 1. unfold ensureLocalPathWithCleanup.
  rewrite (temp_resolved_write_fails b
             (add_event EvEnsureLocalPath (set_vars (init_vars tm) s)) e Hmk Hwr).
  cbv [try_catch cleanup_and_mark bind get call_cleanup run_cleanup assign
       modify ret].
  simpl. eexists. split; [reflexivity|]. simpl. split; [reflexivity|].
  rewrite <- app_assoc. reflexivity.
Qed.

End TempLeak.

(** ** The [io] report of a video result *)
Section IoReport.
Import Samples Notions TM Ffmpeg.
Variable w : world.
Variable tm : classifier.

Lemma same_vars_refl s : same_vars s s.
Proof. reflexivity. Qed.

Lemma same_vars_trans s1 s2 s3 :
  same_vars s1 s2 -> same_vars s2 s3 -> same_vars s1 s3.
Proof. unfold same_vars. congruence. Qed.

Lemma same_mode_refl s : same_mode s s.
Proof. repeat split. Qed.

Lemma same_mode_trans s1 s2 s3 :
  same_mode s1 s2 -> same_mode s2 s3 -> same_mode s1 s3.
Proof. intros (? & ? & ?) (? & ? & ?). repeat split; congruence. Qed.

Lemma quiet_same_vars s s' : quiet s s' -> same_vars s s'.
Proof. intros (_ & Hv). exact Hv. Qed.

Lemma same_vars_same_mode s s' : same_vars s s' -> same_mode s s'.
Proof. unfold same_vars, same_mode. intros ->. repeat split. Qed.

Hint Resolve same_vars_refl same_vars_trans same_mode_refl same_mode_trans
  : respects.

Lemma log_same_vars e : respects same_vars (log e).
Proof. apply respects_modify. intros s. reflexivity. Qed.

Lemma extract_first_same_vars src frames d stamps conc :
  respects same_vars (extract_first w src frames d stamps conc).
Proof.
  unfold extract_first.
  repeat (respects_step; eauto using log_same_vars with respects).
  - eapply respects_weaken; [apply quiet_same_vars|].
    apply extractFramesAutoFromBuffer_quiet.
  - eapply respects_weaken; [apply quiet_same_vars|].
    apply extractFrames_quiet.
Qed.

Lemma assign_same_mode f :
  (forall v, usedMode (f v) = usedMode v /\
             fallbackToDisk (f v) = fallbackToDisk v /\
             tempCleaned (f v) = tempCleaned v) ->
  respects same_mode (assign f).
Proof. intros Hf. apply respects_modify. intros s. apply Hf. Qed.

Lemma resolve_disk_same_mode videoUrl maxBytes :
  respects same_mode (resolve_disk w videoUrl maxBytes).
Proof.
  assert (forall A (m : M A), respects quiet m -> respects same_mode m) as Hq.
  { intros A m. apply respects_weaken. intros s s' H.
    apply same_vars_same_mode, quiet_same_vars, H. }
  assert (forall e, respects same_mode (log e)) as Hlog.
  { intros e. eapply respects_weaken; [apply same_vars_same_mode|].
    apply log_same_vars. }
  unfold resolve_disk, size_check.
  repeat (respects_step; eauto with respects);
    try (apply Hlog);
    try (apply Hq; apply ensureLocalPathWithCleanup_quiet);
    try (apply assign_same_mode; intros v; repeat split).
Qed.

(** The acquisition in [ram] mode records the size of the buffer and lets
    the request go on only if the size passes the ceiling. *)
Lemma resolve_ram_report videoUrl maxBytes s ds s1 :
  resolve_ram w videoUrl maxBytes s = (Ok ds, s1) ->
  exists n, vars s1 = set_sizeBytes n (vars s) /\ 0 <= n /\
            (maxBytes <> 0 -> n <= maxBytes).
Proof.
  cbv [resolve_ram bind log modify]. rewrite getMediaBuffer_state.
  destruct (fst (getMediaBuffer w videoUrl fresh)) as [buf|e]; [|discriminate].
  cbv [size_check assign modify bind get throw ret]. simpl.
  destruct (negb (maxBytes =? 0) && (maxBytes <? Z.of_nat (length buf)))
    eqn:E; [discriminate|].
  intros H. inversion H. subst. exists (Z.of_nat (length buf)).
  split; [reflexivity|]. split; [lia|]. intros Hnz.
  apply andb_false_iff in E. destruct E as [E|E]; lia.
Qed.

(** The two ways out of the fallback block: nothing assigned, or the mode
    switched from [ram] to [disk] with the fallback recorded. *)
Lemma fallback_report videoUrl stamps conc fb s r s' :
  fallback w videoUrl stamps conc fb s = (r, s') ->
  (vars s' = vars s /\ (is_ok r = true -> usedMode (vars s) = Ram -> fb <> [])) \/
  (usedMode (vars s) = Ram /\ fb = [] /\
   (is_ok r = true ->
    usedMode (vars s') = Disk /\ fallbackToDisk (vars s') = true /\
    tempCleaned (vars s') = tempCleaned (vars s))).
Proof.
  intros H. unfold fallback in H.
  unfold bind at 1, get at 1 in H.
  destruct (usedMode (vars s)) eqn:Em; [destruct fb as [|b fb]|].
  - right. split; [reflexivity|]. split; [reflexivity|]. intros Hok.
    destruct r as [v|e]; [|discriminate].
    destruct (fallback_ram_empty_ok w videoUrl stamps conc s v s' Em) as (Hm & Hf & _).
    { unfold fallback. unfold bind at 1, get at 1. rewrite Em. exact H. }
    split; [exact Hm|]. split; [exact Hf|].
    unfold bind at 1, log at 1, modify at 1 in H.
    apply bind_ok_inv in H. destruct H as (loc & sa & Hloc & H).
    apply ensureLocalPathWithCleanup_quiet in Hloc. destruct Hloc as (_ & Hv).
    unfold bind at 1, assign at 1, modify at 1 in H.
    unfold bind at 1, assign at 1, modify at 1 in H.
    apply try_finally_inv in H. destruct H as (rb & sb & rf & Hb & Hf' & _).
    unfold bind at 1, log at 1, modify at 1 in Hb.
    apply bind_inv in Hb. destruct Hb as [(x & sc & Hx & Hb)|(e & Hx & _)].
    + apply extractFrames_quiet in Hx. destruct Hx as (_ & Hvx).
      cbv [bind get assign modify ret] in Hb. inversion Hb. subst. clear Hb.
      unfold call_cleanup in Hf'.
      destruct (run_cleanup (release loc) _) as [[u|e] sd] eqn:Er;
        apply run_cleanup_quiet in Er; destruct Er as (_ & Hvr);
        inversion Hf'; subst; simpl in *; rewrite Hvr; simpl; rewrite Hvx;
        simpl; rewrite Hv; reflexivity.
    + apply extractFrames_quiet in Hx. destruct Hx as (_ & Hvx).
      unfold call_cleanup in Hf'.
      destruct (run_cleanup (release loc) _) as [[u|e'] sd] eqn:Er;
        apply run_cleanup_quiet in Er; destruct Er as (_ & Hvr);
        inversion Hf'; subst; simpl in *; rewrite Hvr, Hvx;
        simpl; rewrite Hv; reflexivity.
  - left. inversion H. subst. split; [reflexivity|]. intros _ _. discriminate.
  - left. inversion H. subst. split; [reflexivity|]. intros _ Hc. discriminate.
Qed.

(** The report variables after a completed acquisition that started from
    their initial values. *)
Lemma acquire_frames_report videoUrl o frames s sf s1 :
  usedMode (vars s) = ioMode tm ->
  fallbackToDisk (vars s) = false ->
  acquire_frames w tm videoUrl o frames s = (Ok sf, s1) ->
  tempCleaned (vars s1) = tempCleaned (vars s) /\
  ((fallbackToDisk (vars s1) = false /\ usedMode (vars s1) = ioMode tm /\
    (ioMode tm = Ram ->
     0 <= sizeBytes (vars s1) /\
     (default (10 * 1024 * 1024) (o_maxBytes o) <> 0 ->
      sizeBytes (vars s1) <= default (10 * 1024 * 1024) (o_maxBytes o)))) \/
   (fallbackToDisk (vars s1) = true /\ ioMode tm = Ram /\
    usedMode (vars s1) = Disk)).
Proof.
  intros Hmode Hfb H. unfold acquire_frames in H.
  apply bind_ok_inv in H. destruct H as (ds & sa & Hres & H).
  destruct (fst ds) as [d|]; [|discriminate].
  destruct (Qeq_bool d 0 || Qle_bool d 0); [discriminate|].
  apply bind_ok_inv in H. destruct H as (fb0 & sb & Hex & H).
  apply bind_ok_inv in H. destruct H as (fb & sc & Hfall & H).
  inversion H. subst sf s1. clear H.
  apply extract_first_same_vars in Hex. unfold same_vars in Hex.
  apply fallback_report in Hfall. rewrite Hex in Hfall.
  destruct (ioMode tm) eqn:Eio.
  - apply resolve_ram_report in Hres. destruct Hres as (n & Hva & Hn0 & Hn).
    destruct Hfall as [(Hv & _)|(_ & _ & Hsw)].
    + rewrite Hv, Hva. simpl. split; [reflexivity|]. left.
      split; [exact Hfb|]. split; [exact Hmode|]. intros _. split; assumption.
    + destruct (Hsw eq_refl) as (Hm & Hf & Ht).
      rewrite Ht, Hva. simpl. split; [reflexivity|]. right. auto.
  - apply resolve_disk_same_mode in Hres. destruct Hres as (Hm & Hf & Ht).
    destruct Hfall as [(Hv & _)|(Hram & _)].
    + rewrite Hv, Hm, Hf, Ht. split; [reflexivity|]. left.
      split; [exact Hfb|]. split; [exact Hmode|]. intros Hc. discriminate.
    + rewrite Hm, Hmode in Hram. discriminate.
Qed.

(** X12.  The [io] block and the [input] block of every returned video
    result: [input] echoes the request with [frames] floored; [io.maxBytes]
    is the ceiling in force; [io.tempCleaned] is always [false], because
    the result object is built before [await cleanup()], although the
    variable is [true] when the call returns; [io.fallbackToDisk] is set
    only by a [ram] instance and then [io.mode] is [disk], and otherwise
    [io.mode] is the mode of the instance; and a [ram] result without
    fallback reports a size within a non-zero ceiling. *)
Theorem returned_io_report videoUrl o s out s' :
  classifyVideo1 w tm videoUrl o s = (Ok out, s') ->
  let maxBytes := default (10 * 1024 * 1024) (o_maxBytes o) in
  vr_input out = videoUrl /\
  vr_frames out = floor_frames (default (Num 10) (o_frames o)) /\
  vr_turboMode out = o_turboMode o /\
  io_maxBytes (vr_io out) = maxBytes /\
  io_tempCleaned (vr_io out) = false /\
  tempCleaned (vars s') = true /\
  (io_fallbackToDisk (vr_io out) = false ->
     io_mode_used (vr_io out) = ioMode tm) /\
  (io_fallbackToDisk (vr_io out) = true ->
     ioMode tm = Ram /\ io_mode_used (vr_io out) = Disk) /\
  (ioMode tm = Ram -> io_fallbackToDisk (vr_io out) = false ->
     0 <= io_sizeBytes (vr_io out) /\
     (maxBytes <> 0 -> io_sizeBytes (vr_io out) <= maxBytes)).
Proof.
  intros H maxBytes.
  pose proof (classifyVideo1_ok_reaches w tm videoUrl o s out s' H) as Hg.
  destruct (classifyVideo1_unfold w tm videoUrl o s Hg) as (targetH & targetW & E).
  rewrite E in H. clear E.
  apply try_finally_inv in H. destruct H as (rb & s1 & rf & Hb & Hf & Hr).
  destruct rf as [u|e]; [|discriminate]. subst rb.
  unfold video_body in Hb.
  apply bind_ok_inv in Hb. destruct Hb as (sf & sa & Hacq & Hsc).
  apply acquire_frames_report in Hacq; [|reflexivity|reflexivity].
  destruct Hacq as (Htc & Hrep). simpl in Htc.
  apply score_frames_inv in Hsc.
  destruct Hsc as [(e & Hc & _)|(agg & fc & results & sb & rc & Htally & Hcm & Hout)];
    [discriminate|].
  apply tally_scoring in Htally. destruct Htally as (Hv & _ & _).
  destruct rc as [u'|e]; [|discriminate].
  inversion Hout. subst out. clear Hout. simpl.
  rewrite Hv.
  apply cleanup_and_mark_inv in Hcm.
  destruct Hcm as [(_ & Hmark & _)|(e & Hc & _)]; [|discriminate].
  assert (tempCleaned (vars s') = true) as Hfin.
  { unfold try_catch in Hf.
    destruct (cleanup_and_mark s1) as [rc s2] eqn:E2.
    apply cleanup_and_mark_inv in E2.
    destruct E2 as [(-> & Hm2 & _)|(e & -> & Hv2 & _)]; inversion Hf; subst.
    - exact Hm2.
    - rewrite Hv2. exact Hmark. }
  repeat (split; [first [reflexivity | assumption]|]).
  destruct Hrep as [(Hf0 & Hm0 & Hsz)|(Hf1 & Hram & Hm1)].
  - split; [intros _; exact Hm0|]. split.
    + intros Hc. rewrite Hf0 in Hc. discriminate.
    + intros Hram _. apply Hsz. exact Hram.
  - split; [intros Hc; rewrite Hf1 in Hc; discriminate|]. split.
    + intros _. auto.
    + intros _ Hc. rewrite Hf1 in Hc. discriminate.
Qed.

End IoReport.

(** ** Scoring the frames: both modes as a function of the score rows *)
Section Rows.
Import Samples Notions TM.
Variable w : world.
Variable tm : classifier.

(** A pool that stores by index returns exactly when every job completes,
    and then with the value of every job at its index. *)
Lemma run_indexed_ok_inv {J R} (exec : J -> outcome R) (jobs : list J) conc sched
    slots :
  Pool.run_indexed exec jobs conc sched = Ok slots ->
  exists vals, Forall2 (fun j v => exec j = Ok v) jobs vals /\
               slots = map Some vals.
Proof.
  intros H.
  assert (Forall (fun job => is_ok (exec job) = true) jobs) as Hall.
  { unfold Pool.run_indexed, Pool.finish in H.
    destruct (Pool.rejected _) as [e|] eqn:E; [discriminate|].
    eapply pool_ok_all_completed. exact E. }
  assert (exists vals, Forall2 (fun j v => exec j = Ok v) jobs vals) as (vals & Hv).
  { clear H. induction Hall as [|job jobs Hj _ IH].
    - exists []. constructor.
    - destruct IH as (vals & Hv). destruct (exec job) as [v|e] eqn:E;
        [|discriminate].
      exists (v :: vals). constructor; assumption. }
  exists vals. split; [exact Hv|].
  rewrite (run_indexed_aligned exec jobs vals Hv) in H. inversion H. reflexivity.
Qed.

Lemma omap_id_Some {A} (l : list A) : omap id (map Some l) = l.
Proof. induction l as [|x l IH]; [reflexivity|]. cbn. rewrite IH. reflexivity. Qed.

(** What [tf.stack] returns is the list it was given. *)
Lemma stack_ok_inv {A} (tensors batch : list A) :
  stack tensors = Ok batch -> batch = tensors.
Proof. destruct tensors; simpl; intros H; [discriminate|]. inversion H. reflexivity. Qed.

(** The sequential loop, from any point on. *)
Lemma frame_loop_rows targetH targetW crop k stamps bufs :
  forall i agg fc results s agg' fc' results' s',
    frame_loop w tm targetH targetW crop k stamps i bufs agg fc results s =
      (Ok (agg', fc', results'), s') ->
    exists tensors rows,
      Forall2 (fun buf t => prepare_tensor w tm buf targetW targetH crop = Ok t)
        bufs tensors /\
      Forall2 (fun t row => exists rest,
                 w_predict w [normalize t] = Ok (row :: rest)) tensors rows /\
      agg' = foldl accumulate agg rows /\
      fc' = (fc + length rows)%nat /\
      results' = results ++ imap (fun j => frame_entry tm k stamps (i + j)) rows.
Proof.
  induction bufs as [|buf rest IH]; intros i agg fc results s agg' fc' results' s' H.
  - inversion H. subst. exists [], [].
    split; [constructor|]. split; [constructor|]. split; [reflexivity|].
    split; [simpl; symmetry; apply Nat.add_0_r|].
    simpl. rewrite app_nil_r. reflexivity.
  - simpl in H.
    apply bind_ok_inv in H. destruct H as (u1 & s1 & _ & H).
    apply bind_ok_inv in H. destruct H as (t & s2 & Ht & H).
    apply bind_ok_inv in H. destruct H as (u2 & s3 & _ & H).
    apply bind_ok_inv in H. destruct H as (probs & s4 & Hp & H).
    destruct probs as [|scores probs]; [discriminate|].
    apply IH in H.
    destruct H as (tensors & rows & Hprep & Hpred & -> & -> & ->).
    unfold Async.lift in Ht, Hp. inversion Ht as [[Ht' Hs2]].
    inversion Hp as [[Hp' Hs4]].
    exists (t :: tensors), (scores :: rows).
    split; [constructor; assumption|].
    split; [constructor; [exists probs; assumption|assumption]|].
    split; [reflexivity|].
    split; [simpl; rewrite Nat.add_succ_r; reflexivity|].
    rewrite <- app_assoc. f_equal. simpl. unfold frame_entry at 2.
    rewrite Nat.add_0_r. f_equal.
    apply imap_ext. intros j row _. simpl.
    f_equal. lia.
Qed.

(** X13.  When scoring returns, in either mode, every frame buffer was
    preprocessed, and the counts, the sums and the per-frame results are
    one function of the score rows: [frameCount] is their number, the sums
    are the rows accumulated onto zeros, and the entry at position [i] of
    [results] has [frameIndex] [i], the [i]-th requested timestamp and
    the ranked predictions of row [i].  The modes differ only in how the
    rows are asked of the engine: one call with all tensors in turbo mode,
    one call per tensor, keeping its first row, otherwise. *)
Theorem tally_rows o targetH targetW stamps bufs s agg fc results s' :
  tally w tm o targetH targetW stamps bufs s = (Ok (agg, fc, results), s') ->
  exists tensors rows,
    Forall2 (fun buf t =>
               prepare_tensor w tm buf targetW targetH (o_centerCrop o) = Ok t)
      bufs tensors /\
    (if o_turboMode o
     then w_predict w (map normalize tensors) = Ok rows
     else Forall2 (fun t row => exists rest,
                     w_predict w [normalize t] = Ok (row :: rest)) tensors rows) /\
    fc = length rows /\
    agg = foldl accumulate (replicate (length (cls tm)) (Some 0%Q)) rows /\
    results = imap (frame_entry tm (clampK (o_topK o) (cls tm)) stamps) rows.
Proof.
  unfold tally. destruct (o_turboMode o).
  - unfold turbo_frames. intros H.
    apply bind_ok_inv in H. destruct H as (u1 & s1 & _ & H).
    apply bind_ok_inv in H. destruct H as (slots & s2 & Hpool & H).
    apply bind_ok_inv in H. destruct H as (batch & s3 & Hst & H).
    apply bind_ok_inv in H. destruct H as (u2 & s4 & _ & H).
    apply bind_ok_inv in H. destruct H as (probs & s5 & Hp & H).
    unfold Async.lift in Hpool, Hst, Hp.
    inversion Hpool as [[Hpool' Hs2]]. inversion Hst as [[Hst' Hs3]].
    inversion Hp as [[Hp' Hs5]].
    apply run_indexed_ok_inv in Hpool'. destruct Hpool' as (tensors & Hprep & ->).
    rewrite omap_id_Some in Hst'. apply stack_ok_inv in Hst'.
    rewrite Hst' in Hp'.
    inversion H. subst. exists tensors, probs.
    split; [exact Hprep|]. split; [exact Hp'|]. repeat split.
  - intros H. apply frame_loop_rows in H.
    destruct H as (tensors & rows & Hprep & Hpred & -> & -> & ->).
    exists tensors, rows. split; [exact Hprep|]. split; [exact Hpred|].
    repeat split.
Qed.

End Rows.

(** ** Image predictions and frame predictions *)
Section ImageRanking.
Import Samples Notions TM.
Variable w : world.
Variable tm : classifier.

(** On one row the top-k operator followed by the pairing of
    [getTopKClasses] and the ranks of [_decodeAndPredict] gives what the
    sort of [classifyVideo] gives. *)
Lemma ranked_top_is_frame_predictions (row : list Q) topK top :
  getTopKClasses [row] (cls tm) topK = Ok top ->
  0 <= clampK topK (cls tm) <= Z.of_nat (length row) /\
  imap (fun idx p => {| class := fst p; score := snd p;
                        rank := Z.of_nat idx + 1 |}) top
    = frame_predictions tm (clampK topK (cls tm)) row.
Proof.
  rewrite getTopKClasses_row. unfold topk_row.
  destruct (clampK topK (cls tm) <? 0) eqn:E1; [discriminate|].
  destruct (Z.of_nat (length row) <? clampK topK (cls tm)) eqn:E2;
    [discriminate|].
  simpl. intros H. inversion H. subst top. clear H. split; [lia|].
  unfold frame_predictions, slice0. rewrite E1.
  apply list_eq. intros j. rewrite !list_lookup_imap.
  destruct (take (Z.to_nat (clampK topK (cls tm))) (order_desc (map Some row)) !! j)
    as [i|] eqn:Ej; simpl; [|reflexivity].
  f_equal. f_equal.
  change (map ?f ?l !! j) with ((f <$> l) !! j).
  rewrite list_lookup_fmap, Ej. reflexivity.
Qed.

(** X14.  A returned image inference has preprocessed the buffer and
    asked the engine once; when the engine answers with one row, the
    predictions are exactly those a video frame with that row gets: the
    first [K] columns by descending score, ties by ascending column, with
    ranks from 1, and then [0 <= K <= W]. *)
Theorem image_predictions_rank_like_frames imageBuffer topK crop preds :
  decodeAndPredict w tm imageBuffer topK crop = Ok preds ->
  exists targetH targetW t rows,
    shapeH (tm_model tm) = Some targetH /\ shapeW (tm_model tm) = Some targetW /\
    prepare_tensor w tm imageBuffer targetW targetH crop = Ok t /\
    w_predict w [normalize t] = Ok rows /\
    forall row, rows = [row] ->
      0 <= clampK topK (cls tm) <= Z.of_nat (length row) /\
      preds = frame_predictions tm (clampK topK (cls tm)) row.
Proof.
  unfold decodeAndPredict. intros H.
  destruct (shapeH (tm_model tm)) as [targetH|]; [|discriminate].
  destruct (shapeW (tm_model tm)) as [targetW|]; [|discriminate].
  destruct (prepare_tensor w tm imageBuffer targetW targetH crop) as [t|e] eqn:Et;
    [|discriminate].
  simpl in H.
  destruct (w_predict w [normalize t]) as [rows|e] eqn:Ep; [|discriminate].
  simpl in H.
  destruct (getTopKClasses rows (cls tm) topK) as [top|e] eqn:Eg; [|discriminate].
  simpl in H. inversion H. subst preds. clear H.
  exists targetH, targetW, t, rows.
  split; [reflexivity|]. split; [reflexivity|]. split; [exact Et|].
  split; [exact Ep|]. intros row ->.
  destruct (ranked_top_is_frame_predictions row topK top Eg) as (Hk & Heq).
  split; [exact Hk|exact Heq].
Qed.

End ImageRanking.

(** ** Sources that look like base64 *)
Section Base64Names.
Import Samples Notions Ffmpeg.
Variable w : world.

Lemma all_base64_no_colon (pre rest : string) :
  Str.all_base64 (pre ++ String ":"%char rest) = false.
Proof.
  induction pre as [|c pre IH]; simpl.
  - reflexivity.
  - rewrite IH. apply andb_false_r.
Qed.

Lemma prefix_split (p s : string) :
  String.prefix p s = true -> exists rest, s = (p ++ rest)%string.
Proof.
  revert s. induction p as [|a p IH]; intros s H.
  - exists s. reflexivity.
  - destruct s as [|b s]; [discriminate|]. simpl in H.
    destruct (ascii_dec a b) as [->|]; [|discriminate].
    destruct (IH s H) as (rest & ->). exists rest. reflexivity.
Qed.

(** A string of base64 characters is not empty and is no data URI. *)
Lemma looksBase64_plain (s : string) :
  Str.looksBase64 s = true ->
  String.eqb s "" = false /\ Str.startsWith "data:" s = false /\
  Str.startsWith "data:image/" s = false.
Proof.
  unfold Str.looksBase64. intros H.
  apply andb_prop in H. destruct H as [H _].
  apply andb_prop in H. destruct H as [Hne Hall].
  split; [apply negb_true_iff; exact Hne|].
  split.
  - destruct (Str.startsWith "data:" s) eqn:E; [|reflexivity].
    apply prefix_split in E. destruct E as (rest & ->).
    change ("data:" ++ rest)%string with ("data" ++ String ":"%char rest)%string in Hall.
    rewrite all_base64_no_colon in Hall. discriminate.
  - destruct (Str.startsWith "data:image/" s) eqn:E; [|reflexivity].
    apply prefix_split in E. destruct E as (rest & ->).
    change ("data:image/" ++ rest)%string
      with ("data" ++ String ":"%char ("image/" ++ rest))%string in Hall.
    rewrite all_base64_no_colon in Hall. discriminate.
Qed.

(** X15.  A source string made of base64 characters, of a length that is a
    multiple of four and not starting with [http], is never opened as a
    file by the video path: [getMediaBuffer] returns its base64 decoding
    without touching the file system or the network, and
    [ensureLocalPathWithCleanup] resolves it to a temp file holding that
    decoding.  The image path treats the same string the other way round:
    [getImageBuffer] reads the file of that name and decodes the string
    only if the read fails. *)
Theorem base64_looking_source (s : string) :
  Str.looksBase64 s = true ->
  Str.startsWith "http" s = false ->
  (forall st, getMediaBuffer w (MString s) st = (Ok (w_base64 w s), st)) /\
  (forall st,
     w_mkdtemp w (created (fs st)) = true ->
     w_writeFile w (next_dir "tmvid-" st ++ "/input") (w_base64 w s) = Ok tt ->
     exists st',
       ensureLocalPathWithCleanup w (MString s) st =
         (Ok {| path := (next_dir "tmvid-" st ++ "/input")%string;
                release := CleanupRm (Some (next_dir "tmvid-" st)) |}, st') /\
       dirs (fs st') = {[next_dir "tmvid-" st]} ∪ dirs (fs st)) /\
  Preprocess.getImageBuffer w (MString s) =
    match w_readFile w s with
    | Ok b => Ok b
    | Throw _ => Ok (w_base64 w s)
    end.
Proof.
  intros Hb Hh.
  destruct (looksBase64_plain s Hb) as (Hne & Hd & Hdi).
  split; [|split].
  - intros st. unfold getMediaBuffer. rewrite Hne, Hh, Hd, Hb. reflexivity.
  - intros st Hmk Hwr. unfold ensureLocalPathWithCleanup.
    rewrite Hne, Hh, Hd, Hb.
    unfold try_catch, temp_resolved, writeTemp, fs_mkdtemp.
    cbv [Async.bind Async.lift Async.ret]. rewrite Hmk.
    unfold next_dir in Hwr. rewrite Hwr.
    eexists. split; reflexivity.
  - unfold Preprocess.getImageBuffer. rewrite Hne, Hdi, Hh.
    destruct (w_readFile w s); [reflexivity|]. rewrite Hb. reflexivity.
Qed.

End Base64Names.

(** ** Splitting the PNG stream *)
Section Png.
Import PngStream.

Lemma same_byte_eq (a b : option Byte.byte) : same_byte a b = true <-> a = b.
Proof.
  destruct a as [x|], b as [y|]; simpl; split; intros H;
    try discriminate; try reflexivity.
  - f_equal. apply Byte.byte_dec_bl. exact H.
  - inversion H. subst. apply Byte.byte_dec_lb. reflexivity.
Qed.

Lemma sig_at_take (all : list Byte.byte) (i : nat) :
  sig_at all i = true <-> take 8 (drop i all) = sig.
Proof.
  unfold sig_at. rewrite forallb_forall. split.
  - intros H. apply list_eq. intros j.
    destruct (decide (j < 8)%nat) as [Hj|Hj].
    + rewrite lookup_take_lt by exact Hj. rewrite lookup_drop.
      apply same_byte_eq. apply H. apply in_seq. simpl. lia.
    + rewrite lookup_take_ge by lia.
      symmetry. apply lookup_ge_None. simpl. lia.
  - intros H j Hj. apply in_seq in Hj. simpl in Hj.
    apply same_byte_eq. rewrite <- H.
    unfold bytes in *.
    rewrite lookup_take_lt by lia. rewrite lookup_drop. reflexivity.
Qed.

(** The signature does not overlap itself: its first byte occurs nowhere
    else in it. *)
Lemma sig_no_overlap (all : list Byte.byte) (i j : nat) :
  sig_at all i = true -> sig_at all j = true -> (i < j)%nat -> (i + 8 <= j)%nat.
Proof.
  intros Hi Hj Hlt.
  destruct (decide (i + 8 <= j)%nat) as [|Hn]; [assumption|exfalso].
  apply sig_at_take in Hi. apply sig_at_take in Hj.
  assert (all !! j = Some Byte.x89) as H0.
  { replace j with (j + 0)%nat by lia. rewrite <- lookup_drop.
    rewrite <- (lookup_take_lt _ 8) by lia. rewrite Hj. reflexivity. }
  assert (all !! j = sig !! (j - i)%nat) as Hd.
  { replace j with (i + (j - i))%nat at 1 by lia. rewrite <- lookup_drop.
    rewrite <- (lookup_take_lt _ 8) by lia. rewrite Hi. reflexivity. }
  rewrite H0 in Hd.
  assert (exists d, (j - i = S d)%nat /\ (d < 7)%nat) as (d & Ed & Hd7).
  { exists (j - i - 1)%nat. lia. }
  rewrite Ed in Hd.
  do 7 (destruct d as [|d]; [discriminate|]). lia.
Qed.

Lemma idxs_spec (all : list Byte.byte) (i : nat) :
  In i (idxs all) <-> (i + 8 <= length all)%nat /\ sig_at all i = true.
Proof.
  unfold idxs. rewrite filter_In, in_seq. simpl. split.
  - intros ([_ H] & Hs). split; [lia|exact Hs].
  - intros (H & Hs). split; [lia|exact Hs].
Qed.

Lemma filter_seq_sorted (f : nat -> bool) (a n : nat) :
  StronglySorted lt (List.filter f (seq a n)).
Proof.
  revert a. induction n as [|n IH]; intros a; simpl; [constructor|].
  destruct (f a).
  - constructor; [apply IH|].
    apply List.Forall_forall. intros x Hx. apply filter_In in Hx.
    destruct Hx as [Hx _]. apply in_seq in Hx. lia.
  - apply IH.
Qed.

(** Two offsets next to each other in [idxs], or the last one and the end
    of the stream, are at least a signature apart. *)
Lemma outs_start (all : list Byte.byte) (l : list nat) :
  StronglySorted lt l ->
  (forall i, In i l -> (i + 8 <= length all)%nat /\ sig_at all i = true) ->
  Forall (fun o => take 8 o = sig) (outs all l).
Proof.
  intros Hs Hin. induction Hs as [|start rest Hs IH Hall]; simpl; [constructor|].
  constructor.
  - destruct (Hin start (or_introl eq_refl)) as (Hlen & Hsig).
    unfold JS.slice. rewrite take_take.
    assert (8 <= match rest with
                 | [] => length all
                 | next :: _ => next
                 end - start)%nat as Hgap.
    { destruct rest as [|next rest']; [lia|].
      destruct (Hin next (or_intror (or_introl eq_refl))) as (_ & Hnext).
      pose proof (Forall_inv Hall) as Hlt.
      pose proof (sig_no_overlap all start next Hsig Hnext Hlt). lia. }
    rewrite Nat.min_l by exact Hgap. apply sig_at_take. exact Hsig.
  - apply IH. intros i Hi. apply Hin. right. exact Hi.
Qed.

Lemma outs_length (all : list Byte.byte) (l : list nat) : length (outs all l) = length l.
Proof. induction l as [|i l IH]; simpl; [reflexivity|]. rewrite IH. reflexivity. Qed.

(** The slices tile the stream from the first offset on. *)
Lemma outs_concat (all : list Byte.byte) (l : list nat) :
  StronglySorted lt l ->
  (forall i, In i l -> (i <= length all)%nat) ->
  concat (outs all l) = match l with
                       | [] => []
                       | start :: _ => drop start all
                       end.
Proof.
  intros Hs Hin. induction Hs as [|start rest Hs IH Hall]; [reflexivity|].
  simpl. rewrite IH by (intros i Hi; apply Hin; right; exact Hi).
  unfold JS.slice. destruct rest as [|next rest'].
  - rewrite app_nil_r. apply take_ge. rewrite length_drop. lia.
  - pose proof (Forall_inv Hall) as Hlt.
    replace (drop next all) with (drop (next - start) (drop start all)).
    + apply take_drop.
    + rewrite drop_drop. f_equal. lia.
Qed.

Lemma filter_none {A} (f : A -> bool) (l : list A) :
  (forall x, In x l -> f x = false) -> List.filter f l = [].
Proof.
  induction l as [|x l IH]; intros H; [reflexivity|]. simpl.
  rewrite (H x (or_introl eq_refl)). apply IH. intros y Hy. apply H. right. exact Hy.
Qed.

(** A slice that starts at a signature and ends before the next one holds
    the signature at its start and nowhere else. *)
Lemma slice_single_sig (all : list Byte.byte) (start e : nat) :
  (start + 8 <= e)%nat -> (e <= length all)%nat ->
  sig_at all start = true ->
  (forall d, (0 < d)%nat -> (start + d + 8 <= e)%nat ->
             sig_at all (start + d) = false) ->
  idxs (JS.slice all start e) = [0%nat].
Proof.
  intros Hgap He Hsig Hnone. unfold idxs.
  assert (length (JS.slice all start e) = (e - start)%nat) as Hlen.
  { unfold JS.slice. rewrite length_take, length_drop. lia. }
  assert (forall d, (d + 8 <= e - start)%nat ->
            sig_at (JS.slice all start e) d = sig_at all (start + d)) as Hat.
  { intros d Hd.
    destruct (sig_at all (start + d)) eqn:E.
    - apply sig_at_take. apply sig_at_take in E. rewrite <- E.
      unfold JS.slice. rewrite skipn_firstn_comm, take_take, drop_drop.
      f_equal. lia.
    - destruct (sig_at (JS.slice all start e) d) eqn:E'; [|reflexivity].
      apply sig_at_take in E'. rewrite <- E. symmetry. apply sig_at_take.
      rewrite <- E'. unfold JS.slice.
      rewrite skipn_firstn_comm, take_take, drop_drop. f_equal. lia. }
  rewrite Hlen. simpl.
  replace (e - start + 1 - 8)%nat with (S (e - start - 8)) by lia.
  simpl. rewrite (Hat 0%nat) by lia. rewrite Nat.add_0_r, Hsig. f_equal.
  apply filter_none. intros d Hd. apply in_seq in Hd.
  rewrite Hat by lia. apply Hnone; lia.
Qed.

Lemma outs_single (all : list Byte.byte) (l : list nat) :
  StronglySorted lt l ->
  forall lo,
    (forall i, In i l -> (lo <= i)%nat) ->
    (forall i, In i l -> (i + 8 <= length all)%nat /\ sig_at all i = true) ->
    (forall i, (i + 8 <= length all)%nat -> sig_at all i = true ->
               (lo <= i)%nat -> In i l) ->
    Forall (fun o => idxs o = [0%nat]) (outs all l).
Proof.
  intros Hs. induction Hs as [|start rest Hs IH Hall]; intros lo Hlo Hin Hfull;
    simpl; [constructor|].
  destruct (Hin start (or_introl eq_refl)) as (Hlen & Hsig).
  pose proof (Hlo start (or_introl eq_refl)) as Hlos.
  rewrite List.Forall_forall in Hall.
  constructor.
  - apply slice_single_sig.
    + destruct rest as [|next rest']; [lia|].
      destruct (Hin next (or_intror (or_introl eq_refl))) as (_ & Hnext).
      apply (sig_no_overlap all start next Hsig Hnext).
      apply Hall. left. reflexivity.
    + destruct rest as [|next rest']; [lia|].
      destruct (Hin next (or_intror (or_introl eq_refl))) as (Hn & _). lia.
    + exact Hsig.
    + intros d Hd Hfit.
      destruct (sig_at all (start + d)) eqn:E; [exfalso|reflexivity].
      assert (In (start + d)%nat (start :: rest)) as Hmem.
      { apply Hfull; [|exact E|lia].
        destruct rest as [|next rest']; [lia|].
        destruct (Hin next (or_intror (or_introl eq_refl))) as (Hn & _). lia. }
      destruct Hmem as [Heq|Hmem]; [lia|].
      destruct rest as [|next rest']; [inversion Hmem|].
      assert (next <= start + d)%nat; [|lia].
      destruct Hmem as [<-|Hmem]; [lia|].
      inversion Hs as [|? ? _ Hnext]. rewrite List.Forall_forall in Hnext.
      specialize (Hnext _ Hmem). lia.
  - apply (IH (S start)).
    + intros i Hi. specialize (Hall i Hi). lia.
    + intros i Hi. apply Hin. right. exact Hi.
    + intros i Hi Hsi Hge.
      destruct (Hfull i Hi Hsi) as [Heq|Hmem]; [lia|lia|exact Hmem].
Qed.

(** X16.  The splitting of the PNG stream in [extractFramesAutoFromBuffer]:
    with [n] occurrences of the PNG signature in the output of FFmpeg and
    [frames >= 0], it returns [min(frames, n)] buffers; each begins with
    the signature and holds no other occurrence of it; put end to end they
    are a prefix of the stream from its first signature on, and all of it
    when [n <= frames].  Bytes ahead of the first signature are dropped. *)
Theorem split_pngs_frames (all : list Byte.byte) (frames : Z) :
  0 <= frames ->
  let found := split_pngs all frames in
  length found = Nat.min (Z.to_nat frames) (length (idxs all)) /\
  Forall (fun o => take 8 o = sig /\ idxs o = [0%nat]) found /\
  concat found `prefix_of` drop (default 0%nat (head (idxs all))) all /\
  (Z.of_nat (length (idxs all)) <= frames -> idxs all <> [] ->
   concat found = drop (default 0%nat (head (idxs all))) all).
Proof.
  intros Hf found.
  assert (StronglySorted lt (idxs all)) as Hsorted by apply filter_seq_sorted.
  assert (forall i, In i (idxs all) ->
            (i + 8 <= length all)%nat /\ sig_at all i = true) as Hvalid.
  { intros i. apply idxs_spec. }
  assert (found = take (Z.to_nat frames) (outs all (idxs all))) as ->.
  { unfold found, split_pngs, JS.slice0.
    assert ((frames <? 0) = false) as -> by lia.
    destruct (length all =? 0)%nat eqn:E; [|reflexivity].
    apply Nat.eqb_eq in E. unfold idxs. rewrite E. simpl.
    rewrite take_nil. reflexivity. }
  assert (concat (outs all (idxs all)) =
          match idxs all with
          | [] => []
          | start :: _ => drop start all
          end) as Hcat.
  { apply outs_concat; [exact Hsorted|].
    intros i Hi. destruct (Hvalid i Hi). lia. }
  split; [|split; [|split]].
  - rewrite length_take, outs_length. reflexivity.
  - apply Forall_take. apply Forall_and. split.
    + apply outs_start; assumption.
    + apply (outs_single all (idxs all) Hsorted 0%nat).
      * intros i _. lia.
      * exact Hvalid.
      * intros i Hi Hs _. apply idxs_spec. auto.
  - destruct (idxs all) as [|start rest] eqn:E.
    + simpl. rewrite take_nil. apply prefix_nil.
    + exists (concat (drop (Z.to_nat frames) (outs all (start :: rest)))).
      rewrite <- concat_app, take_drop, Hcat. reflexivity.
  - intros Hn Hne. rewrite take_ge by (rewrite outs_length; lia).
    rewrite Hcat. destruct (idxs all); [contradiction|reflexivity].
Qed.

End Png.

(** ** The entries of an image batch *)
Section BatchEntries.
Import Samples Notions TM.
Variable w : world.
Variable tm : classifier.
Variables (topK : option Z) (crop : bool).
Hypothesis engine : rowwise w.

Lemma mapM_Forall2 {A B} (f : A -> outcome B) (l : list A) ys :
  mapM f l = Ok ys -> Forall2 (fun x y => f x = Ok y) l ys.
Proof.
  revert ys. induction l as [|x l IH]; intros ys H; simpl in H.
  - inversion H. constructor.
  - apply obind_ok_inv in H. destruct H as (y & Hy & H).
    apply obind_ok_inv in H. destruct H as (ys' & Hys & H).
    inversion H. subst. constructor; [exact Hy|apply IH; exact Hys].
Qed.

(** A pair of a chunk names an input of the chunk and holds the outcome
    of its acquisition. *)
Lemma chunk_pair urls (p : nat * outcome Env.bytes) :
  p ∈ imap (fun i r => (i, r)) (map (Preprocess.getImageBuffer w) urls) ->
  exists u, urls !! fst p = Some u /\ snd p = Preprocess.getImageBuffer w u.
Proof.
  intros H. apply elem_of_lookup_imap in H. destruct H as (i & r & -> & Hr).
  change (map ?f ?l !! i) with ((f <$> l) !! i) in Hr.
  rewrite list_lookup_fmap in Hr.
  destruct (urls !! i) as [u|] eqn:E; [|discriminate].
  inversion Hr. exists u. simpl. auto.
Qed.

Lemma push_successes_entries urls vals inds okPairs :
  forall row results results',
    push_successes tm urls vals inds row okPairs results = Ok results' ->
    exists entries,
      results' = results ++ entries /\
      Forall2 (fun q e => success_entry tm urls vals inds (fst q) (snd q) = Ok e)
        (imap (fun j p => ((row + j)%nat, p)) okPairs) entries.
Proof.
  induction okPairs as [|p rest IH]; intros row results results' H.
  - inversion H. exists []. rewrite app_nil_r. split; [reflexivity|constructor].
  - simpl in H. apply obind_ok_inv in H. destruct H as (e & He & H).
    apply IH in H. destruct H as (entries & -> & Hall).
    exists (e :: entries). split; [rewrite <- app_assoc; reflexivity|].
    rewrite imap_cons. constructor.
    + simpl. rewrite Nat.add_0_r. exact He.
    + erewrite imap_ext; [exact Hall|].
      intros j q _. simpl. f_equal. lia.
Qed.

(** One row of a batch, put next to the single-image request for the
    input of that row. *)
Lemma success_is_single targetH targetW urls vals inds r idx u buf t row v i e :
  shapeH (tm_model tm) = Some targetH ->
  shapeW (tm_model tm) = Some targetW ->
  urls !! idx = Some u ->
  Preprocess.getImageBuffer w u = Ok buf ->
  prepare_tensor w tm buf targetW targetH crop = Ok t ->
  w_predict w [normalize t] = Ok [row] ->
  topk_row (clampK topK (cls tm)) row = Ok (v, i) ->
  vals !! r = Some v -> inds !! r = Some i ->
  success_entry tm urls vals inds r (idx, Ok buf) = Ok e ->
  single_result w tm topK crop e.
Proof.
  intros HH HW Hu Hbuf Ht Hp Hk Hv Hi He.
  unfold success_entry in He. rewrite Hi in He. simpl in He. rewrite Hu in He.
  simpl in He. inversion He. subst e. clear He.
  unfold single_result. simpl.
  unfold classifyImage. rewrite Hbuf. simpl.
  unfold decodeAndPredict. rewrite HH, HW, Ht. simpl. rewrite Hp. simpl.
  rewrite getTopKClasses_row, Hk. simpl.
  do 3 f_equal.
  apply list_eq. intros j. rewrite !list_lookup_imap.
  destruct (i !! j) as [c|]; simpl; [|reflexivity].
  rewrite Hv. reflexivity.
Qed.

(** Every entry a chunk appends is the single-image result of its input. *)
Lemma processChunk_entries targetH targetW urls results results' :
  shapeH (tm_model tm) = Some targetH ->
  shapeW (tm_model tm) = Some targetW ->
  processChunk w tm targetH targetW topK crop urls results = Ok results' ->
  Forall (single_result w tm topK crop) results ->
  Forall (single_result w tm topK crop) results'.
Proof.
  intros HH HW H Hold. unfold processChunk in H.
  apply obind_ok_inv in H. destruct H as (tensors & Ht & H).
  apply obind_ok_inv in H. destruct H as (batch & Hst & H).
  apply stack_ok_inv in Hst. subst batch.
  apply obind_ok_inv in H. destruct H as (logits & Hp & H).
  apply obind_ok_inv in H. destruct H as (vi & Hk & H).
  apply mapM_Forall2 in Ht. apply engine in Hp.
  unfold topk in Hk. apply obind_ok_inv in Hk. destruct Hk as (rows & Hrows & Hvi).
  assert (forall j v i q e,
            rows !! j = Some (v, i) ->
            success_entry tm urls (fst vi) (snd vi) j q = Ok e ->
            fst vi !! j = Some v /\ snd vi !! j = Some i) as Hrow_of.
  { intros j v i q e Hj Hs.
    destruct (clampK topK (cls tm) =? 0); inversion Hvi; subst vi; simpl in *.
    - unfold success_entry in Hs. rewrite lookup_nil in Hs. discriminate.
    - split; change (map ?f ?l !! j) with ((f <$> l) !! j);
        rewrite list_lookup_fmap, Hj; reflexivity. }
  clear Hvi.
  apply mapM_Forall2 in Hrows.
  apply push_successes_entries in H. destruct H as (entries & -> & Hent).
  apply Forall_app. split; [apply Forall_app; split; [exact Hold|]|].
  - apply Forall_forall. intros e He.
    apply list_elem_of_In, in_map_iff in He. destruct He as (p & <- & Hp').
    apply list_elem_of_In, list_elem_of_filter in Hp'. destruct Hp' as [Hfail Hin].
    apply chunk_pair in Hin. destruct Hin as (u & Hu & Hsnd).
    unfold single_result, failure_entry. simpl. rewrite Hu. simpl.
    destruct (snd p) as [b|msg] eqn:E; [discriminate|].
    simpl. split; [symmetry; exact Hsnd|reflexivity].
  - apply Forall_lookup. intros j e He.
    destruct (Forall2_lookup_r _ _ _ _ _ Hent He) as (q & Hq & Hsucc).
    rewrite list_lookup_imap in Hq.
    destruct (filter (fun x : nat * outcome Env.bytes => is_ok (snd x) = true)
                (imap (fun i r => (i, r))
                   (map (Preprocess.getImageBuffer w) urls)) !! j)
      as [p|] eqn:Ep; [|discriminate].
    simpl in Hq. inversion Hq. subst q. clear Hq. simpl in Hsucc.
    pose proof (list_elem_of_lookup_2 _ _ _ Ep) as Hin.
    apply list_elem_of_filter in Hin. destruct Hin as [Hok Hin].
    apply chunk_pair in Hin. destruct Hin as (u & Hu & Hsnd).
    destruct p as [idx [buf|msg]]; [|discriminate]. simpl in *.
    assert (map pair_buf
              (filter (fun x : nat * outcome Env.bytes => is_ok (snd x) = true)
                 (imap (fun i r => (i, r))
                    (map (Preprocess.getImageBuffer w) urls))) !! j = Some buf)
      as Hb.
    { change (map ?f ?l !! j) with ((f <$> l) !! j).
      rewrite list_lookup_fmap, Ep. reflexivity. }
    destruct (Forall2_lookup_l _ _ _ _ _ Ht Hb) as (t & Htj & Hprep).
    assert (map normalize tensors !! j = Some (normalize t)) as Hn.
    { change (map ?f ?l !! j) with ((f <$> l) !! j).
      rewrite list_lookup_fmap, Htj. reflexivity. }
    destruct (Forall2_lookup_l _ _ _ _ _ Hp Hn) as (row & Hrow & Hsingle).
    destruct (Forall2_lookup_l _ _ _ _ _ Hrows Hrow) as ([v i] & Hvi & Htop).
    destruct (Hrow_of j v i _ e Hvi Hsucc) as (Hv & Hi).
    eapply (success_is_single targetH targetW urls (fst vi) (snd vi)
              j idx u buf t row v i e); eauto.
Qed.

Lemma chunk_loop_entries targetH targetW imageUrls batchSize :
  shapeH (tm_model tm) = Some targetH ->
  shapeW (tm_model tm) = Some targetW ->
  forall fuel i results results',
    chunk_loop w tm fuel i batchSize targetH targetW topK crop imageUrls results
      = Ok results' ->
    Forall (single_result w tm topK crop) results ->
    Forall (single_result w tm topK crop) results'.
Proof.
  intros HH HW. induction fuel as [|fuel IH]; intros i results results' H Hold;
    simpl in H.
  - inversion H. subst. exact Hold.
  - destruct (i <? length imageUrls)%nat.
    + apply obind_ok_inv in H. destruct H as (mid & Hc & H).
      eapply IH; [exact H|].
      eapply processChunk_entries; eauto.
    + inversion H. subst. exact Hold.
Qed.

(** X17.  With an engine that scores each sample of a batch as it scores
    the sample alone, batching changes no prediction: every entry of the
    results of a returned image batch is what the single-image request for
    its input gives.  An entry without [error] is the result of
    [_classifyImage] on its input, with the same classes, scores and
    ranks; an entry with [error] carries the message with which the
    acquisition of its input fails, which is the message the single-image
    request throws. *)
Theorem batch_entries_are_single_results imageUrls batchSize r :
  classifyBatch w tm imageUrls topK crop batchSize = Ok r ->
  Forall (single_result w tm topK crop) (br_results r).
Proof.
  intros H. unfold classifyBatch in H.
  destruct (length imageUrls =? 0)%nat; [discriminate|].
  destruct (shapeH (tm_model tm)) as [targetH|] eqn:HH; [|discriminate].
  destruct (shapeW (tm_model tm)) as [targetW|] eqn:HW; [|discriminate].
  apply obind_ok_inv in H. destruct H as (results & Hres & H).
  inversion H. subst r. clear H. simpl.
  destruct (match batchSize with
            | Some b => negb (b =? 0) && (0 <? b) && (b <? Z.of_nat (length imageUrls))
            | None => false
            end).
  - eapply chunk_loop_entries; eauto.
  - eapply processChunk_entries; eauto.
Qed.

End BatchEntries.

(** ** The command line *)
Section CliProps.
Import Cli.
Variable Number : string -> number.

Lemma plain_is_no_flag (a flag : string) :
  Str.startsWith "-" a = false -> Str.startsWith "-" flag = true ->
  String.eqb a flag = false.
Proof.
  intros Ha Hf. destruct (String.eqb_spec a flag) as [->|]; [|reflexivity].
  rewrite Ha in Hf. discriminate.
Qed.

(** On an argument that does not start with a dash the loop only records
    an input. *)
Lemma parse_loop_plain_step (a : string) rest opts :
  Str.startsWith "-" a = false ->
  parse_loop Number (a :: rest) opts = parse_loop Number rest (push_positional a opts).
Proof.
  intros Ha. simpl.
  rewrite !(plain_is_no_flag a _ Ha) by reflexivity. simpl.
  rewrite Ha. reflexivity.
Qed.

Lemma parse_loop_plain inputs :
  Forall (fun a => Str.startsWith "-" a = false) inputs ->
  forall opts,
    parse_loop Number inputs opts =
      Opts {| model := model opts; backend := backend opts; io := io opts;
              frames := frames opts; topK := topK opts;
              maxBytes := maxBytes opts; turbo := turbo opts;
              media := media opts;
              positional := positional opts ++ inputs |}.
Proof.
  induction 1 as [|a rest Ha _ IH]; intros opts.
  - simpl. rewrite app_nil_r. destruct opts. reflexivity.
  - rewrite parse_loop_plain_step by exact Ha. rewrite IH. simpl.
    rewrite <- app_assoc. reflexivity.
Qed.

(** X18.  [tmjs --model M inputs...] with inputs that do not start with a
    dash and no other option: the model is taken as a URL exactly when it
    starts with [http] and as a directory to load from and save to
    otherwise, the backend is [tfjs] and the I/O mode [ram], and the
    inputs go to [classify] with [frames = 10]: as [{ videos: inputs }]
    when there is exactly one input, although [--frames] was not given,
    and as [{ images: inputs }] when there are several. *)
Theorem cli_plain_inputs (m : string) (inputs : list string) :
  m <> ""%string -> inputs <> [] ->
  Forall (fun a => Str.startsWith "-" a = false) inputs ->
  main Number ("--model"%string :: m :: inputs) =
    Run {| modelUrl := if Str.startsWith "http" m then Some m else None;
           modelDir := if Str.startsWith "http" m then None else Some m;
           saveToDir := if Str.startsWith "http" m then None else Some m;
           c_backend := "tfjs"; c_ioMode := Ram |}
        (CallClassify (length inputs =? 1)%nat inputs (Num 10) None false
           (Num (10 * 1024 * 1024))).
Proof.
  intros Hm Hne Hplain. unfold main, parseArgs.
  change (parse_loop Number ("--model"%string :: m :: inputs) no_options)
    with (parse_loop Number inputs (set_model (Some m) no_options)).
  rewrite (parse_loop_plain inputs Hplain). simpl.
  destruct (String.eqb_spec m "") as [->|_]; [contradiction|]. simpl.
  destruct (String.eqb_spec m "") as [->|_]; [contradiction|].
  destruct inputs as [|a inputs]; [contradiction|]. simpl.
  rewrite andb_true_r. reflexivity.
Qed.

(** X19.  What [parseArgs] does with any argument list: the inputs it
    records are arguments of the command line, in their order, and none
    starts with a dash; and it asks for the help text only if [--help] or
    [-h] is among the arguments. *)
Theorem parse_loop_inputs (args : list string) :
  forall opts,
    (forall o, parse_loop Number args opts = Opts o ->
       exists l, positional o = positional opts ++ l /\
                 l `sublist_of` args /\
                 Forall (fun a => Str.startsWith "-" a = false) l) /\
    (parse_loop Number args opts = Help ->
       "--help"%string ∈ args \/ "-h"%string ∈ args).
Proof.
  assert (forall n args, (length args <= n)%nat ->
    forall opts,
      (forall o, parse_loop Number args opts = Opts o ->
         exists l, positional o = positional opts ++ l /\
                   l `sublist_of` args /\
                   Forall (fun a => Str.startsWith "-" a = false) l) /\
      (parse_loop Number args opts = Help ->
         "--help"%string ∈ args \/ "-h"%string ∈ args)) as Hn.
  { clear args. induction n as [|n IH]; intros args Hlen opts.
    - destruct args; [|simpl in Hlen; lia]. simpl. split.
      + intros o H. inversion H. subst. exists []. rewrite app_nil_r.
        split; [reflexivity|]. split; constructor.
      + discriminate.
    - destruct args as [|a rest].
      { simpl. split.
        - intros o H. inversion H. subst. exists []. rewrite app_nil_r.
          split; [reflexivity|]. split; constructor.
        - discriminate. }
      simpl in Hlen.
      assert (forall opts' (same : positional opts' = positional opts),
        (forall o, parse_loop Number rest opts' = Opts o ->
           exists l, positional o = positional opts ++ l /\
                     l `sublist_of` (a :: rest) /\
                     Forall (fun a => Str.startsWith "-" a = false) l) /\
        (parse_loop Number rest opts' = Help ->
           "--help"%string ∈ a :: rest \/ "-h"%string ∈ a :: rest)) as Hskip.
      { intros opts' Hsame. destruct (IH rest ltac:(lia) opts') as (Ho & Hh). split.
        - intros o H. destruct (Ho o H) as (l & Hl & Hsub & Hall).
          exists l. rewrite Hl, Hsame. split; [reflexivity|].
          split; [apply sublist_cons; exact Hsub|exact Hall].
        - intros H. destruct (Hh H) as [H'|H']; [left|right];
            apply list_elem_of_further; exact H'. }
      assert (forall (set : option string -> options -> options)
                     (keeps : forall v o, positional (set v o) = positional o),
        (forall o, match rest with
                   | v :: rest' => parse_loop Number rest' (set (Some v) opts)
                   | [] => Opts (set None opts)
                   end = Opts o ->
           exists l, positional o = positional opts ++ l /\
                     l `sublist_of` (a :: rest) /\
                     Forall (fun a => Str.startsWith "-" a = false) l) /\
        (match rest with
         | v :: rest' => parse_loop Number rest' (set (Some v) opts)
         | [] => Opts (set None opts)
         end = Help ->
           "--help"%string ∈ a :: rest \/ "-h"%string ∈ a :: rest)) as Hvalue.
      { intros set keeps. destruct rest as [|v rest'].
        - split.
          + intros o H. inversion H. subst. exists []. rewrite keeps, app_nil_r.
            split; [reflexivity|]. split; [apply sublist_nil_l|constructor].
          + discriminate.
        - simpl in Hlen.
          destruct (IH rest' ltac:(lia) (set (Some v) opts)) as (Ho & Hh). split.
          + intros o H. destruct (Ho o H) as (l & Hl & Hsub & Hall).
            exists l. rewrite Hl, keeps. split; [reflexivity|].
            split; [|exact Hall].
            apply sublist_cons, sublist_cons. exact Hsub.
          + intros H. destruct (Hh H) as [H'|H']; [left|right];
              apply list_elem_of_further, list_elem_of_further; exact H'. }
      simpl.
      destruct (String.eqb_spec a "--help") as [->|_].
      { simpl. split; [discriminate|]. intros _. left. apply list_elem_of_here. }
      destruct (String.eqb_spec a "-h") as [->|_].
      { simpl. split; [discriminate|]. intros _. right. apply list_elem_of_here. }
      simpl.
      destruct (String.eqb a "--model");
        [apply (Hvalue set_model); reflexivity|].
      destruct (String.eqb a "--backend");
        [apply (Hvalue set_backend); reflexivity|].
      destruct (String.eqb a "--io"); [apply (Hvalue set_io); reflexivity|].
      destruct (String.eqb a "--frames").
      { apply (Hvalue (fun v => set_frames (number_arg Number v))). reflexivity. }
      destruct (String.eqb a "--topK").
      { apply (Hvalue (fun v => set_topK (number_arg Number v))). reflexivity. }
      destruct (String.eqb a "--maxBytes").
      { apply (Hvalue (fun v => set_maxBytes (number_arg Number v))). reflexivity. }
      destruct (String.eqb a "--turbo"); [apply Hskip; reflexivity|].
      destruct (String.eqb a "--media"); [apply (Hvalue set_media); reflexivity|].
      destruct (Str.startsWith "-" a) eqn:Ea; simpl; [apply Hskip; reflexivity|].
      destruct (IH rest ltac:(lia) (push_positional a opts)) as (Ho & Hh). split.
      + intros o H. destruct (Ho o H) as (l & Hl & Hsub & Hall).
        exists (a :: l). rewrite Hl. simpl. rewrite <- app_assoc.
        split; [reflexivity|]. split.
        * apply sublist_skip. exact Hsub.
        * constructor; [exact Ea|exact Hall].
      + intros H. destruct (Hh H) as [H'|H']; [left|right];
          apply list_elem_of_further; exact H'. }
  apply (Hn (length args) args). lia.
Qed.

End CliProps.

(** ** Empty arrays *)
Section EmptyArrays.
Import Samples TM Wrappers.
Variable w : world.
Variable tm : classifier.

Lemma run_pushing_nil {J R} (exec : J -> outcome R) conc sched :
  Pool.run_pushing exec [] conc sched = Ok [].
Proof.
  unfold Pool.run_pushing, Pool.start. simpl.
  rewrite iter_runner_loop_empty by reflexivity. reflexivity.
Qed.

(** X20.  What each entry point does with an empty array, whatever the
    options, the schedule and the state of the run are.  The image entry
    points reject it; [classifyVideos] and [classifyVideo] return an empty
    array without touching anything, while [classifyVideoBatch] rejects
    it; [classify] on an empty array goes by the route: it returns the
    empty array on the video route and rejects on the image route, and in
    the object form an empty array counts as absent and gives [null] for
    its part. *)
Theorem empty_arrays (o : video_opts) (batchSize : option Z)
    (mediaType : option string) (s : state) :
  classifyImages w tm (Many []) (o_topK o) (o_centerCrop o) batchSize
    = Throw "imageUrls must be a non-empty array" /\
  classifyVideos w tm (Many []) o s = (Ok (VideoMany []), s) /\
  classifyVideoBatch w tm (Some []) o s
    = (Throw "videoUrls must be a non-empty array", s) /\
  classify w tm (InArray []) mediaType o batchSize s
    = (if isVideo (default "auto"%string mediaType)
            (default (Num 10) (o_frames o))
       then (Ok (ResVideos (VideoMany [])), s)
       else (Throw "imageUrls must be a non-empty array", s)) /\
  (forall images videos,
     nonempty_array images = false -> nonempty_array videos = false ->
     is_array images || is_array videos = true ->
     classify w tm (InObject images videos) mediaType o batchSize s
       = (Ok (ResMixed None None), s)).
Proof.
  split; [reflexivity|].
  assert (classifyVideos w tm (Many []) o s = (Ok (VideoMany []), s)) as Hv.
  { unfold classifyVideos, classifyVideoMany.
    cbv [Async.bind Async.get Async.lift Async.ret].
    rewrite run_pushing_nil. reflexivity. }
  split; [exact Hv|]. split; [reflexivity|]. split.
  - unfold classify, legacy_input.
    destruct (isVideo (default "auto"%string mediaType)
                (default (Num 10) (o_frames o))).
    + unfold Async.bind. rewrite Hv. reflexivity.
    + reflexivity.
  - intros images videos Hi Hvd Harr. unfold classify.
    rewrite Harr, Hi, Hvd. reflexivity.
Qed.

End EmptyArrays.

(** ** The frame results of a disk request *)
Section DiskFrames.
Import Samples Notions TM Ffmpeg.
Variable w : world.
Variable tm : classifier.

Lemma omap_length_le {A B} (f : A -> option B) (l : list A) :
  (length (omap f l) <= length l)%nat.
Proof.
  induction l as [|x l IH]; [reflexivity|]. cbn.
  destruct (f x); simpl; lia.
Qed.

Lemma sampleTimestamps_count d count :
  (0 < d)%Q -> length (sampleTimestamps d count) = Z.to_nat count.
Proof.
  intros Hd. destruct (Z_lt_le_dec 0 count) as [Hc|Hc].
  - rewrite sampleTimestamps_positive by assumption.
    rewrite sample_loop_length. reflexivity.
  - rewrite sampleTimestamps_empty by (right; exact Hc). simpl. lia.
Qed.

Lemma resolve_disk_ok_inv videoUrl maxBytes s ds s1 :
  resolve_disk w videoUrl maxBytes s = (Ok ds, s1) ->
  exists p, ds = (w_probePath w p, SrcPath p).
Proof.
  unfold resolve_disk. intros H.
  apply bind_ok_inv in H. destruct H as (u1 & sa & _ & H).
  apply bind_ok_inv in H. destruct H as (loc & sb & _ & H).
  apply bind_ok_inv in H. destruct H as (u2 & sc & _ & H).
  apply bind_ok_inv in H. destruct H as (u3 & sd & _ & H).
  apply bind_ok_inv in H. destruct H as (u4 & se & _ & H).
  inversion H. exists (path loc). reflexivity.
Qed.

Lemma extractFrames_ok_inv inputPath stamps conc s fb s1 :
  extractFrames w inputPath stamps conc s = (Ok fb, s1) ->
  fb = omap id (map (frame_of w inputPath) stamps).
Proof.
  unfold extractFrames. intros H.
  apply bind_ok_inv in H. destruct H as (dir & sa & _ & H).
  rewrite frame_pool_completes in H.
  apply bind_ok_inv in H. destruct H as (results & sb & Hres & H).
  unfold Async.lift in Hres. inversion Hres. subst results sb. clear Hres.
  apply bind_ok_inv in H. destruct H as (u & sc & _ & H).
  inversion H. apply filter_Boolean_filled.
Qed.

(** The shape of the per-frame results of a completed scoring. *)
Lemma tally_results_shape o targetH targetW stamps bufs s agg fc results s' :
  tally w tm o targetH targetW stamps bufs s = (Ok (agg, fc, results), s') ->
  exists tensors rows,
    length tensors = length bufs /\
    (if o_turboMode o
     then w_predict w (map normalize tensors) = Ok rows
     else length rows = length tensors) /\
    results = imap (frame_entry tm (clampK (o_topK o) (cls tm)) stamps) rows.
Proof.
  unfold tally. destruct (o_turboMode o).
  - unfold turbo_frames. intros H.
    apply bind_ok_inv in H. destruct H as (u1 & s1 & _ & H).
    apply bind_ok_inv in H. destruct H as (slots & s2 & Hpool & H).
    apply bind_ok_inv in H. destruct H as (batch & s3 & Hst & H).
    apply bind_ok_inv in H. destruct H as (u2 & s4 & _ & H).
    apply bind_ok_inv in H. destruct H as (probs & s5 & Hp & H).
    unfold Async.lift in Hpool, Hst, Hp.
    inversion Hpool as [[Hpool' Hs2]]. inversion Hst as [[Hst' Hs3]].
    inversion Hp as [[Hp' Hs5]].
    apply run_indexed_ok_inv in Hpool'. destruct Hpool' as (tensors & Hprep & ->).
    rewrite omap_id_Some in Hst'. apply stack_ok_inv in Hst'.
    rewrite Hst' in Hp'.
    inversion H. subst. exists tensors, probs.
    split; [symmetry; apply (Forall2_length _ _ _ Hprep)|].
    split; [exact Hp'|reflexivity].
  - intros H. apply frame_loop_rows in H.
    destruct H as (tensors & rows & Hprep & Hpred & _ & _ & ->).
    exists tensors, rows.
    split; [symmetry; apply (Forall2_length _ _ _ Hprep)|].
    split; [symmetry; apply (Forall2_length _ _ _ Hpred)|reflexivity].
Qed.

(** A completed acquisition in [disk] mode: the duration was probed
    positive, the timestamps are the clamped sample, and no more frames
    were extracted than there are timestamps. *)
Lemma acquire_frames_disk videoUrl o frames s stamps bufs s1 :
  ioMode tm = Disk ->
  usedMode (vars s) = Disk ->
  acquire_frames w tm videoUrl o frames s = (Ok (stamps, bufs), s1) ->
  exists d, (0 < d)%Q /\
    stamps = safeTimestamps d (sampleTimestamps d frames) None /\
    (length bufs <= length stamps)%nat.
Proof.
  intros Hdisk Hmode H. unfold acquire_frames in H. rewrite Hdisk in H.
  apply bind_ok_inv in H. destruct H as (ds & sa & Hres & H).
  pose proof (resolve_disk_same_mode w _ _ _ _ _ Hres) as (Hma & _ & _).
  apply resolve_disk_ok_inv in Hres. destruct Hres as (p & ->). simpl in H.
  destruct (w_probePath w p) as [d|]; [|discriminate].
  destruct (Qeq_bool d 0 || Qle_bool d 0) eqn:Ed; [discriminate|].
  apply orb_false_iff in Ed. destruct Ed as [_ Ed].
  assert (0 < d)%Q as Hd.
  { apply Qnot_le_lt. intros Hle. apply Qle_bool_iff in Hle.
    rewrite Hle in Ed. discriminate. }
  apply bind_ok_inv in H. destruct H as (fb0 & sb & Hex & H).
  pose proof (extract_first_same_vars w _ _ _ _ _ _ _ _ Hex) as Hvb.
  unfold same_vars in Hvb.
  unfold extract_first in Hex. unfold Async.bind at 1, Async.get at 1 in Hex.
  rewrite Hma, Hmode in Hex.
  apply bind_ok_inv in Hex. destruct Hex as (u & sc & _ & Hex).
  apply extractFrames_ok_inv in Hex.
  apply bind_ok_inv in H. destruct H as (fb & sd & Hfall & H).
  unfold fallback in Hfall. unfold Async.bind at 1, Async.get at 1 in Hfall.
  rewrite Hvb, Hma, Hmode in Hfall.
  inversion Hfall. subst fb sd. clear Hfall.
  inversion H. subst stamps bufs s1. clear H.
  exists d. split; [exact Hd|]. split; [reflexivity|].
  rewrite Hex. etransitivity; [apply omap_length_le|].
  rewrite length_map. reflexivity.
Qed.

(** X21.  A [disk] request that returns reports at most
    [Math.floor(frames)] frames: the duration was probed positive, the
    entry at position [i] of [results] has [frameIndex] [i] and carries
    the [i]-th of the clamped sample timestamps, a time between 0 and the
    duration.  In turbo mode this needs an engine that returns one row per
    tensor. *)
Theorem disk_result_frames videoUrl o s out s' :
  ioMode tm = Disk ->
  (o_turboMode o = true ->
   forall batch rows, w_predict w batch = Ok rows -> length rows = length batch) ->
  classifyVideo1 w tm videoUrl o s = (Ok out, s') ->
  exists d, (0 < d)%Q /\
    (length (vr_results out) <= Z.to_nat (vr_frames out))%nat /\
    forall i r, vr_results out !! i = Some r ->
      frameIndex r = i /\
      timestampSec r =
        safeTimestamps d (sampleTimestamps d (vr_frames out)) None !! i /\
      exists t, timestampSec r = Some t /\ (0 <= t <= d)%Q.
Proof.
  intros Hdisk Hengine H.
  pose proof (classifyVideo1_ok_reaches w tm videoUrl o s out s' H) as Hg.
  destruct (classifyVideo1_unfold w tm videoUrl o s Hg) as (targetH & targetW & E).
  rewrite E in H. clear E.
  apply try_finally_inv in H. destruct H as (rb & s1 & rf & Hb & _ & Hr).
  destruct rf as [u|e]; [|discriminate]. subst rb.
  unfold video_body in Hb.
  apply bind_ok_inv in Hb. destruct Hb as ([stamps bufs] & sa & Hacq & Hsc).
  apply acquire_frames_disk in Hacq; [|exact Hdisk|exact Hdisk].
  destruct Hacq as (d & Hd & Hstamps & Hlen).
  apply score_frames_inv in Hsc.
  destruct Hsc as [(e & Hc & _)|(agg & fc & results & sb & rc & Htally & _ & Hout)];
    [discriminate|].
  destruct rc as [u'|e]; [|discriminate].
  inversion Hout. subst out. clear Hout. simpl in *.
  apply tally_results_shape in Htally.
  destruct Htally as (tensors & rows & Hprep & Hrows & ->).
  assert (length rows = length bufs) as Hrl.
  { rewrite <- Hprep. destruct (o_turboMode o).
    - rewrite (Hengine eq_refl _ _ Hrows). apply length_map.
    - exact Hrows. }
  assert (length stamps = Z.to_nat (floor_frames (default (Num 10) (o_frames o))))
    as Hsl.
  { rewrite Hstamps. unfold safeTimestamps. rewrite length_map.
    apply sampleTimestamps_count, Hd. }
  exists d. split; [exact Hd|]. split.
  - rewrite length_imap, Hrl, <- Hsl. exact Hlen.
  - intros i r Hi. rewrite list_lookup_imap in Hi.
    destruct (rows !! i) as [row|] eqn:Erow; [|discriminate].
    simpl in Hi. inversion Hi. subst r. clear Hi. simpl.
    split; [reflexivity|]. split; [rewrite Hstamps; reflexivity|].
    assert (i < length stamps)%nat as Hlt.
    { apply lookup_lt_Some in Erow. lia. }
    destruct (lookup_lt_is_Some_2 stamps i Hlt) as (t & Ht).
    exists t. split; [exact Ht|].
    rewrite Hstamps in Ht. unfold safeTimestamps in Ht.
    change (map ?f ?l !! i) with ((f <$> l) !! i) in Ht.
    rewrite list_lookup_fmap in Ht.
    destruct (sampleTimestamps d (floor_frames (default (Num 10) (o_frames o))) !! i)
      as [t0|]; [|discriminate].
    simpl in Ht. inversion Ht. subst t. clear Ht.
    assert (0 <= Qmax 0 (d - Qmax 0 (5 # 100)))%Q as Hm by apply Q.le_max_l.
    destruct (clamp_bounds _ t0 Hm) as (H0 & H1).
    split; [exact H0|].
    eapply Qle_trans; [exact H1|].
    apply Q.max_lub; [apply Qlt_le_weak; exact Hd|].
    assert (0 <= Qmax 0 (5 # 100))%Q by apply Q.le_max_l. lra.
Qed.

End DiskFrames.

(** ** The disk fallback of a request in [ram] mode *)
Section DiskFallback.
Import Samples Notions TM Ffmpeg.
Variable w : world.
Variable tm : classifier.

(** What a resolution returns, and the temp directories it leaves, depend
    on the state through the file system only. *)
Lemma temp_resolved_reads_fs b s1 s2 :
  fs s1 = fs s2 ->
  fst (temp_resolved w b s1) = fst (temp_resolved w b s2) /\
  fs (snd (temp_resolved w b s1)) = fs (snd (temp_resolved w b s2)).
Proof.
  intros H. unfold temp_resolved, writeTemp, fs_mkdtemp.
  cbv [Async.bind Async.lift Async.ret]. rewrite H.
  destruct (w_mkdtemp w (created (fs s2))); simpl; [|auto].
  destruct (w_writeFile w _ b); simpl; auto.
Qed.

Lemma ensureLocalPathWithCleanup_reads_fs src s1 s2 :
  fs s1 = fs s2 ->
  fst (ensureLocalPathWithCleanup w src s1) =
    fst (ensureLocalPathWithCleanup w src s2) /\
  fs (snd (ensureLocalPathWithCleanup w src s1)) =
    fs (snd (ensureLocalPathWithCleanup w src s2)).
Proof.
  intros H. unfold ensureLocalPathWithCleanup.
  destruct src as [|str|b|]; try (split; [reflexivity|exact H]).
  - destruct (String.eqb str ""); [split; [reflexivity|exact H]|].
    destruct (Str.startsWith "http" str).
    { unfold Async.bind, Async.lift.
      destruct (w_http w str); [|split; [reflexivity|exact H]].
      apply temp_resolved_reads_fs, H. }
    destruct (Str.startsWith "data:" str).
    { destruct (Str.split_comma_1 str) as [base64|];
        [|split; [reflexivity|exact H]].
      destruct (String.eqb base64 ""); [split; [reflexivity|exact H]|].
      apply temp_resolved_reads_fs, H. }
    destruct (Str.looksBase64 str); [|split; [reflexivity|exact H]].
    unfold Async.try_catch.
    pose proof (temp_resolved_reads_fs (w_base64 w str) s1 s2 H) as [Hr Hf].
    destruct (temp_resolved w (w_base64 w str) s1) as [[l1|e1] t1];
      destruct (temp_resolved w (w_base64 w str) s2) as [[l2|e2] t2];
      simpl in *; try discriminate; auto.
  - apply temp_resolved_reads_fs, H.
Qed.

(** A resolution locks no directory. *)
Lemma ensureLocalPathWithCleanup_locked src s r s' :
  ensureLocalPathWithCleanup w src s = (r, s') -> locked (fs s') = locked (fs s).
Proof.
  assert (forall b r s', temp_resolved w b s = (r, s') ->
                         locked (fs s') = locked (fs s)) as Htemp.
  { intros b r0 s0. unfold temp_resolved, writeTemp, fs_mkdtemp.
    cbv [Async.bind Async.lift Async.ret].
    destruct (w_mkdtemp w (created (fs s))); simpl.
    - destruct (w_writeFile w _ b); intros H; inversion H; reflexivity.
    - intros H; inversion H; reflexivity. }
  assert (forall (x : outcome resolved), (x, s) = (r, s') ->
                                         locked (fs s') = locked (fs s)) as Hstay.
  { intros x H. inversion H. reflexivity. }
  unfold ensureLocalPathWithCleanup.
  destruct src as [|str|b|]; try (apply Hstay).
  - destruct (String.eqb str ""); [apply Hstay|].
    destruct (Str.startsWith "http" str).
    { unfold Async.bind, Async.lift. destruct (w_http w str); [|apply Hstay].
      apply Htemp. }
    destruct (Str.startsWith "data:" str).
    { destruct (Str.split_comma_1 str) as [base64|]; [|apply Hstay].
      destruct (String.eqb base64 ""); [apply Hstay|].
      apply Htemp. }
    destruct (Str.looksBase64 str); [|apply Hstay].
    unfold Async.try_catch.
    destruct (temp_resolved w (w_base64 w str) s) as [[loc|e] s1] eqn:E;
      apply Htemp in E; intros H; inversion H; subst; exact E.
  - apply Htemp.
Qed.

(** With a temp directory at hand and nothing locked, [extractFrames]
    returns the frames of its timestamps. *)
Lemma extractFrames_runs inputPath stamps conc s :
  w_mkdtemp w (created (fs s)) = true ->
  locked (fs s) = ∅ ->
  exists s',
    extractFrames w inputPath stamps conc s =
      (Ok (omap (frame_of w inputPath) stamps), s') /\
    vars s' = vars s /\ locked (fs s') = ∅.
Proof.
  intros Hmk Hlock. unfold extractFrames.
  unfold Async.bind at 1. unfold fs_mkdtemp at 1. rewrite Hmk.
  rewrite frame_pool_completes.
  unfold Async.bind at 1. unfold Async.lift at 1.
  unfold Async.bind at 1. unfold fs_rm_force.
  destruct (decide _) as [[_ Hl]|_].
  { simpl in Hl. rewrite Hlock in Hl. set_solver. }
  eexists. split.
  - unfold Async.ret. rewrite filter_Boolean_filled, omap_id_map. reflexivity.
  - simpl. split; [reflexivity|exact Hlock].
Qed.

(** With no directory locked a release action completes. *)
Lemma run_cleanup_unlocked c s :
  locked (fs s) = ∅ ->
  exists s', run_cleanup c s = (Ok tt, s') /\ vars s' = vars s.
Proof.
  intros Hl. destruct c as [|[dir|]]; simpl; [eauto| |eauto].
  unfold fs_rm_force. destruct (decide _) as [[_ Hin]|_].
  - rewrite Hl in Hin. set_solver.
  - eexists. split; reflexivity.
Qed.

(** The [ram] branch of the acquisition on a buffer within the ceiling. *)
Lemma resolve_ram_runs videoUrl maxBytes buf s :
  fst (getMediaBuffer w videoUrl fresh) = Ok buf ->
  maxBytes = 0 \/ Z.of_nat (length buf) <= maxBytes ->
  resolve_ram w videoUrl maxBytes s =
    (Ok (w_probeBuffer w buf, SrcBuffer buf),
     add_event EvProbe
       (set_vars (set_sizeBytes (Z.of_nat (length buf)) (vars s))
          (add_event EvGetMediaBuffer s))).
Proof.
  intros Hbuf Hsize.
  cbv [resolve_ram Async.bind Async.log Async.modify].
  rewrite getMediaBuffer_state, Hbuf.
  cbv [size_check assign Async.modify Async.bind Async.get Async.throw Async.ret].
  simpl.
  assert (negb (maxBytes =? 0) && (maxBytes <? Z.of_nat (length buf)) = false)
    as ->; [|reflexivity].
  destruct Hsize as [->|Hle]; [reflexivity|].
  apply andb_false_iff. right. lia.
Qed.

(** The fallback block on an empty [frameBuffers] in [ram] mode, when it
    completes: the media was resolved to a path, the frames are those of
    [extractFrames] on that path, and the release action of the path was
    invoked and completed. *)
Lemma fallback_ram_empty_inv videoUrl stamps conc s s0 fb s1 :
  fs s = fs s0 ->
  usedMode (vars s) = Ram ->
  fallback w videoUrl stamps conc [] s = (Ok fb, s1) ->
  exists loc,
    fst (ensureLocalPathWithCleanup w videoUrl s0) = Ok loc /\
    fb = omap (frame_of w (path loc)) stamps /\
    usedMode (vars s1) = Disk /\ fallbackToDisk (vars s1) = true /\
    sizeBytes (vars s1) =
      default (sizeBytes (vars s)) (w_statSize w (path loc)) /\
    trace s1 = trace s ++ [EvEnsureLocalPath; EvExtract Disk;
                           EvRelease (release loc) true].
Proof.
  intros Hfs Hmode H. unfold fallback in H.
  unfold Async.bind at 1 in H. unfold Async.get at 1 in H. rewrite Hmode in H.
  unfold Async.bind at 1 in H. unfold Async.log at 1, Async.modify at 1 in H.
  apply bind_ok_inv in H. destruct H as (loc & sa & Hloc & H).
  exists loc.
  pose proof (ensureLocalPathWithCleanup_reads_fs videoUrl
                (add_event EvEnsureLocalPath s) s0 Hfs) as [Hfst _].
  rewrite Hloc in Hfst. simpl in Hfst.
  apply ensureLocalPathWithCleanup_quiet in Hloc. destruct Hloc as [Ht Hv].
  simpl in Ht, Hv.
  unfold Async.bind at 1 in H. unfold assign at 1, Async.modify at 1 in H.
  unfold Async.bind at 1 in H. unfold assign at 1, Async.modify at 1 in H.
  apply try_finally_inv in H. destruct H as (rb & sb & rf & Hb & Hf & Hr).
  destruct rf as [u|e]; [|discriminate]. subst rb.
  unfold Async.bind at 1 in Hb. unfold Async.log at 1, Async.modify at 1 in Hb.
  apply bind_ok_inv in Hb. destruct Hb as (fb' & sc & Hx & Hb).
  pose proof (extractFrames_ok_inv w _ _ _ _ _ _ Hx) as Hfb.
  rewrite omap_id_map in Hfb.
  apply extractFrames_quiet in Hx. destruct Hx as [Ht2 Hv2].
  simpl in Ht2, Hv2.
  cbv [Async.bind Async.get assign Async.modify Async.ret] in Hb.
  inversion Hb as [[Hfb' Hsb]]. clear Hb.
  unfold call_cleanup in Hf.
  destruct (run_cleanup (release loc) sb) as [[u'|e] sd] eqn:Er;
    [|discriminate].
  apply run_cleanup_quiet in Er. destruct Er as [Ht3 Hv3].
  inversion Hf as [Hs1]. simpl.
  rewrite Hv3, Ht3, <- Hsb. simpl. rewrite Hv2, Ht2, Hv, Ht. simpl.
  split; [symmetry; exact Hfst|]. split; [congruence|].
  split; [reflexivity|]. split; [reflexivity|]. split; [reflexivity|].
  rewrite <- !app_assoc. reflexivity.
Qed.

(** The same block, forwards: it completes when the resolution does, a
    temp directory can be made for the frames and no directory is locked. *)
Lemma fallback_ram_empty_runs videoUrl stamps conc s s0 loc sa :
  fs s = fs s0 ->
  usedMode (vars s) = Ram ->
  ensureLocalPathWithCleanup w videoUrl s0 = (Ok loc, sa) ->
  w_mkdtemp w (created (fs sa)) = true ->
  locked (fs s0) = ∅ ->
  exists s1,
    fallback w videoUrl stamps conc [] s =
      (Ok (omap (frame_of w (path loc)) stamps), s1) /\
    usedMode (vars s1) = Disk /\ fallbackToDisk (vars s1) = true.
Proof.
  intros Hfs Hmode Hloc Hmk Hlock. unfold fallback.
  unfold Async.bind at 1. unfold Async.get at 1. rewrite Hmode.
  unfold Async.bind at 1. unfold Async.log at 1, Async.modify at 1.
  unfold Async.bind at 1.
  pose proof (ensureLocalPathWithCleanup_reads_fs videoUrl
                (add_event EvEnsureLocalPath s) s0 Hfs) as [Hfst Hfs1].
  pose proof (ensureLocalPathWithCleanup_locked _ _ _ _ Hloc) as Hl0.
  rewrite Hloc in Hfst, Hfs1. simpl in Hfst, Hfs1.
  destruct (ensureLocalPathWithCleanup w videoUrl (add_event EvEnsureLocalPath s))
    as [r sd]. simpl in Hfst, Hfs1. subst r.
  unfold Async.bind at 1. unfold assign at 1, Async.modify at 1.
  unfold Async.bind at 1. unfold assign at 1, Async.modify at 1.
  unfold Async.try_finally.
  unfold Async.bind at 1. unfold Async.log at 1, Async.modify at 1.
  unfold Async.bind at 1.
  destruct (extractFrames_runs (path loc) stamps conc
              (add_event (EvExtract Disk)
                 (set_vars
                    (set_usedMode Disk
                       (vars (set_vars (set_fallbackToDisk true (vars sd)) sd)))
                    (set_vars (set_fallbackToDisk true (vars sd)) sd))))
    as (sg & Ex & Hvg & Hlg).
  { simpl. rewrite Hfs1. exact Hmk. }
  { simpl. rewrite Hfs1, Hl0. exact Hlock. }
  rewrite Ex.
  cbv [Async.bind Async.get assign Async.modify Async.ret].
  unfold call_cleanup.
  match goal with
  | |- context [run_cleanup (release loc) ?st] =>
      destruct (run_cleanup_unlocked (release loc) st Hlg) as (sh & -> & Hvh)
  end.
  eexists. split; [reflexivity|]. simpl. rewrite Hvh. simpl. rewrite Hvg. simpl.
  split; reflexivity.
Qed.

(** What a completed acquisition in [ram] mode has done when the in-memory
    extraction yields no frame. *)
Lemma acquire_frames_ram_fallback videoUrl o frames buf s sf s1 :
  ioMode tm = Ram ->
  usedMode (vars s) = Ram ->
  fst (getMediaBuffer w videoUrl fresh) = Ok buf ->
  (forall d, w_extractAuto w buf frames d = Ok []) ->
  acquire_frames w tm videoUrl o frames s = (Ok sf, s1) ->
  exists d loc,
    w_probeBuffer w buf = Some d /\
    fst (ensureLocalPathWithCleanup w videoUrl s) = Ok loc /\
    sf = (safeTimestamps d (sampleTimestamps d frames) None,
          omap (frame_of w (path loc))
            (safeTimestamps d (sampleTimestamps d frames) None)) /\
    usedMode (vars s1) = Disk /\ fallbackToDisk (vars s1) = true /\
    sizeBytes (vars s1) =
      default (Z.of_nat (length buf)) (w_statSize w (path loc)) /\
    trace s1 = trace s ++ [EvGetMediaBuffer; EvProbe; EvExtract Ram;
                           EvEnsureLocalPath; EvExtract Disk;
                           EvRelease (release loc) true].
Proof.
  intros Hram Hmode Hbuf Hauto H.
  unfold acquire_frames in H. rewrite Hram in H.
  apply bind_ok_inv in H. destruct H as (ds & sa & Hres & H).
  apply resolve_ram_ok in Hres. destruct Hres as (buf' & Hbuf' & -> & ->).
  rewrite Hbuf in Hbuf'. inversion Hbuf'. subst buf'. clear Hbuf'.
  simpl in H. destruct (w_probeBuffer w buf) as [d|]; [|discriminate].
  destruct (Qeq_bool d 0 || Qle_bool d 0); [discriminate|].
  unfold Async.bind at 1 in H. rewrite extract_first_ram in H by exact Hmode.
  rewrite Hauto in H.
  apply bind_ok_inv in H. destruct H as (fb & sb & Hfb & H).
  inversion H. subst. clear H.
  apply (fallback_ram_empty_inv _ _ _ _ s) in Hfb; [|reflexivity|exact Hmode].
  destruct Hfb as (loc & Hloc & -> & Hm & Hf & Hsz & Ht).
  exists d, loc. split; [reflexivity|]. split; [exact Hloc|].
  split; [reflexivity|]. split; [exact Hm|]. split; [exact Hf|].
  split; [exact Hsz|]. rewrite Ht. simpl. rewrite <- !app_assoc. reflexivity.
Qed.

(** What a completed scoring has scored. *)
Lemma tally_scored o targetH targetW stamps bufs s agg fc results s' :
  tally w tm o targetH targetW stamps bufs s = (Ok (agg, fc, results), s') ->
  exists tensors rows,
    Forall2 (fun buf t =>
               prepare_tensor w tm buf targetW targetH (o_centerCrop o) = Ok t)
      bufs tensors /\
    (if o_turboMode o
     then w_predict w (map normalize tensors) = Ok rows
     else Forall2 (fun t row => exists rest,
                     w_predict w [normalize t] = Ok (row :: rest)) tensors rows) /\
    results = imap (frame_entry tm (clampK (o_topK o) (cls tm)) stamps) rows.
Proof.
  unfold tally. destruct (o_turboMode o).
  - unfold turbo_frames. intros H.
    apply bind_ok_inv in H. destruct H as (u1 & s1 & _ & H).
    apply bind_ok_inv in H. destruct H as (slots & s2 & Hpool & H).
    apply bind_ok_inv in H. destruct H as (batch & s3 & Hst & H).
    apply bind_ok_inv in H. destruct H as (u2 & s4 & _ & H).
    apply bind_ok_inv in H. destruct H as (probs & s5 & Hp & H).
    unfold Async.lift in Hpool, Hst, Hp.
    inversion Hpool as [[Hpool' Hs2]]. inversion Hst as [[Hst' Hs3]].
    inversion Hp as [[Hp' Hs5]].
    apply run_indexed_ok_inv in Hpool'. destruct Hpool' as (tensors & Hprep & ->).
    rewrite omap_id_Some in Hst'. apply stack_ok_inv in Hst'.
    rewrite Hst' in Hp'.
    inversion H. subst. exists tensors, probs.
    split; [exact Hprep|]. split; [exact Hp'|reflexivity].
  - intros H. apply frame_loop_rows in H.
    destruct H as (tensors & rows & Hprep & Hpred & _ & _ & ->).
    exists tensors, rows. split; [exact Hprep|]. split; [exact Hpred|reflexivity].
Qed.

(** C4.  In [ram] mode, when the in-memory extraction of a request yields
    no frame, the request resolves the media to a file path with
    [ensureLocalPathWithCleanup], extracts again with [extractFrames] on
    that path at the clamped sample timestamps, and invokes the release
    action of the path.  A call that returns has scored exactly the frames
    of that disk extraction, its [io] has [fallbackToDisk = true],
    [mode = 'disk'] and the size of the file at the path, or the size of
    the buffer when the file cannot be measured.  And the acquisition does
    complete with those frames whenever the buffer is within [maxBytes],
    its duration is positive, the resolution succeeds, a temp directory
    can be made for the frames and no directory is locked. *)
Theorem ram_zero_frames_falls_back videoUrl o buf :
  let frames := floor_frames (default (Num 10) (o_frames o)) in
  let maxBytes := default (10 * 1024 * 1024) (o_maxBytes o) in
  let k := clampK (o_topK o) (cls tm) in
  let stamps := fun d => safeTimestamps d (sampleTimestamps d frames) None in
  ioMode tm = Ram ->
  fst (getMediaBuffer w videoUrl fresh) = Ok buf ->
  (forall d, w_extractAuto w buf frames d = Ok []) ->
  (forall s out s',
     classifyVideo1 w tm videoUrl o s = (Ok out, s') ->
     exists d loc targetH targetW tensors rows,
       w_probeBuffer w buf = Some d /\
       fst (ensureLocalPathWithCleanup w videoUrl s) = Ok loc /\
       shapeH (tm_model tm) = Some targetH /\
       shapeW (tm_model tm) = Some targetW /\
       Forall2 (fun b t =>
                  prepare_tensor w tm b targetW targetH (o_centerCrop o) = Ok t)
         (omap (frame_of w (path loc)) (stamps d)) tensors /\
       (if o_turboMode o
        then w_predict w (map normalize tensors) = Ok rows
        else Forall2 (fun t row => exists rest,
                        w_predict w [normalize t] = Ok (row :: rest))
               tensors rows) /\
       vr_results out = imap (frame_entry tm k (stamps d)) rows /\
       io_fallbackToDisk (vr_io out) = true /\
       io_mode_used (vr_io out) = Disk /\
       io_sizeBytes (vr_io out) =
         default (Z.of_nat (length buf)) (w_statSize w (path loc)) /\
       exists t,
         trace s' = trace s ++ [EvGetMediaBuffer; EvProbe; EvExtract Ram;
                                EvEnsureLocalPath; EvExtract Disk;
                                EvRelease (release loc) true] ++ t)
  /\ (forall s d loc sa,
       usedMode (vars s) = Ram ->
       maxBytes = 0 \/ Z.of_nat (length buf) <= maxBytes ->
       w_probeBuffer w buf = Some d -> (0 < d)%Q ->
       ensureLocalPathWithCleanup w videoUrl s = (Ok loc, sa) ->
       w_mkdtemp w (created (fs sa)) = true ->
       locked (fs s) = ∅ ->
       exists s1,
         acquire_frames w tm videoUrl o frames s =
           (Ok (stamps d, omap (frame_of w (path loc)) (stamps d)), s1) /\
         usedMode (vars s1) = Disk /\ fallbackToDisk (vars s1) = true).
Proof.
  intros frames maxBytes k stamps Hram Hbuf Hauto. split.
  - intros s out s' H.
    unfold classifyVideo1 in H.
    destruct (negb (truthy videoUrl)); [discriminate|].
    destruct (negb (isFinite (default (Num 10) (o_frames o)))
              || le0 (default (Num 10) (o_frames o))); [discriminate|].
    destruct (shapeH (tm_model tm)) as [targetH|] eqn:HH; [|discriminate].
    destruct (shapeW (tm_model tm)) as [targetW|] eqn:HW; [|discriminate].
    unfold Async.bind at 1, ensureFFmpeg at 1, Async.lift at 1 in H.
    destruct (w_ffmpeg w) as [ff|e]; [|discriminate].
    unfold Async.bind at 1, assign at 1, Async.modify at 1 in H.
    fold frames in H.
    apply try_finally_inv in H. destruct H as (rb & s1 & rf & Hb & Hf & Hr).
    apply finally_block in Hf. destruct Hf as (-> & cf & bf & Etf & _).
    subst rb. unfold video_body in Hb.
    apply bind_ok_inv in Hb. destruct Hb as (sf & sa & Ha & Hs).
    apply (acquire_frames_ram_fallback videoUrl o _ buf) in Ha;
      [|exact Hram|simpl; exact Hram|exact Hbuf|exact Hauto].
    destruct Ha as (d & loc & Hd & Hloc & -> & Hmode & Hfb & Hsz & Eta).
    rewrite (proj1 (ensureLocalPathWithCleanup_reads_fs videoUrl
                      (set_vars (init_vars tm) s) s eq_refl)) in Hloc.
    simpl in Hs, Hsz, Eta.
    apply score_frames_inv in Hs.
    destruct Hs as [(e & He & _)|(agg & fc & results & s2 & rc & Ht & Hc & Hout)];
      [discriminate|].
    pose proof (tally_scored _ _ _ _ _ _ _ _ _ _ Ht)
      as (tensors & rows & Hprep & Hrows & Hres).
    apply tally_scoring in Ht. destruct Ht as (Hv & _ & t2 & Et2 & _).
    apply cleanup_and_mark_inv in Hc.
    destruct Hc as [(-> & _ & _ & _ & Et3)|(e & -> & _)]; [|discriminate].
    inversion Hout. subst out. simpl. rewrite Hv.
    exists d, loc, targetH, targetW, tensors, rows.
    split; [exact Hd|]. split; [exact Hloc|].
    split; [reflexivity|]. split; [reflexivity|].
    split; [exact Hprep|]. split; [exact Hrows|]. split; [exact Hres|].
    split; [exact Hfb|]. split; [exact Hmode|]. split; [exact Hsz|].
    eexists. rewrite Etf, Et3, Et2, Eta. rewrite <- !app_assoc. reflexivity.
  - intros s d loc sa Hmode Hsize Hd Hpos Hloc Hmk Hlock.
    unfold acquire_frames. rewrite Hram. fold maxBytes.
    unfold Async.bind at 1.
    rewrite (resolve_ram_runs videoUrl maxBytes buf s Hbuf Hsize).
    rewrite Hd. cbn [fst snd].
    assert (Qeq_bool d 0 || Qle_bool d 0 = false) as ->.
    { apply orb_false_iff. split.
      - destruct (Qeq_bool d 0) eqn:Eq; [|reflexivity].
        apply Qeq_bool_iff in Eq. rewrite Eq in Hpos. inversion Hpos.
      - destruct (Qle_bool d 0) eqn:Eq; [|reflexivity].
        apply Qle_bool_iff in Eq. exfalso. apply (Qlt_not_le _ _ Hpos Eq). }
    unfold Async.bind at 1. rewrite extract_first_ram by exact Hmode.
    rewrite Hauto.
    unfold Async.bind at 1.
    destruct (fallback_ram_empty_runs videoUrl (stamps d)
                (Z.max 1 (Z.min 16
                   (default (if o_turboMode o then Z.min 8 (cpuCount w) else 1)
                      (o_extractionConcurrency o))))
                (add_event (EvExtract Ram)
                   (add_event EvProbe
                      (set_vars (set_sizeBytes (Z.of_nat (length buf)) (vars s))
                         (add_event EvGetMediaBuffer s))))
                s loc sa eq_refl Hmode Hloc Hmk Hlock)
      as (s1 & Ef & Hm & Hf).
    fold frames. fold (stamps d). rewrite Ef.
    exists s1. split; [reflexivity|]. split; [exact Hm|exact Hf].
Qed.

End DiskFallback.

Lemma ram_zero_frames_falls_back_witness :
  (exists out,
     fst (TM.classifyVideo1 Samples.ram_yields_nothing (Samples.two_labels Ram)
            (MBuffer []) Samples.default_opts Samples.fresh) = Ok out /\
     TM.io_fallbackToDisk (TM.vr_io out) = true /\
     TM.io_mode_used (TM.vr_io out) = Disk /\
     TM.io_sizeBytes (TM.vr_io out) = 20 * 1024 * 1024 /\
     length (TM.vr_results out) = 10%nat)
  /\ (exists stamps frames s1,
        TM.acquire_frames Samples.ram_yields_nothing (Samples.two_labels Ram)
          (MBuffer []) Samples.default_opts 10 Samples.fresh =
          (Ok (stamps, frames), s1) /\
        length frames = 10%nat /\ usedMode (vars s1) = Disk).
Proof.
  pose proof (ram_zero_frames_falls_back Samples.ram_yields_nothing
                (Samples.two_labels Ram) (MBuffer []) Samples.default_opts []
                eq_refl eq_refl (fun _ => eq_refl)) as [Hret Hruns].
  split.
  - destruct (TM.classifyVideo1 Samples.ram_yields_nothing (Samples.two_labels Ram)
                (MBuffer []) Samples.default_opts Samples.fresh)
      as [[out|e] s'] eqn:E.
    + exists out. split; [reflexivity|].
      destruct (Hret Samples.fresh out s' E)
        as (d & loc & tH & tW & tensors & rows & _ & _ & _ & _ & _ & _ & _
            & Hf & Hm & _).
      split; [exact Hf|]. split; [exact Hm|].
      vm_compute in E. inversion E. split; reflexivity.
    + vm_compute in E. discriminate.
  - destruct (Ffmpeg.ensureLocalPathWithCleanup Samples.ram_yields_nothing
                (MBuffer []) Samples.fresh) as [[loc|e] sa] eqn:El;
      [|vm_compute in El; discriminate].
    destruct (Hruns Samples.fresh 10%Q loc sa eq_refl) as (s1 & Ea & Hm & _).
    + right. vm_compute. discriminate.
    + reflexivity.
    + reflexivity.
    + exact El.
    + vm_compute in El. inversion El. reflexivity.
    + reflexivity.
    + do 3 eexists. split; [exact Ea|]. split; [|exact Hm].
      vm_compute in El. inversion El. reflexivity.
Defined.

(** ** Rows wider than the label list *)
Section WideRows.
Import Samples Notions TM.

Lemma accumulate_lookup_any : forall (row : list Q) (agg : list num) (c : nat),
  accumulate agg row !! c =
    match row !! c with
    | Some x => Some (match agg !! c with
                      | Some a => nadd a (Some x)
                      | None => None
                      end)
    | None => agg !! c
    end.
Proof.
  induction row as [|x row IH]; intros agg c.
  - destruct agg; reflexivity.
  - destruct agg as [|a agg]; destruct c as [|c]; try reflexivity.
    + simpl. rewrite IH. destruct (row !! c); reflexivity.
    + simpl. apply IH.
Qed.

Lemma accumulate_length : forall (row : list Q) (agg : list num),
  length (accumulate agg row) = Nat.max (length agg) (length row).
Proof.
  induction row as [|x row IH]; intros agg.
  - destruct agg; simpl; lia.
  - destruct agg as [|a agg]; simpl; rewrite IH; simpl; lia.
Qed.

(** The sums stay numbers on the columns of the labels and are [NaN] on
    every column past them. *)
Lemma fold_accumulate_any (labels : nat) (probs : list (list Q)) :
  forall agg : list num,
    (labels <= length agg)%nat ->
    (forall c, (labels <= c)%nat -> (c < length agg)%nat -> agg !! c = Some None) ->
    length (foldl accumulate agg probs)
      = foldl (fun m row => Nat.max m (length row)) (length agg) probs /\
    (forall c, (labels <= c)%nat -> (c < length (foldl accumulate agg probs))%nat ->
       foldl accumulate agg probs !! c = Some None) /\
    (forall c a, agg !! c = Some (Some a) ->
       foldl accumulate agg probs !! c
         = Some (Some (sum_left a (column c probs)))).
Proof.
  induction probs as [|row probs IH]; intros agg Hlen Hnan.
  - simpl. split; [reflexivity|]. split; [exact Hnan|]. intros c a Ha. exact Ha.
  - simpl.
    destruct (IH (accumulate agg row)) as (H1 & H2 & H3).
    + rewrite accumulate_length. lia.
    + intros c Hc Hlt. rewrite accumulate_lookup_any.
      rewrite accumulate_length in Hlt.
      destruct (row !! c) as [x|] eqn:Ex.
      * destruct (agg !! c) as [a|] eqn:Ea; [|reflexivity].
        rewrite Hnan in Ea by (try assumption; eapply lookup_lt_Some; exact Ea).
        inversion Ea. reflexivity.
      * apply Hnan; [exact Hc|].
        apply lookup_ge_None in Ex. lia.
    + split; [|split].
      * rewrite H1, accumulate_length. reflexivity.
      * exact H2.
      * intros c a Ha. unfold column. cbn. fold (column c probs).
        destruct (row !! c) as [x|] eqn:Ex.
        -- apply H3. rewrite accumulate_lookup_any, Ex.
           unfold num in *. rewrite Ha. reflexivity.
        -- apply H3. rewrite accumulate_lookup_any, Ex. exact Ha.
Qed.

(** X22.  The sums of [classifyVideo] for score rows of any width, the
    width never being compared with the number [L] of labels: the array of
    sums grows to the width of the widest row; its entry for a column
    below [L] is the sum of that column over the rows; and its entry for
    every column from [L] on is [NaN]. *)
Theorem aggregate_any_width (labels : nat) (probs : list (list Q)) :
  let sums := foldl accumulate (replicate labels (Some 0%Q)) probs in
  length sums = foldl (fun m row => Nat.max m (length row)) labels probs /\
  (forall c, (c < labels)%nat ->
     sums !! c = Some (Some (sum_left 0 (column c probs)))) /\
  (forall c, (labels <= c)%nat -> (c < length sums)%nat ->
     sums !! c = Some None).
Proof.
  intros sums.
  destruct (fold_accumulate_any labels probs (replicate labels (Some 0%Q)))
    as (H1 & H2 & H3).
  - rewrite length_replicate. reflexivity.
  - intros c Hc Hlt. rewrite length_replicate in Hlt. lia.
  - rewrite length_replicate in H1. split; [exact H1|]. split; [|exact H2].
    intros c Hc. apply H3. apply lookup_replicate_2. exact Hc.
Qed.

End WideRows.

(** ** Reading the duration *)
Section DurationProps.
Import Duration Notions.
Local Open Scope string_scope.

Lemma str_app_nil (s : string) : "" ++ s = s.
Proof. reflexivity. Qed.

Lemma str_app_cons (c : ascii) (s1 s2 : string) :
  String c s1 ++ s2 = String c (s1 ++ s2).
Proof. reflexivity. Qed.

Lemma digit_value_nonneg c : 0 <= digit_value c.
Proof. unfold digit_value. lia. Qed.

Lemma parseInt_from_nonneg d : forall acc, 0 <= acc -> 0 <= parseInt_from acc d.
Proof.
  induction d as [|c d IH]; intros acc Hacc; simpl; [exact Hacc|].
  apply IH. pose proof (digit_value_nonneg c). lia.
Qed.

Lemma parseFloat_nonneg whole frac : (0 <= parseFloat whole frac)%Q.
Proof.
  unfold parseFloat.
  assert (0 <= inject_Z (parseInt whole))%Q as H1.
  { change 0%Q with (inject_Z 0). rewrite <- Zle_Qle.
    apply parseInt_from_nonneg. lia. }
  assert (0 <= inject_Z (parseInt frac))%Q as H2.
  { change 0%Q with (inject_Z 0). rewrite <- Zle_Qle.
    apply parseInt_from_nonneg. lia. }
  assert (0 < inject_Z (10 ^ Z.of_nat (String.length frac)))%Q as H3.
  { change 0%Q with (inject_Z 0). rewrite <- Zlt_Qlt.
    apply Z.pow_pos_nonneg; lia. }
  assert (0 <= inject_Z (parseInt frac)
               / inject_Z (10 ^ Z.of_nat (String.length frac)))%Q as H4.
  { apply Qle_shift_div_l; [exact H3|]. lra. }
  lra.
Qed.

Lemma match_here_nonneg s q : match_here s = Some q -> (0 <= q)%Q.
Proof.
  unfold match_here.
  destruct (after_literal "Duration:" s) as [s1|]; [|discriminate].
  destruct (digits_then ":" (skip_spaces s1)) as [[h s2]|]; [|discriminate].
  destruct (digits_then ":" s2) as [[m s3]|]; [|discriminate].
  destruct (digits_then "." s3) as [[whole s4]|]; [|discriminate].
  destruct (fst (span_digits s4)) as [|c frac]; [discriminate|].
  intros H. inversion H. subst q. clear H.
  pose proof (parseFloat_nonneg whole (String c frac)) as Hf.
  assert (0 <= inject_Z (parseInt h * 3600 + parseInt m * 60))%Q as Hi.
  { change 0%Q with (inject_Z 0). rewrite <- Zle_Qle.
    pose proof (parseInt_from_nonneg h 0 ltac:(lia)).
    pose proof (parseInt_from_nonneg m 0 ltac:(lia)).
    unfold parseInt. lia. }
  lra.
Qed.

Lemma span_digits_app d rest :
  every is_digit d = true -> begins_without is_digit rest = true ->
  span_digits (d ++ rest) = (d, rest).
Proof.
  intros Hd Hr.
  induction d as [|c d IH];
    rewrite ?str_app_nil, ?str_app_cons; cbn [every span_digits] in *.
  - destruct rest as [|x rest]; [reflexivity|].
    cbn [begins_without span_digits] in *.
    apply negb_true_iff in Hr.
    rewrite Hr. reflexivity.
  - apply andb_prop in Hd. destruct Hd as [Hc Hd]. rewrite Hc.
    rewrite (IH Hd). reflexivity.
Qed.

Lemma digits_then_app (sep : ascii) d r :
  is_digit sep = false -> every is_digit d = true -> d <> "" ->
  digits_then sep (d ++ String sep r) = Some (d, r).
Proof.
  intros Hsep Hd Hne. unfold digits_then.
  rewrite span_digits_app;
    [|exact Hd|cbn [begins_without]; rewrite Hsep; reflexivity].
  cbn [fst snd]. destruct d as [|c d]; [contradiction|].
  rewrite Ascii.eqb_refl. reflexivity.
Qed.

Lemma skip_spaces_app sp s :
  every is_space sp = true -> begins_without is_space s = true ->
  skip_spaces (sp ++ s) = s.
Proof.
  intros Hsp Hs.
  induction sp as [|c sp IH];
    rewrite ?str_app_nil, ?str_app_cons; cbn [every skip_spaces] in *.
  - destruct s as [|x s]; [reflexivity|].
    cbn [begins_without skip_spaces] in *.
    apply negb_true_iff in Hs. rewrite Hs. reflexivity.
  - apply andb_prop in Hsp. destruct Hsp as [Hc Hsp]. rewrite Hc. exact (IH Hsp).
Qed.

Lemma after_literal_app p s : after_literal p (p ++ s) = Some s.
Proof.
  induction p as [|a p IH];
    rewrite ?str_app_nil, ?str_app_cons; cbn [after_literal];
    [destruct s; reflexivity|].
  rewrite Ascii.eqb_refl. exact IH.
Qed.

Lemma match_here_other c s :
  Ascii.eqb "D" c = false -> match_here (String c s) = None.
Proof.
  intros H. unfold match_here. cbn [after_literal]. rewrite H. reflexivity.
Qed.

Lemma parseDurationSec_skip pre s :
  every (fun c => negb (Ascii.eqb "D" c)) pre = true ->
  parseDurationSec (pre ++ s) = parseDurationSec s.
Proof.
  intros H. induction pre as [|c pre IH]; [reflexivity|].
  cbn [every] in H. apply andb_prop in H. destruct H as [Hc H].
  apply negb_true_iff in Hc.
  change ((String c pre) ++ s) with (String c (pre ++ s)).
  cbn [parseDurationSec]. rewrite (match_here_other c _ Hc). exact (IH H).
Qed.

Lemma parseDurationSec_here s q :
  match_here s = Some q -> parseDurationSec s = Some q.
Proof. intros H. destruct s; cbn [parseDurationSec]; rewrite H; reflexivity. Qed.

(** X23.  [parseDurationSec] on the text FFmpeg prints: a value it
    returns is never negative; a text without the letter [D] gives
    [null]; and a text whose first [D] begins
    [Duration:], any white space, [H:M:S.F] with non-empty runs of digits
    for [H], [M], [S] and [F], gives [H * 3600 + M * 60 + S.F], whatever
    precedes and follows. *)
Theorem parseDurationSec_reads :
  (forall stderr q, parseDurationSec stderr = Some q -> (0 <= q)%Q) /\
  (forall stderr,
     every (fun c => negb (Ascii.eqb "D" c)) stderr = true ->
     parseDurationSec stderr = None) /\
  (forall pre sp h m whole frac rest,
     every (fun c => negb (Ascii.eqb "D" c)) pre = true ->
     every is_space sp = true ->
     every is_digit h = true -> h <> "" ->
     every is_digit m = true -> m <> "" ->
     every is_digit whole = true -> whole <> "" ->
     every is_digit frac = true -> frac <> "" ->
     begins_without is_digit rest = true ->
     parseDurationSec
       (pre ++ "Duration:" ++ sp ++ h ++ ":" ++ m ++ ":" ++ whole ++ "."
            ++ frac ++ rest)
       = Some (inject_Z (parseInt h * 3600 + parseInt m * 60)
               + parseFloat whole frac)%Q).
Proof.
  split; [|split].
  - induction stderr as [|c s IH]; intros q H; cbn [parseDurationSec] in H.
    + destruct (match_here "") eqn:E; [|discriminate].
      inversion H. subst. eapply match_here_nonneg. exact E.
    + destruct (match_here (String c s)) eqn:E.
      * inversion H. subst. eapply match_here_nonneg. exact E.
      * apply IH. exact H.
  - induction stderr as [|c s IH]; intros H; [reflexivity|].
    cbn [every] in H. apply andb_prop in H. destruct H as [Hc H].
    apply negb_true_iff in Hc.
    cbn [parseDurationSec]. rewrite (match_here_other c _ Hc). exact (IH H).
  - intros pre sp h m whole frac rest Hpre Hsp Hh Hhne Hm Hmne Hw Hwne Hf Hfne Hrest.
    rewrite (parseDurationSec_skip pre _ Hpre).
    apply parseDurationSec_here. unfold match_here.
    rewrite after_literal_app.
    rewrite skip_spaces_app; [|exact Hsp|].
    + change (h ++ ":" ++ m ++ ":" ++ whole ++ "." ++ frac ++ rest)
        with (h ++ String ":" (m ++ ":" ++ whole ++ "." ++ frac ++ rest)).
      rewrite digits_then_app by (try reflexivity; assumption).
      change (m ++ ":" ++ whole ++ "." ++ frac ++ rest)
        with (m ++ String ":" (whole ++ "." ++ frac ++ rest)).
      rewrite digits_then_app by (try reflexivity; assumption).
      change (whole ++ "." ++ frac ++ rest)
        with (whole ++ String "." (frac ++ rest)).
      rewrite digits_then_app by (try reflexivity; assumption).
      rewrite span_digits_app by assumption. cbn [fst].
      destruct frac as [|c frac]; [contradiction|]. reflexivity.
    + destruct h as [|c h]; [contradiction|].
      rewrite str_app_cons. cbn [every begins_without] in *.
      apply andb_prop in Hh. destruct Hh as [Hc _].
      unfold is_digit in Hc. unfold is_space.
      apply andb_prop in Hc. destruct Hc as [H1 H2].
      apply Nat.leb_le in H1. apply Nat.leb_le in H2.
      apply negb_true_iff. apply orb_false_iff. split.
      * apply Nat.eqb_neq. lia.
      * apply andb_false_iff. right. apply Nat.leb_gt. lia.
Qed.

(** The line FFmpeg prints for a clip of ten and a half seconds. *)
Lemma parseDurationSec_example :
  parseDurationSec "  Duration: 00:00:10.50, start: 0.000000, bitrate: 128 kb/s"
    = Some ((0 + (10 + 50 / 100))%Q) /\
  parseDurationSec "  Duration: N/A, bitrate: N/A" = None.
Proof. split; vm_compute; reflexivity. Qed.

End DurationProps.

(** ** Loading a model *)
Section CreateProps.
Import TM Create.

Lemma create_ok_inv r o s tm s1 :
  create r o s = (Ok tm, s1) -> create_body r o s = (Ok tm, s1).
Proof.
  unfold create. destruct (create_body r o s) as [[tm'|e] s']; intros H;
    inversion H; reflexivity.
Qed.

(** X24.  Loading from a URL fills the model directory, and the directory
    then serves the same model offline.  When a [create] call with a
    [modelDir] that does not exist yet, no [saveToDir] and [loadFrom]
    ['auto'] returns, the directory holds the downloaded model and its
    labels; and the same call made again, with any network at all, loads
    from the directory: it returns the same instance, makes no request and
    writes nothing. *)
Theorem create_fills_the_cache (r r' : remote) o s d tm s1 :
  modelDir o = Some d -> d <> ""%string ->
  saveToDir o = None ->
  default "auto"%string (loadFrom o) = "auto"%string ->
  store s !! d = None ->
  r_node r' = r_node r -> r_warmup r' = r_warmup r ->
  create r o s = (Ok tm, s1) ->
  store s1 !! d =
    Some {| d_model := Some (i_layers tm);
            d_metadata := Some (Some (classes (tm_model (i_classifier tm)))) |} /\
  create r' o s1 = (Ok tm, s1).
Proof.
  intros Hd Hne Hsave Hauto Hmiss Hnode Hwarm H.
  apply create_ok_inv in H. unfold create, create_body in *.
  rewrite Hnode. rewrite Hauto in *. rewrite Hd in *. simpl in *.
  destruct (String.eqb (default "tfjs"%string (co_backend o)) "tfjs-node"
            && negb (r_node r)); [discriminate|].
  destruct (String.eqb_spec d "") as [->|_]; [contradiction|]. simpl in H.
  rewrite Hmiss in H.
  rewrite bool_decide_eq_false_2 in H by (intros [x Hx]; discriminate).
  simpl in H. unfold load_remote in H. rewrite Hsave, Hd in H.
  destruct (modelUrl o) as [url|]; [|discriminate].
  destruct (String.eqb url ""); [discriminate|].
  destruct (r_metadata r (url ++ "metadata.json")) as [[labels|]|e];
    [|discriminate|discriminate].
  destruct (r_model r (url ++ "model.json")) as [m|e]; [|discriminate].
  simpl in H. destruct (String.eqb_spec d "") as [->|_]; [contradiction|].
  simpl in H. unfold save_local in H.
  destruct (r_writable r d); [|discriminate].
  rewrite Hwarm.
  destruct (if default true (warmup o)
            then match l_shapeH m, l_shapeW m with
                 | Some _, Some _ => r_warmup r m
                 | _, _ => Ok tt
                 end
            else Ok tt) as [u|e] eqn:Ew; [|discriminate].
  inversion H. subst tm s1. clear H. simpl.
  rewrite lookup_insert_eq. split; [reflexivity|].
  rewrite bool_decide_eq_true_2 by (eexists; reflexivity).
  simpl. rewrite Ew. reflexivity.
Qed.

(** X25.  What [create] guarantees whatever it is given: a failure is
    reported with a message that begins [Model loading failed: ]; a call
    that loads from the directory, because [loadFrom] is ['dir'] or
    because it is ['auto'] and the non-empty [modelDir] exists, makes no
    request and writes nothing, whether it returns or fails; and the
    instance returned has [ioMode] ['disk'] exactly when the option is
    the string ['disk'] and ['ram'] for any other value, and likewise
    [backend] ['tfjs-node'] exactly for that string, and carries the
    labels of the metadata as its classes. *)
Theorem create_contract (r : remote) o s :
  (forall e s1, create r o s = (Throw e, s1) ->
     exists inner, e = ("Model loading failed: " ++ inner)%string) /\
  (default "auto"%string (loadFrom o) = "dir"%string \/
   (default "auto"%string (loadFrom o) = "auto"%string /\
    truthy_str (modelDir o) = true /\
    is_Some (store s !! default ""%string (modelDir o))) ->
   snd (create r o s) = s) /\
  (forall tm s1, create r o s = (Ok tm, s1) ->
     (ioMode (i_classifier tm) = Disk <-> co_ioMode o = Some "disk"%string) /\
     (i_backend tm = "tfjs-node"%string <-> co_backend o = Some "tfjs-node"%string) /\
     (i_backend tm = "tfjs-node"%string \/ i_backend tm = "tfjs"%string) /\
     useWorkers (i_classifier tm) = preprocessUseWorkers o /\
     shapeH (tm_model (i_classifier tm)) = l_shapeH (i_layers tm) /\
     shapeW (tm_model (i_classifier tm)) = l_shapeW (i_layers tm)).
Proof.
  split; [|split].
  - intros e s1 H. unfold create in H.
    destruct (create_body r o s) as [[tm|inner] s']; inversion H. eauto.
  - intros Hlocal. unfold create, create_body.
    destruct (String.eqb (default "tfjs"%string (co_backend o)) "tfjs-node"
              && negb (r_node r)); [reflexivity|].
    assert (String.eqb (default "auto"%string (loadFrom o)) "dir"
            || (String.eqb (default "auto"%string (loadFrom o)) "auto"
                && truthy_str (modelDir o)
                && bool_decide (is_Some (store s !! default ""%string (modelDir o))))
            = true) as ->.
    { destruct Hlocal as [->|(-> & Ht & Hex)]; [reflexivity|].
      rewrite Ht, bool_decide_eq_true_2 by exact Hex. reflexivity. }
    destruct (load_local (modelDir o) s) as [[m labels]|e]; [|reflexivity].
    destruct (if default true (warmup o)
              then match l_shapeH m, l_shapeW m with
                   | Some _, Some _ => r_warmup r m
                   | _, _ => Ok tt
                   end
              else Ok tt); reflexivity.
  - intros tm s1 H. apply create_ok_inv in H. unfold create_body in H.
    destruct (String.eqb (default "tfjs"%string (co_backend o)) "tfjs-node"
              && negb (r_node r)); [discriminate|].
    destruct (if String.eqb (default "auto"%string (loadFrom o)) "dir"
                 || (String.eqb (default "auto"%string (loadFrom o)) "auto"
                     && truthy_str (modelDir o)
                     && bool_decide
                          (is_Some (store s !! default ""%string (modelDir o))))
              then (load_local (modelDir o) s, s)
              else load_remote r o s) as [[[m labels]|e] s'];
      [|discriminate].
    destruct (if default true (warmup o)
              then match l_shapeH m, l_shapeW m with
                   | Some _, Some _ => r_warmup r m
                   | _, _ => Ok tt
                   end
              else Ok tt); [|discriminate].
    inversion H. subst tm s1. clear H. simpl.
    split; [|split; [|split; [|repeat split]]].
    + destruct (co_ioMode o) as [m0|]; simpl.
      * destruct (String.eqb_spec m0 "disk") as [->|Hn]; split; try reflexivity;
          try discriminate. intros Heq. inversion Heq. contradiction.
      * split; discriminate.
    + destruct (co_backend o) as [b|]; simpl.
      * destruct (String.eqb_spec b "tfjs-node") as [->|Hn]; split;
          try reflexivity; try discriminate.
        intros Heq. inversion Heq. contradiction.
      * split; discriminate.
    + destruct (String.eqb (default "tfjs"%string (co_backend o)) "tfjs-node");
        auto.
Qed.

End CreateProps.

(** ** Turbo mode and the concurrency options *)
Section ModesAgree.
Import Samples Notions TM Ffmpeg.
Variable w : world.
Variable tm : classifier.
Hypothesis engine : rowwise w.

Lemma Forall2_functional {A B} (R : A -> B -> Prop) (l : list A) :
  (forall x y1 y2, R x y1 -> R x y2 -> y1 = y2) ->
  forall k1 k2, Forall2 R l k1 -> Forall2 R l k2 -> k1 = k2.
Proof.
  intros Hfun. induction l as [|x l IH]; intros k1 k2 H1 H2;
    inversion H1; inversion H2; subst; [reflexivity|].
  f_equal; [eapply Hfun; eassumption|apply IH; assumption].
Qed.

(** A completed scoring, in either mode, has the rows the engine gives to
    each tensor on its own. *)
Lemma tally_canonical o targetH targetW stamps bufs s agg fc results s' :
  tally w tm o targetH targetW stamps bufs s = (Ok (agg, fc, results), s') ->
  exists tensors rows,
    Forall2 (fun buf t =>
               prepare_tensor w tm buf targetW targetH (o_centerCrop o) = Ok t)
      bufs tensors /\
    Forall2 (fun t row => w_predict w [normalize t] = Ok [row]) tensors rows /\
    fc = length rows /\
    agg = foldl accumulate (replicate (length (cls tm)) (Some 0%Q)) rows /\
    results = imap (frame_entry tm (clampK (o_topK o) (cls tm)) stamps) rows.
Proof.
  unfold tally. destruct (o_turboMode o).
  - unfold turbo_frames. intros H.
    apply bind_ok_inv in H. destruct H as (u1 & s1 & _ & H).
    apply bind_ok_inv in H. destruct H as (slots & s2 & Hpool & H).
    apply bind_ok_inv in H. destruct H as (batch & s3 & Hst & H).
    apply bind_ok_inv in H. destruct H as (u2 & s4 & _ & H).
    apply bind_ok_inv in H. destruct H as (probs & s5 & Hp & H).
    unfold Async.lift in Hpool, Hst, Hp.
    inversion Hpool as [[Hpool' Hs2]]. inversion Hst as [[Hst' Hs3]].
    inversion Hp as [[Hp' Hs5]].
    apply run_indexed_ok_inv in Hpool'. destruct Hpool' as (tensors & Hprep & ->).
    rewrite omap_id_Some in Hst'. apply stack_ok_inv in Hst'.
    rewrite Hst' in Hp'. apply engine in Hp'.
    inversion H. subst. exists tensors, probs.
    split; [exact Hprep|]. split; [|repeat split].
    clear -Hp'. revert probs Hp'.
    induction tensors as [|t tensors IH]; intros probs Hp;
      inversion Hp; subst; constructor; [assumption|apply IH; assumption].
  - intros H. apply frame_loop_rows in H.
    destruct H as (tensors & rows & Hprep & Hpred & -> & -> & ->).
    exists tensors, rows. split; [exact Hprep|]. split; [|repeat split].
    eapply Forall2_impl; [exact Hpred|].
    intros t row (rest & Hrow). simpl in Hrow.
    pose proof (engine _ _ Hrow) as Hone.
    inversion Hone as [|? ? ? ? Hhead Htail]. subst.
    inversion Htail. subst. exact Hhead.
Qed.

Lemma tally_modes_agree o1 o2 targetH targetW stamps bufs s1 s2 r1 r2 s1' s2' :
  o_topK o1 = o_topK o2 -> o_centerCrop o1 = o_centerCrop o2 ->
  tally w tm o1 targetH targetW stamps bufs s1 = (Ok r1, s1') ->
  tally w tm o2 targetH targetW stamps bufs s2 = (Ok r2, s2') ->
  r1 = r2.
Proof.
  intros Hk Hc H1 H2.
  destruct r1 as [[agg1 fc1] res1], r2 as [[agg2 fc2] res2].
  apply tally_canonical in H1. apply tally_canonical in H2.
  destruct H1 as (t1 & rows1 & Hp1 & Hr1 & -> & -> & ->).
  destruct H2 as (t2 & rows2 & Hp2 & Hr2 & -> & -> & ->).
  rewrite <- Hc in Hp2. rewrite <- Hk.
  assert (t1 = t2) as <-.
  { eapply Forall2_functional; [|exact Hp1|exact Hp2].
    intros x y1 y2 E1 E2. cbv beta in E1, E2. congruence. }
  assert (rows1 = rows2) as <-.
  { eapply Forall2_functional; [|exact Hr1|exact Hr2].
    intros x y1 y2 E1 E2. cbv beta in E1, E2. congruence. }
  reflexivity.
Qed.

Lemma bind_ext {A B} (m1 m2 : Async.M A) (k1 k2 : A -> Async.M B) s :
  m1 s = m2 s -> (forall a s', k1 a s' = k2 a s') ->
  Async.bind m1 k1 s = Async.bind m2 k2 s.
Proof.
  intros Hm Hk. unfold Async.bind. rewrite Hm.
  destruct (m2 s) as [[a|e] s']; [apply Hk|reflexivity].
Qed.

(** The frames [extractFrames] returns do not depend on the concurrency. *)
Lemma extractFrames_any_conc inputPath stamps c1 c2 s :
  extractFrames w inputPath stamps c1 s = extractFrames w inputPath stamps c2 s.
Proof.
  unfold extractFrames. apply bind_ext; [reflexivity|]. intros dir s'.
  rewrite !frame_pool_completes. reflexivity.
Qed.

Lemma extract_first_any_conc src frames d stamps c1 c2 s :
  extract_first w src frames d stamps c1 s = extract_first w src frames d stamps c2 s.
Proof.
  unfold extract_first. apply bind_ext; [reflexivity|]. intros st s'.
  destruct (usedMode (vars st)), src; try reflexivity.
  apply bind_ext; [reflexivity|]. intros u s''. apply extractFrames_any_conc.
Qed.

Lemma fallback_any_conc videoUrl stamps c1 c2 fb s :
  fallback w videoUrl stamps c1 fb s = fallback w videoUrl stamps c2 fb s.
Proof.
  unfold fallback. apply bind_ext; [reflexivity|]. intros st s'.
  destruct (usedMode (vars st)); [|reflexivity].
  destruct fb; [|reflexivity].
  apply bind_ext; [reflexivity|]. intros u1 sa.
  apply bind_ext; [reflexivity|]. intros loc sb.
  apply bind_ext; [reflexivity|]. intros u2 sc.
  apply bind_ext; [reflexivity|]. intros u3 sd.
  unfold Async.try_finally.
  assert ((log (EvExtract Disk) ;;;
           fb <- extractFrames w (path loc) stamps c1 ;;
           s1 <- get ;;
           assign (set_sizeBytes
                     (default (sizeBytes (vars s1)) (w_statSize w (path loc)))) ;;;
           ret fb) sd =
          (log (EvExtract Disk) ;;;
           fb <- extractFrames w (path loc) stamps c2 ;;
           s1 <- get ;;
           assign (set_sizeBytes
                     (default (sizeBytes (vars s1)) (w_statSize w (path loc)))) ;;;
           ret fb) sd) as ->; [|reflexivity].
  apply bind_ext; [reflexivity|]. intros u4 se.
  apply bind_ext; [apply extractFrames_any_conc|]. reflexivity.
Qed.

(** The acquisition depends on the options through [maxBytes] only. *)
Lemma acquire_frames_any_opts videoUrl o1 o2 frames s :
  o_maxBytes o1 = o_maxBytes o2 ->
  acquire_frames w tm videoUrl o1 frames s = acquire_frames w tm videoUrl o2 frames s.
Proof.
  intros Hmax. unfold acquire_frames. rewrite Hmax.
  apply bind_ext; [reflexivity|]. intros ds s'.
  destruct (fst ds) as [d|]; [|reflexivity].
  destruct (Qeq_bool d 0 || Qle_bool d 0); [reflexivity|].
  apply bind_ext; [apply extract_first_any_conc|]. intros fb0 sa.
  apply bind_ext; [apply fallback_any_conc|]. reflexivity.
Qed.

(** X26.  Turbo mode and the concurrency options change nothing that is
    reported.  With an engine that scores each sample of a batch as it
    scores the sample alone, two returning requests for the same video
    from the same state, with the same [frames], [topK], [centerCrop] and
    [maxBytes] and any [turboMode], [extractionConcurrency],
    [preprocessConcurrency] and [maxConcurrent], give the same per-frame
    results, the same aggregate and the same [io] report. *)
Theorem modes_agree videoUrl o1 o2 s out1 s1 out2 s2 :
  o_frames o1 = o_frames o2 -> o_topK o1 = o_topK o2 ->
  o_centerCrop o1 = o_centerCrop o2 -> o_maxBytes o1 = o_maxBytes o2 ->
  classifyVideo1 w tm videoUrl o1 s = (Ok out1, s1) ->
  classifyVideo1 w tm videoUrl o2 s = (Ok out2, s2) ->
  vr_results out1 = vr_results out2 /\
  vr_aggregate out1 = vr_aggregate out2 /\
  vr_io out1 = vr_io out2 /\
  vr_frames out1 = vr_frames out2.
Proof.
  intros Hf Hk Hc Hm H1 H2.
  unfold classifyVideo1 in H1, H2. rewrite <- Hf in H2.
  destruct (negb (truthy videoUrl)); [discriminate|].
  destruct (negb (isFinite (default (Num 10) (o_frames o1)))
            || le0 (default (Num 10) (o_frames o1))); [discriminate|].
  destruct (shapeH (tm_model tm)) as [targetH|]; [|discriminate].
  destruct (shapeW (tm_model tm)) as [targetW|]; [|discriminate].
  unfold Async.bind at 1, ensureFFmpeg at 1, Async.lift at 1 in H1.
  unfold Async.bind at 1, ensureFFmpeg at 1, Async.lift at 1 in H2.
  destruct (w_ffmpeg w) as [ff|e]; [|discriminate].
  unfold Async.bind at 1, assign at 1, Async.modify at 1 in H1.
  unfold Async.bind at 1, assign at 1, Async.modify at 1 in H2.
  apply try_finally_inv in H1. destruct H1 as (rb1 & sa1 & rf1 & Hb1 & _ & Hr1).
  apply try_finally_inv in H2. destruct H2 as (rb2 & sa2 & rf2 & Hb2 & _ & Hr2).
  destruct rf1 as [u1|e]; [|discriminate]. subst rb1.
  destruct rf2 as [u2|e]; [|discriminate]. subst rb2.
  unfold video_body in Hb1, Hb2.
  apply bind_ok_inv in Hb1. destruct Hb1 as (sf1 & sb1 & Hacq1 & Hsc1).
  apply bind_ok_inv in Hb2. destruct Hb2 as (sf2 & sb2 & Hacq2 & Hsc2).
  rewrite (acquire_frames_any_opts videoUrl o1 o2 _ _ Hm) in Hacq1.
  rewrite Hacq1 in Hacq2. inversion Hacq2. subst sf2 sb2. clear Hacq2.
  apply score_frames_inv in Hsc1. apply score_frames_inv in Hsc2.
  destruct Hsc1 as [(e & Hx & _)|(agg1 & fc1 & res1 & sc1 & rc1 & Ht1 & _ & Ho1)];
    [discriminate|].
  destruct Hsc2 as [(e & Hx & _)|(agg2 & fc2 & res2 & sc2 & rc2 & Ht2 & _ & Ho2)];
    [discriminate|].
  destruct rc1 as [v1|e]; [|discriminate].
  destruct rc2 as [v2|e]; [|discriminate].
  pose proof (tally_modes_agree o1 o2 _ _ _ _ _ _ _ _ _ _ Hk Hc Ht1 Ht2) as Heq.
  inversion Heq. subst agg2 fc2 res2. clear Heq.
  apply tally_scoring in Ht1. destruct Ht1 as (Hv1 & _ & _).
  apply tally_scoring in Ht2. destruct Ht2 as (Hv2 & _ & _).
  inversion Ho1. inversion Ho2. subst out1 out2. simpl.
  rewrite Hv1, Hv2, Hk, Hm. repeat split.
Qed.

End ModesAgree.

(** ** Frames from a buffer *)
Section BufferFramesProps.
Import BufferFrames.
Variable grab : Env.bytes -> Q -> option Env.bytes.

(** X27.  [extractFramesFromBuffer] never rejects and returns, for every
    concurrency and every order in which the jobs settle, the frames of
    its timestamps in timestamp order: for each timestamp the output of
    the pass at [max(0, t)], else that of the pass 0.1 s earlier, and
    nothing when both wrote nothing.  So it returns at most one frame per
    timestamp. *)
Theorem extractFramesFromBuffer_in_order (buffer : Env.bytes)
    (timestampsSec : list Q) (concurrency : Z) (sched : nat -> nat) :
  let frame t :=
    match grab buffer (Qmax 0 t) with
    | Some b => Some b
    | None => grab buffer (Qmax 0 (Qmax 0 t - (1 # 10)))
    end in
  extractFramesFromBuffer grab buffer timestampsSec concurrency sched
    = Ok (omap frame timestampsSec) /\
  (length (omap frame timestampsSec) <= length timestampsSec)%nat.
Proof.
  intros frame. split.
  - unfold extractFramesFromBuffer.
    rewrite (run_indexed_aligned (buffer_job grab buffer) timestampsSec
               (map frame timestampsSec)).
    + simpl. rewrite filter_Boolean_filled, omap_id_map. reflexivity.
    + induction timestampsSec as [|t ts IH]; constructor; [|exact IH].
      unfold buffer_job, frame. destruct (grab buffer (Qmax 0 t)); reflexivity.
  - apply omap_length_le.
Qed.

End BufferFramesProps.

(** ** The number of jobs in flight *)
Section PoolBound.
Import Notions.
Context {J R Store : Type}.
Variable exec : J -> outcome R.
Variable store : nat -> R -> Store -> Store.
Variable njobs : nat.

Lemma iter_runner_counts n : forall st : @Pool.pstate J Store,
  length (Pool.inflight (Nat.iter n (Pool.runner_loop njobs) st))
    = (length (Pool.inflight st) + Nat.min n (length (Pool.queue st)))%nat /\
  length (Pool.queue (Nat.iter n (Pool.runner_loop njobs) st))
    = (length (Pool.queue st) - n)%nat /\
  Pool.rejected (Nat.iter n (Pool.runner_loop njobs) st) = Pool.rejected st.
Proof.
  induction n as [|n IH]; intros st.
  - simpl. split; [lia|]. split; [lia|reflexivity].
  - rewrite Nat.iter_succ_r.
    destruct (IH (Pool.runner_loop njobs st)) as (H1 & H2 & H3).
    rewrite H1, H2, H3. unfold Pool.runner_loop.
    destruct (Pool.queue st) as [|job q] eqn:E; simpl.
    + rewrite E. simpl. split; [lia|]. split; [lia|reflexivity].
    + rewrite length_app. simpl. split; [lia|]. split; [lia|reflexivity].
Qed.

Lemma settle_saturated n choice (st : @Pool.pstate J Store) :
  saturated n st -> saturated n (Pool.settle exec store njobs choice st).
Proof.
  intros (Hle & Hfull). unfold Pool.settle.
  destruct (Pool.inflight st !! (choice mod length (Pool.inflight st))%nat)
    as [[idx job]|] eqn:E; [|split; assumption].
  pose proof (lookup_lt_Some _ _ _ E) as Hlt.
  assert (length (delete (choice mod length (Pool.inflight st))%nat
                    (Pool.inflight st))
          = (length (Pool.inflight st) - 1)%nat) as Hdel.
  { rewrite length_delete by (eexists; exact E). lia. }
  destruct (exec job) as [v|e].
  - unfold Pool.runner_loop. cbn [Pool.queue Pool.inflight Pool.rejected].
    destruct (Pool.queue st) as [|job' q] eqn:Eq;
      unfold saturated; cbn [Pool.queue Pool.inflight Pool.rejected].
    + split; [rewrite Hdel; lia|]. intros _ Hq. try rewrite Eq in Hq. congruence.
    + rewrite length_app, Hdel. cbn [length].
      split; [lia|]. intros Hrej _.
      rewrite <- (Hfull Hrej) by discriminate. lia.
  - unfold saturated; cbn [Pool.queue Pool.inflight Pool.rejected].
    split; [rewrite Hdel; lia|].
    intros Hrej. destruct (Pool.rejected st); discriminate.
Qed.

Lemma settle_all_saturated n sched fuel : forall t (st : @Pool.pstate J Store),
  saturated n st ->
  saturated n (Pool.settle_all exec store njobs fuel sched t st).
Proof.
  induction fuel as [|fuel IH]; intros t st H; simpl; [exact H|].
  apply IH. apply settle_saturated. exact H.
Qed.

(** X28.  The pools respect their concurrency.  After any number of
    completions of a pool started on [jobs] with concurrency [c], at most
    [max(1, min(c, jobs.length))] jobs are in flight; and as long as no job
    has rejected and jobs are still queued, exactly that many are: a
    runner that completes a job takes the next one at once. *)
Theorem pool_respects_concurrency (jobs : list J) (c : Z) (init : Store)
    (sched : nat -> nat) (completions : nat) :
  njobs = length jobs ->
  saturated (Z.to_nat (Z.max 1 (Z.min c (Z.of_nat (length jobs)))))
    (Pool.settle_all exec store njobs completions sched 0
       (Pool.start njobs jobs c init)).
Proof.
  intros Hn. apply settle_all_saturated.
  unfold Pool.start, Pool.width. rewrite Hn.
  set (n := Z.to_nat (Z.max 1 (Z.min c (Z.of_nat (length jobs))))).
  destruct (iter_runner_counts n
              {| Pool.queue := jobs; Pool.inflight := []; Pool.slots := init;
                 Pool.rejected := None |}) as (H1 & H2 & H3).
  rewrite <- Hn. simpl in H1, H2, H3. split.
  - rewrite H1. lia.
  - intros _ Hq. rewrite H1.
    assert (length (Pool.queue
              (Nat.iter n (Pool.runner_loop njobs)
                 {| Pool.queue := jobs; Pool.inflight := []; Pool.slots := init;
                    Pool.rejected := None |})) <> 0%nat) as Hlen.
    { intros Hz. apply Hq. apply length_zero_iff_nil. exact Hz. }
    rewrite H2 in Hlen. lia.
Qed.

End PoolBound.

Lemma classifyVideo1_leaves_no_temp_dir_witness :
  dirs (fs (snd (TM.classifyVideo1 Samples.playable (Samples.two_labels Disk)
                   (MBuffer [Byte.x00]) Samples.default_opts Samples.fresh)))
    ⊆ dirs (fs Samples.fresh).
Proof.
  apply (classifyVideo1_leaves_no_temp_dir Samples.playable
           (Samples.two_labels Disk) (fun _ _ => eq_refl)
           (MBuffer [Byte.x00]) Samples.default_opts Samples.fresh
           (fst (TM.classifyVideo1 Samples.playable (Samples.two_labels Disk)
                   (MBuffer [Byte.x00]) Samples.default_opts Samples.fresh))).
  - reflexivity.
  - apply surjective_pairing.
Defined.

Lemma temp_dir_leaks_when_write_fails_witness :
  exists s',
    TM.classifyVideo1 Notions.disk_full (Samples.two_labels Disk)
      (MBuffer [Byte.x00]) Samples.default_opts Samples.fresh
      = (Throw "ENOSPC: no space left on device"%string, s') /\
    dirs (fs s') = {[Notions.next_dir "tmvid-" Samples.fresh]} ∪ dirs (fs Samples.fresh) /\
    trace s' = trace Samples.fresh ++ [EvEnsureLocalPath; EvCleanup CleanupNoop true].
Proof.
  apply (temp_dir_leaks_when_write_fails Notions.disk_full
           (Samples.two_labels Disk) [Byte.x00] Samples.default_opts
           Samples.fresh "ENOSPC: no space left on device"%string);
    reflexivity.
Defined.

Lemma returned_io_report_witness :
  let run := TM.classifyVideo1 Samples.ram_yields_nothing (Samples.two_labels Ram)
               (MString "clip.mp4") Samples.default_opts Samples.fresh in
  exists out,
    fst run = Ok out /\
    TM.io_tempCleaned (TM.vr_io out) = false /\ tempCleaned (vars (snd run)) = true /\
    TM.io_fallbackToDisk (TM.vr_io out) = true /\ TM.io_mode_used (TM.vr_io out) = Disk.
Proof.
  intros run.
  destruct (fst run) as [out|e] eqn:E; [|vm_compute in E; discriminate].
  exists out. split; [reflexivity|].
  assert (TM.classifyVideo1 Samples.ram_yields_nothing (Samples.two_labels Ram)
            (MString "clip.mp4") Samples.default_opts Samples.fresh
          = (Ok out, snd run)) as Hrun.
  { rewrite <- E. apply surjective_pairing. }
  pose proof (returned_io_report _ _ _ _ _ _ _ Hrun) as
    (_ & _ & _ & _ & Htc & Hfin & _ & Hfb & _).
  split; [exact Htc|]. split; [exact Hfin|].
  assert (TM.io_fallbackToDisk (TM.vr_io out) = true) as Hf.
  { vm_compute in E. inversion E. reflexivity. }
  split; [exact Hf|]. apply Hfb. exact Hf.
Defined.

Lemma tally_rows_witness :
  match fst (TM.tally Samples.playable (Samples.two_labels Ram) Samples.default_opts
               1 1 [] [[Byte.x01]; [Byte.x02]] Samples.fresh) with
  | Ok (agg, fc, results) =>
      exists rows,
        fc = length rows /\
        agg = foldl TM.accumulate (replicate 2 (Some 0%Q)) rows /\
        results = imap (Notions.frame_entry (Samples.two_labels Ram) 2 []) rows
  | Throw _ => False
  end.
Proof.
  destruct (TM.tally Samples.playable (Samples.two_labels Ram) Samples.default_opts
              1 1 [] [[Byte.x01]; [Byte.x02]] Samples.fresh)
    as [[[[agg fc] results]|e] s'] eqn:E; [|vm_compute in E; discriminate].
  destruct (tally_rows _ _ _ _ _ _ _ _ _ _ _ _ E)
    as (tensors & rows & _ & _ & Hfc & Hagg & Hres).
  exists rows. auto.
Defined.

Lemma image_predictions_rank_like_frames_witness :
  exists preds,
    TM.decodeAndPredict Samples.playable (Samples.two_labels Ram) [Byte.x00]
      (Some 1) true = Ok preds /\
    preds = TM.frame_predictions (Samples.two_labels Ram) 1 [3 # 4; 1 # 4]%Q.
Proof.
  destruct (TM.decodeAndPredict Samples.playable (Samples.two_labels Ram) [Byte.x00]
              (Some 1) true) as [preds|e] eqn:E; [|vm_compute in E; discriminate].
  exists preds. split; [reflexivity|].
  destruct (image_predictions_rank_like_frames _ _ _ _ _ _ E)
    as (targetH & targetW & t & rows & _ & _ & _ & Hp & Hrow).
  vm_compute in Hp. inversion Hp as [Hrows].
  apply (Hrow [3 # 4; 1 # 4]%Q). symmetry. exact Hrows.
Defined.

Lemma base64_looking_source_witness :
  Ffmpeg.getMediaBuffer Samples.playable (MString "clip") Samples.fresh
    = (Ok (w_base64 Samples.playable "clip"), Samples.fresh) /\
  Preprocess.getImageBuffer Samples.playable (MString "clip")
    = w_readFile Samples.playable "clip".
Proof.
  destruct (base64_looking_source Samples.playable "clip" eq_refl eq_refl)
    as (Hmedia & _ & Himage).
  split; [apply Hmedia|]. rewrite Himage. reflexivity.
Defined.

Lemma split_pngs_frames_witness :
  let stream := ([Byte.xff] ++ PngStream.sig ++ [Byte.x00] ++ PngStream.sig
                 ++ [Byte.x01])%list in
  length (PngStream.split_pngs stream 1) = 1%nat /\
  PngStream.split_pngs stream 2
    = [(PngStream.sig ++ [Byte.x00])%list; (PngStream.sig ++ [Byte.x01])%list].
Proof.
  intros stream. split.
  - exact (proj1 (split_pngs_frames stream 1 ltac:(lia))).
  - reflexivity.
Defined.

Lemma playable_rowwise : Notions.rowwise Samples.playable.
Proof.
  intros batch rows H. simpl in H. inversion H. subst rows. clear H.
  induction batch as [|x batch IH]; constructor; [reflexivity|exact IH].
Qed.

Lemma batch_entries_are_single_results_witness :
  match TM.classifyBatch Samples.playable (Samples.two_labels Ram)
          [MString "a.png"; MString "b.png"; MString "c.png"] (Some 1) true (Some 2)
  with
  | Ok r => Forall (Notions.single_result Samples.playable (Samples.two_labels Ram)
                      (Some 1) true) (TM.br_results r)
  | Throw _ => False
  end.
Proof.
  destruct (TM.classifyBatch Samples.playable (Samples.two_labels Ram)
              [MString "a.png"; MString "b.png"; MString "c.png"] (Some 1) true (Some 2))
    as [r|e] eqn:E; [|vm_compute in E; discriminate].
  exact (batch_entries_are_single_results Samples.playable (Samples.two_labels Ram)
           (Some 1) true playable_rowwise _ _ r E).
Defined.

Lemma cli_plain_inputs_witness :
  Cli.main (fun _ => NaN) ["--model"; "./model"; "cat.jpg"]%string =
    Cli.Run {| Cli.modelUrl := None; Cli.modelDir := Some "./model"%string;
               Cli.saveToDir := Some "./model"%string;
               Cli.c_backend := "tfjs"; Cli.c_ioMode := Ram |}
      (Cli.CallClassify true ["cat.jpg"%string] (Num 10) None false
         (Num (10 * 1024 * 1024))).
Proof.
  exact (cli_plain_inputs (fun _ => NaN) "./model" ["cat.jpg"%string]
           ltac:(discriminate) ltac:(discriminate)
           ltac:(repeat constructor)).
Defined.

Lemma disk_result_frames_witness :
  match fst (TM.classifyVideo1 Samples.playable (Samples.two_labels Disk)
               (MString "clip.mp4") Samples.default_opts Samples.fresh) with
  | Ok out => (length (TM.vr_results out) <= Z.to_nat (TM.vr_frames out))%nat
  | Throw _ => False
  end.
Proof.
  destruct (TM.classifyVideo1 Samples.playable (Samples.two_labels Disk)
              (MString "clip.mp4") Samples.default_opts Samples.fresh)
    as [[out|e] s'] eqn:E; [|vm_compute in E; discriminate].
  simpl.
  destruct (disk_result_frames Samples.playable (Samples.two_labels Disk)
              (MString "clip.mp4") Samples.default_opts Samples.fresh out s'
              eq_refl ltac:(discriminate) E) as (d & _ & Hlen & _).
  exact Hlen.
Defined.

Lemma create_fills_the_cache_witness :
  let s0 := {| Create.store := ∅; Create.net := [] |} in
  match Create.create Notions.hosted Notions.cached_opts s0 with
  | (Ok tm, s1) =>
      Create.create Notions.offline Notions.cached_opts s1 = (Ok tm, s1) /\
      Create.net s1 = [Create.NetGet "https://host/models/m/metadata.json";
                       Create.NetLoad "https://host/models/m/model.json"]
  | (Throw _, _) => False
  end.
Proof.
  intros s0.
  destruct (Create.create Notions.hosted Notions.cached_opts s0)
    as [[tm|e] s1] eqn:E; [|cbv in E; discriminate].
  split.
  - apply (proj2 (create_fills_the_cache Notions.hosted Notions.offline
                    Notions.cached_opts s0 "./model" tm s1 eq_refl
                    ltac:(discriminate) eq_refl eq_refl (lookup_empty _)
                    eq_refl eq_refl E)).
  - cbv [Create.create Create.create_body Create.load_remote Create.save_local
         Notions.hosted Notions.cached_opts] in E.
    simpl in E. inversion E. reflexivity.
Defined.

Lemma modes_agree_witness :
  let turbo := {| TM.o_frames := None; TM.o_topK := None; TM.o_centerCrop := true;
                  TM.o_turboMode := true; TM.o_extractionConcurrency := Some 4;
                  TM.o_preprocessConcurrency := Some 3;
                  TM.o_maxConcurrent := None; TM.o_maxBytes := None |} in
  match fst (TM.classifyVideo1 Samples.playable (Samples.two_labels Ram)
               (MString "clip.mp4") turbo Samples.fresh),
        fst (TM.classifyVideo1 Samples.playable (Samples.two_labels Ram)
               (MString "clip.mp4") Samples.default_opts Samples.fresh) with
  | Ok out1, Ok out2 =>
      TM.vr_results out1 = TM.vr_results out2 /\
      TM.vr_turboMode out1 = true /\ TM.vr_turboMode out2 = false
  | _, _ => False
  end.
Proof.
  intros turbo.
  destruct (TM.classifyVideo1 Samples.playable (Samples.two_labels Ram)
              (MString "clip.mp4") turbo Samples.fresh)
    as [[out1|e] s1] eqn:E1; [|vm_compute in E1; discriminate].
  destruct (TM.classifyVideo1 Samples.playable (Samples.two_labels Ram)
              (MString "clip.mp4") Samples.default_opts Samples.fresh)
    as [[out2|e] s2] eqn:E2; [|vm_compute in E2; discriminate].
  simpl. split.
  - apply (modes_agree Samples.playable (Samples.two_labels Ram) playable_rowwise
             (MString "clip.mp4") turbo Samples.default_opts Samples.fresh
             out1 s1 out2 s2 eq_refl eq_refl eq_refl eq_refl E1 E2).
  - vm_compute in E1. vm_compute in E2. inversion E1. inversion E2.
    split; reflexivity.
Defined.

Lemma pool_respects_concurrency_witness :
  Notions.saturated 2
    (Pool.settle_all (fun u : nat => Ok u) (fun _ r (out : list nat) => out ++ [r])
       5 3 (fun _ => 1%nat) 0
       (Pool.start 5 [10; 20; 30; 40; 50]%nat 2 [])).
Proof.
  exact (pool_respects_concurrency (fun u : nat => Ok u)
           (fun _ r (out : list nat) => out ++ [r]) 5
           [10; 20; 30; 40; 50]%nat 2 [] (fun _ => 1%nat) 3 eq_refl).
Defined.
